(** * transformers_neuronx/module.py: split checkpoints, low-memory modules,
      greedy search

    A shallow embedding of [module.py].  Python strings are lists of Unicode
    code points, exceptions are values of [exn], and the methods of
    [LowMemoryModule] run in a state-and-exception monad over a [world] that
    holds the file system, the parameter objects and the module attribute
    tables.  The tensor library and the Unicode tables are interfaces. *)

From Stdlib Require Import ZArith NArith QArith Lia DecimalNat.
From stdpp Require Import base option list gmap strings.

Set Warnings "-register-all,-clear-no-such-hyp".

Open Scope list_scope.
Close Scope Q_scope.
Open Scope nat_scope.

(** ** Python strings *)

(** A [str] is a sequence of code points. *)
Abbreviation pystr := (list N).

Definition pystr_of (s : string) : pystr :=
  map Ascii.N_of_ascii (String.list_ascii_of_string s).

Module Chr.
Definition space : N := 32.
Definition underscore : N := 95.
Definition hyphen : N := 45.
Definition dot : N := 46.
Definition slash : N := 47.
Definition p : N := 112.
End Chr.

(** [str.isspace] on one code point (CPython's [_PyUnicode_IsWhitespace]). *)
Definition isspace (c : N) : bool :=
  ((9 <=? c) && (c <=? 13) || (28 <=? c) && (c <=? 32)
   || (c =? 133) || (c =? 160) || (c =? 5760)
   || (8192 <=? c) && (c <=? 8202)
   || (c =? 8232) || (c =? 8233) || (c =? 8239) || (c =? 8287)
   || (c =? 12288))%N.

Fixpoint lstrip (s : pystr) : pystr :=
  match s with
  | c :: s' => if isspace c then lstrip s' else s
  | [] => []
  end.

Definition rstrip (s : pystr) : pystr := rev (lstrip (rev s)).

(** [s.strip()] *)
Definition strip (s : pystr) : pystr := rstrip (lstrip s).

(** [s.replace(old, new)] for one-character [old] and [new]. *)
Definition replace (old new : N) (s : pystr) : pystr :=
  map (fun c => if (c =? old)%N then new else c) s.

Fixpoint startswith (pre s : pystr) : bool :=
  match pre, s with
  | [], _ => true
  | a :: pre', b :: s' => (a =? b)%N && startswith pre' s'
  | _ :: _, [] => false
  end.

(** [s.endswith(suf)] *)
Definition endswith (suf s : pystr) : bool := startswith (rev suf) (rev s).

(** [sub in s] for strings: substring test. *)
Fixpoint str_contains (sub s : pystr) : bool :=
  startswith sub s ||
  match s with
  | [] => false
  | _ :: s' => str_contains sub s'
  end.

Definition digit (k : N) : N := 48 + k.

Fixpoint uint_chars (d : Decimal.uint) : pystr :=
  match d with
  | Decimal.Nil => []
  | Decimal.D0 d => digit 0 :: uint_chars d
  | Decimal.D1 d => digit 1 :: uint_chars d
  | Decimal.D2 d => digit 2 :: uint_chars d
  | Decimal.D3 d => digit 3 :: uint_chars d
  | Decimal.D4 d => digit 4 :: uint_chars d
  | Decimal.D5 d => digit 5 :: uint_chars d
  | Decimal.D6 d => digit 6 :: uint_chars d
  | Decimal.D7 d => digit 7 :: uint_chars d
  | Decimal.D8 d => digit 8 :: uint_chars d
  | Decimal.D9 d => digit 9 :: uint_chars d
  end.

(** [str(n)] / [f'{n}'] for a non-negative [int]. *)
Definition str_of_nat (n : nat) : pystr := uint_chars (Nat.to_uint n).

(** ** Exceptions *)

Inductive exn :=
  | ValueError | KeyError | TypeError | AttributeError | IndexError
  | FileNotFoundError | JSONDecodeError | UnicodeDecodeError | UnpicklingError
  | RuntimeError | RecursionError.

Inductive result (A : Type) :=
  | Ok (a : A)
  | Raise (e : exn).
Arguments Ok {A} a.
Arguments Raise {A} e.

(** ** The Unicode tables *)

(** [re]'s [\w] under the [(?u)] flag is [ch.isalnum() or ch == '_'].  On
    ASCII that is [A-Za-z0-9_]; beyond ASCII it is the Unicode database's
    alphanumeric property, which is an interface here. *)
Class Unicode := { unicode_isalnum : N -> bool }.

Section Sanitize.
Context `{Unicode}.

Definition ascii_isalnum (c : N) : bool :=
  ((48 <=? c) && (c <=? 57) || (65 <=? c) && (c <=? 90)
   || (97 <=? c) && (c <=? 122))%N.

Definition isalnum (c : N) : bool :=
  if (c <? 128)%N then ascii_isalnum c else unicode_isalnum c.

(** [\w] *)
Definition is_word (c : N) : bool := isalnum c || (c =? Chr.underscore)%N.

(** The class [[-\w.]]: hyphen, word character, dot. *)
Definition in_class (c : N) : bool :=
  (c =? Chr.hyphen)%N || is_word c || (c =? Chr.dot)%N.

(** [re.sub(r'(?u)[^-\w.]', '', s)]: every character matched by the negated
    class is replaced by the empty string. *)
Fixpoint re_sub_delete (s : pystr) : pystr :=
  match s with
  | [] => []
  | c :: s' => if negb (in_class c) then re_sub_delete s' else c :: re_sub_delete s'
  end.

(** [sanitized in {'', '.', '..'}] *)
Definition unusable (s : pystr) : bool :=
  match s with
  | [] => true
  | [c] => (c =? Chr.dot)%N
  | [c; d] => (c =? Chr.dot)%N && (d =? Chr.dot)%N
  | _ => false
  end.

Definition sanitize_file_name (name : pystr) : result pystr :=
  let sanitized := replace Chr.space Chr.underscore (strip name) in
  let sanitized := re_sub_delete sanitized in
  if unusable sanitized then Raise ValueError else Ok sanitized.

(** The name as the specification words it: trim surrounding whitespace,
    turn each space into an underscore, keep only word characters, hyphens
    and dots. *)
Fixpoint trim_left (s : pystr) : pystr :=
  match s with
  | [] => []
  | c :: s' => if isspace c then trim_left s' else s
  end.

Fixpoint trim_right (s : pystr) : pystr :=
  match s with
  | [] => []
  | c :: s' =>
      match trim_right s' with
      | [] => if isspace c then [] else [c]
      | t => c :: t
      end
  end.

Definition trim_spec (s : pystr) : pystr := trim_right (trim_left s).

Definition sanitized_spec (name : pystr) : pystr :=
  filter (fun c => is_word c = true \/ c = Chr.hyphen \/ c = Chr.dot)
    (map (fun c => if decide (c = Chr.space) then Chr.underscore else c) (trim_spec name)).

End Sanitize.

(** ** Python dictionaries

    A [dict] keeps its keys in insertion order.  Assigning to a key that is
    present replaces the value where it stands; a new key goes to the end. *)

Abbreviation dict V := (list (pystr * V)).

Fixpoint dict_get {V} (k : pystr) (d : dict V) : option V :=
  match d with
  | [] => None
  | (k', v) :: d' => if decide (k' = k) then Some v else dict_get k d'
  end.

(** [k in d] *)
Definition dict_contains {V} (k : pystr) (d : dict V) : bool :=
  match dict_get k d with Some _ => true | None => false end.

(** [d[k] = v] *)
Fixpoint dict_set {V} (k : pystr) (v : V) (d : dict V) : dict V :=
  match d with
  | [] => [(k, v)]
  | (k', v') :: d' => if decide (k' = k) then (k, v) :: d' else (k', v') :: dict_set k v d'
  end.

(** What is left of [d] after [d.pop(k)]. *)
Fixpoint dict_remove {V} (k : pystr) (d : dict V) : dict V :=
  match d with
  | [] => []
  | (k', v') :: d' => if decide (k' = k) then d' else (k', v') :: dict_remove k d'
  end.

(** [{k: v for k, v in items}] *)
Definition dict_of_items {V} (items : list (pystr * V)) : dict V :=
  fold_left (fun d kv => dict_set kv.1 kv.2 d) items [].

(** [enumerate(l)] *)
Definition enumerate {A} (l : list A) : list (nat * A) := combine (seq 0 (length l)) l.

(** ** JSON documents, as [json.load] returns them *)

Inductive json :=
  | JNull
  | JBool (b : bool)
  | JInt (z : Z)
  | JReal (q : Q)
  | JStr (s : pystr)
  | JArr (l : list json)
  | JObj (d : list (pystr * json)).

(** [key in v] for a string [key]: key lookup in a dict, substring test in a
    string, element test in a list; other values are not containers. *)
Definition py_contains (key : pystr) (v : json) : result bool :=
  match v with
  | JObj d => Ok (dict_contains key d)
  | JStr s => Ok (str_contains key s)
  | JArr l => Ok (existsb (fun j => match j with JStr s => bool_decide (s = key) | _ => false end) l)
  | _ => Raise TypeError
  end.

(** [v[key]] for a string [key]: only a dict can be indexed by a string. *)
Definition py_getitem (v : json) (key : pystr) : result json :=
  match v with
  | JObj d => match dict_get key d with Some x => Ok x | None => Raise KeyError end
  | _ => Raise TypeError
  end.

Definition as_number (j : json) : option Q :=
  match j with
  | JInt z => Some (inject_Z z)
  | JReal q => Some q
  | JBool b => Some (inject_Z (if b then 1 else 0))
  | _ => None
  end.

Definition as_dim (j : json) : option nat :=
  match j with
  | JInt z => if (0 <=? z)%Z then Some (Z.to_nat z) else None
  | _ => None
  end.

(** The size argument of [torch.randn]: a list of non-negative ints, or one. *)
Definition as_size (j : json) : option (list nat) :=
  match j with
  | JArr l => mapM as_dim l
  | JInt _ => (fun n => [n]) <$> as_dim j
  | _ => None
  end.

(** ** Paths *)

(** [os.path.join(a, b)] (posixpath). *)
Definition path_join (a b : pystr) : pystr :=
  if startswith [Chr.slash] b then b
  else if bool_decide (a = []) || endswith [Chr.slash] a then a ++ b
  else a ++ Chr.slash :: b.

Class Posix := {
  (** [os.path.realpath] *)
  realpath : pystr -> pystr
}.

Definition _KEY_TO_FILENAME_JSON : pystr := pystr_of "key_to_filename.json".

(** ** The tensor library *)

Class Torch := {
  tensor : Type;
  dtype : Type;
  generator : Type;
  (** [t.shape] *)
  shape : tensor -> list nat;
  (** The storage [UninitializedParameter.materialize(shape)] allocates. *)
  empty : list nat -> tensor;
  (** [dst.copy_(src)]: the new contents of [dst], or [None] when the copy
      raises [RuntimeError] (shapes that do not broadcast); a failed copy
      leaves [dst] as it was. *)
  copy_ : tensor -> tensor -> option tensor;
  (** [torch.randn(size)] draws from the global generator. *)
  randn : list nat -> generator -> tensor * generator;
  (** [x * t] for a Python number [x]. *)
  scale : Q -> tensor -> tensor;
  (** [getattr(torch, name)] where it names a dtype. *)
  torch_dtype : pystr -> option dtype;
  (** [t.to(dtype)] *)
  to_ : tensor -> dtype -> tensor;
  shape_empty : forall sh, shape (empty sh) = sh;
  copy_same_shape : forall dst src, shape dst = shape src -> is_Some (copy_ dst src)
}.

Section World.
Context `{Unicode} `{Posix} `{Torch}.

(** What a file holds: the bytes [torch.save] wrote for a tensor, the text
    of a JSON document, or text that is no JSON document. *)
Inductive file :=
  | TensorFile (t : tensor)
  | JsonFile (j : json)
  | OtherFile.

(** A parameter object: [data] is [None] while it is an
    [UninitializedParameter]; [_file_path] is [None] while the attribute
    is not set. *)
Record param := Param { data : option tensor; _file_path : option pystr }.

(** [UninitializedParameter()] *)
Definition uninitialized : param := Param None None.

Record world := World {
  (** regular files, by path *)
  fs : gmap pystr file;
  (** directories made by [os.makedirs] *)
  dirs : gset pystr;
  (** [module._parameters] of each module object, by object id; slots
      that hold [None] are left out, every enumeration skips them *)
  slots : gmap nat (dict nat);
  (** parameter objects, by object id *)
  objs : gmap nat param;
  (** id of the next object to allocate *)
  next_obj : nat;
  (** the global random generator *)
  gen : generator;
  (** the dict handed to [load_state_dict_low_memory] (the caller's object) *)
  mapping : dict tensor;
  (** paths handed to [open] for reading (by [torch.load] too), latest
      first; a path is recorded even when the file is not there *)
  opened : list pystr
}.

Definition with_fs (f : gmap pystr file) (w : world) : world :=
  World f (dirs w) (slots w) (objs w) (next_obj w) (gen w) (mapping w) (opened w).
Definition with_dirs (d : gset pystr) (w : world) : world :=
  World (fs w) d (slots w) (objs w) (next_obj w) (gen w) (mapping w) (opened w).
Definition with_slots (s : gmap nat (dict nat)) (w : world) : world :=
  World (fs w) (dirs w) s (objs w) (next_obj w) (gen w) (mapping w) (opened w).
Definition with_objs (o : gmap nat param) (w : world) : world :=
  World (fs w) (dirs w) (slots w) o (next_obj w) (gen w) (mapping w) (opened w).
Definition with_next_obj (n : nat) (w : world) : world :=
  World (fs w) (dirs w) (slots w) (objs w) n (gen w) (mapping w) (opened w).
Definition with_gen (g : generator) (w : world) : world :=
  World (fs w) (dirs w) (slots w) (objs w) (next_obj w) g (mapping w) (opened w).
Definition with_mapping (m : dict tensor) (w : world) : world :=
  World (fs w) (dirs w) (slots w) (objs w) (next_obj w) (gen w) m (opened w).
Definition with_opened (l : list pystr) (w : world) : world :=
  World (fs w) (dirs w) (slots w) (objs w) (next_obj w) (gen w) (mapping w) l.

(** *** Statements: state and exceptions

    A statement maps the world to a result and the world it leaves; an
    exception keeps every effect that came before it. *)
Definition M (A : Type) : Type := world -> result A * world.

Definition ret {A} (a : A) : M A := fun w => (Ok a, w).
Definition raise {A} (e : exn) : M A := fun w => (Raise e, w).
Definition bind {A B} (m : M A) (k : A -> M B) : M B :=
  fun w => match m w with
           | (Ok a, w') => k a w'
           | (Raise e, w') => (Raise e, w')
           end.
Definition get : M world := fun w => (Ok w, w).
Definition modify (f : world -> world) : M unit := fun w => (Ok tt, f w).
Definition lift {A} (r : result A) : M A := fun w => (r, w).
Definition lift_opt {A} (e : exn) (o : option A) : M A :=
  match o with Some a => ret a | None => raise e end.

(** [for x in l: body(x)] *)
Fixpoint for_ {A} (l : list A) (body : A -> M unit) : M unit :=
  match l with
  | [] => ret tt
  | x :: l' => bind (body x) (fun _ => for_ l' body)
  end.

(** A loop that updates one local variable. *)
Fixpoint fold_m {A S} (l : list A) (s : S) (body : S -> A -> M S) : M S :=
  match l with
  | [] => ret s
  | x :: l' => bind (body s x) (fun s' => fold_m l' s' body)
  end.

End World.

Notation "'let*' x ':=' m 'in' k" := (bind m (fun x => k))
  (at level 10, x pattern, m at level 100, k at level 200, only parsing).
Notation "m ;;; k" := (bind m (fun _ => k))
  (at level 100, k at level 200, right associativity, only parsing).

(** ** Module trees

    A module object is known by its id; [children] are the entries of its
    [_modules] that are not [None], in order.  A module registered in two
    places appears twice with the same id.  The parameters of a module are
    not part of the tree: they live in the world ([slots]), where [setattr]
    changes them for every occurrence at once. *)
Inductive pymodule := Mod (id : nat) (children : list (pystr * pymodule)).

Definition mod_id (m : pymodule) : nat := match m with Mod i _ => i end.
Definition mod_children (m : pymodule) : list (pystr * pymodule) :=
  match m with Mod _ cs => cs end.

(** [a is b] on module objects. *)
Definition is_ (a b : pymodule) : bool := bool_decide (mod_id a = mod_id b).

(** [prefix + ('.' if prefix else '') + name] *)
Definition qualify (prefix name : pystr) : pystr :=
  prefix ++ (match prefix with [] => [] | _ => [Chr.dot] end) ++ name.

(** The loop of [named_modules] over [self._modules.items()]. *)
Definition walk_children
    (walk : pymodule -> gset nat -> pystr -> list (pystr * pymodule) * gset nat)
    (prefix : pystr)
    : list (pystr * pymodule) -> gset nat -> list (pystr * pymodule) * gset nat :=
  fix over cs memo :=
    match cs with
    | [] => ([], memo)
    | (name, c) :: cs' =>
        let r1 := walk c memo (qualify prefix name) in
        let r2 := over cs' r1.2 in
        (r1.1 ++ r2.1, r2.2)
    end.

(** [torch.nn.Module.named_modules(memo, prefix)]: the module itself, then
    its descendants in depth-first order, each object once; returns the
    memo as the generator leaves it. *)
Fixpoint named_modules_from (m : pymodule) (memo : gset nat) (prefix : pystr)
    : list (pystr * pymodule) * gset nat :=
  match m with
  | Mod i cs =>
      if decide (i ∈ memo) then ([], memo)
      else
        let r := walk_children named_modules_from prefix cs ({[i]} ∪ memo) in
        ((prefix, m) :: r.1, r.2)
  end.

(** [module.named_modules()] *)
Definition named_modules (m : pymodule) : list (pystr * pymodule) :=
  (named_modules_from m ∅ []).1.

(** [module.modules()] *)
Definition modules (m : pymodule) : list pymodule := (named_modules m).*2.

Definition max_over (f : pymodule -> nat) : list (pystr * pymodule) -> nat :=
  fix over cs :=
    match cs with
    | [] => 0
    | (_, c) :: cs' => Nat.max (f c) (over cs')
    end.

(** Number of nested calls a recursive walk over the tree needs. *)
Fixpoint height (m : pymodule) : nat :=
  match m with Mod _ cs => S (max_over height cs) end.

Definition concat_over (f : pymodule -> list pymodule)
    : list (pystr * pymodule) -> list pymodule :=
  fix over cs :=
    match cs with
    | [] => []
    | (_, c) :: cs' => f c ++ over cs'
    end.

(** Every occurrence of a module in the tree, the root included. *)
Fixpoint nodes (m : pymodule) : list pymodule :=
  match m with Mod _ cs => m :: concat_over nodes cs end.

(** Occurrences with the same id are occurrences of the same module object,
    so they have the same children. *)
Definition consistent (m : pymodule) : Prop :=
  forall a b, a ∈ nodes m -> b ∈ nodes m -> mod_id a = mod_id b -> a = b.

Section Operations.
Context `{Unicode} `{Posix} `{Torch}.

(** *** Files *)

(** [os.makedirs(d, exist_ok=True)] *)
Definition makedirs (d : pystr) : M unit :=
  modify (fun w => with_dirs ({[d]} ∪ dirs w) w).

(** Opening [path] for writing and writing [content]. *)
Definition write_file (path : pystr) (content : file) : M unit :=
  modify (fun w => with_fs (<[path := content]> (fs w)) w).

(** [open(path)] for reading: the file's content. *)
Definition open_read (path : pystr) : M file :=
  modify (fun w => with_opened (path :: opened w) w) ;;;
  let* w := get in
  lift_opt FileNotFoundError (fs w !! path).

(** [json.load(fp)] on a file opened with [open(path)], in text mode: the
    bytes [torch.save] wrote do not decode as text, and text that is no
    JSON document does not parse. *)
Definition json_load (fp : file) : M json :=
  match fp with
  | JsonFile j => ret j
  | TensorFile _ => raise UnicodeDecodeError
  | OtherFile => raise JSONDecodeError
  end.

(** [json.dump(key_to_filename, f)], as [json.load] reads it back. *)
Definition json_dump (key_to_filename : dict pystr) : json :=
  JObj (map (fun kv => (kv.1, JStr kv.2)) key_to_filename).

(** [torch.save(t, path)] *)
Definition torch_save (t : tensor) (path : pystr) : M unit :=
  write_file path (TensorFile t).

(** [torch.load(path)] *)
Definition torch_load (path : pystr) : M tensor :=
  let* f := open_read path in
  match f with
  | TensorFile t => ret t
  | _ => raise UnpicklingError
  end.

(** *** save_split *)

Definition file_name (idx : nat) (sanitized : pystr) : pystr :=
  Chr.p :: str_of_nat idx ++ Chr.dot :: sanitized.

(** [key_to_filename[key] = f'p{idx}.{sanitize_file_name(key)}'] *)
Definition assign_file_name (key_to_filename : dict pystr) (ik : nat * pystr)
    : M (dict pystr) :=
  let* sanitized := lift (sanitize_file_name ik.2) in
  ret (dict_set ik.2 (file_name ik.1 sanitized) key_to_filename).

(** [torch.save(tensor, os.path.join(save_dir, key_to_filename[key]))] *)
Definition save_tensor (save_dir : pystr) (key_to_filename : dict pystr)
    (kt : pystr * tensor) : M unit :=
  let* name := lift_opt KeyError (dict_get kt.1 key_to_filename) in
  torch_save kt.2 (path_join save_dir name).

Definition save_split (state_dict : dict tensor) (save_dir : pystr) : M unit :=
  makedirs save_dir ;;;
  let* key_to_filename :=
    fold_m (enumerate state_dict.*1) ([] : dict pystr) assign_file_name in
  write_file (path_join save_dir _KEY_TO_FILENAME_JSON)
    (JsonFile (json_dump key_to_filename)) ;;;
  for_ state_dict (save_tensor save_dir key_to_filename).

(** *** Parameter objects *)

(** The object an id names.  Every id held in a slot names an object; an
    id that names none reads as a blank placeholder. *)
Definition obj (w : world) (r : nat) : param := default uninitialized (objs w !! r).

Definition get_param (r : nat) : M param := let* w := get in ret (obj w r).

Definition set_param (r : nat) (p : param) : M unit :=
  modify (fun w => with_objs (<[r := p]> (objs w)) w).

(** [torch.nn.parameter.is_lazy(param)] *)
Definition is_lazy (r : nat) : M bool :=
  let* p := get_param r in
  ret (match data p with None => true | Some _ => false end).

(** [param.materialize(shape)] on an [UninitializedParameter] *)
Definition param_materialize (r : nat) (sh : list nat) : M unit :=
  let* p := get_param r in
  set_param r (Param (Some (empty sh)) (_file_path p)).

(** [param.copy_(input_param)] *)
Definition param_copy_ (r : nat) (input_param : tensor) : M unit :=
  let* p := get_param r in
  match data p with
  | None => raise RuntimeError
  | Some dst =>
      match copy_ dst input_param with
      | None => raise RuntimeError
      | Some t => set_param r (Param (Some t) (_file_path p))
      end
  end.

(** [param._file_path = path] *)
Definition set_file_path (r : nat) (path : pystr) : M unit :=
  let* p := get_param r in
  set_param r (Param (data p) (Some path)).

(** Allocation of a new parameter object. *)
Definition new_param (p : param) : M nat :=
  let* w := get in
  let r := next_obj w in
  modify (fun w => with_next_obj (S r) (with_objs (<[r := p]> (objs w)) w)) ;;;
  ret r.

(** *** Enumerating parameters (torch) *)

Definition params_of (w : world) (m : pymodule) : dict nat :=
  default [] (slots w !! mod_id m).

(** The inner loop of [Module._named_members]: the members of one module
    that were not seen before, under their qualified names. *)
Fixpoint members_of (module_prefix : pystr) (items : dict nat) (memo : gset nat)
    : list (pystr * nat) * gset nat :=
  match items with
  | [] => ([], memo)
  | (k, v) :: rest =>
      if decide (v ∈ memo) then members_of module_prefix rest memo
      else
        let r := members_of module_prefix rest ({[v]} ∪ memo) in
        ((qualify module_prefix k, v) :: r.1, r.2)
  end.

Fixpoint named_members (w : world) (mods : list (pystr * pymodule)) (memo : gset nat)
    : list (pystr * nat) :=
  match mods with
  | [] => []
  | (module_prefix, m) :: rest =>
      let r := members_of module_prefix (params_of w m) memo in
      r.1 ++ named_members w rest r.2
  end.

(** [module.named_parameters()]: recursive, each parameter object once.
    The callers below write only to slots and objects the generator has
    already passed, so reading the tables up front yields what the
    generator yields. *)
Definition named_parameters (m : pymodule) : M (list (pystr * nat)) :=
  let* w := get in ret (named_members w (named_modules m) ∅).

(** [module.parameters()] *)
Definition parameters (m : pymodule) : M (list nat) :=
  let* nps := named_parameters m in ret nps.*2.

(** The parameter objects [module.parameters()] yields in world [w]. *)
Definition tree_parameters (w : world) (m : pymodule) : list nat :=
  (named_members w (named_modules m) ∅).*2.

Definition params_by_id (w : world) (i : nat) : dict nat := default [] (slots w !! i).

(** The tables of parameters as torch keeps them: names are unique within
    a module and contain no dot, and every registered object exists. *)
Definition wf_slots (w : world) : Prop :=
  forall i d, slots w !! i = Some d ->
    NoDup d.*1 /\ Forall (fun name => str_contains [Chr.dot] name = false) d.*1 /\
    Forall (fun r => r < next_obj w) d.*2.

(** No parameter object is registered under two names of one module.
    Torch does not see to this: [self.a = p; self.b = p] is legal, and
    [named_parameters] then yields [p] under its first name only. *)
Definition untied (w : world) : Prop :=
  forall i d, slots w !! i = Some d -> NoDup d.*2.

(** Both together. *)
Definition plain_slots (w : world) : Prop :=
  forall i d, slots w !! i = Some d ->
    NoDup d.*1 /\ Forall (fun name => str_contains [Chr.dot] name = false) d.*1 /\
    NoDup d.*2 /\ Forall (fun r => r < next_obj w) d.*2.

(** Every parameter of module [i] is a placeholder allocated at or after
    [n0]: uninitialized, no [_file_path]. *)
Definition blank_slots (n0 : nat) (w : world) (i : nat) : Prop :=
  forall k r, (k, r) ∈ params_by_id w i ->
    n0 <= r < next_obj w /\ objs w !! r = Some uninitialized.

(** [hasattr(module, name)] for a name [named_parameters] yields without a
    dot: child names are never empty, so such a name is one of the
    module's own parameters when the attribute exists. *)
Definition hasattr (module : pymodule) (name : pystr) : M bool :=
  let* w := get in ret (dict_contains name (params_of w module)).

(** [setattr(module, name, param)] for a parameter object. *)
Definition setattr (module : pymodule) (name : pystr) (r : nat) : M unit :=
  modify (fun w =>
    with_slots (<[mod_id module := dict_set name r (params_of w module)]> (slots w)) w).

End Operations.

Section LowMemoryModule.
Context `{Unicode} `{Posix} `{Torch}.

Definition empty_json_suffix : pystr := pystr_of ".empty_json".

(** The tensor an [.empty_json] side file stands for. *)
Definition from_empty_json (path : pystr) : M tensor :=
  let* fp := open_read path in
  let* empty_json := json_load fp in
  let* init_std := lift (py_getitem empty_json (pystr_of "init_std")) in
  let* size := lift (py_getitem empty_json (pystr_of "shape")) in
  let* size := lift_opt TypeError (as_size size) in
  let* w := get in
  let noise := randn size (gen w) in
  modify (with_gen noise.2) ;;;
  let* std := lift_opt TypeError (as_number init_std) in
  let input_param := scale std noise.1 in
  let* name := lift (py_getitem empty_json (pystr_of "torch_dtype")) in
  let* name := match name with JStr s => ret s | _ => raise TypeError end in
  let* dtype := lift_opt AttributeError (torch_dtype name) in
  ret (to_ input_param dtype).

(** The body of the loop of [materialize], for one parameter. *)
Definition materialize_param (param : nat) : M unit :=
  let* p := get_param param in
  match _file_path p with
  | None => ret tt
  | Some path =>
      let* input_param :=
        if endswith empty_json_suffix path then from_empty_json path
        else torch_load path in
      let* lazy := is_lazy param in
      (if lazy then param_materialize param (shape input_param) else ret tt) ;;;
      param_copy_ param input_param
  end.

Definition materialize (self : pymodule) : M unit :=
  let* params := parameters self in
  for_ params materialize_param.

(** The body of the first loop of [_nullify]. *)
Definition nullify_parameter (module : pymodule) (entry : pystr * nat) : M unit :=
  let* has := hasattr module entry.1 in
  if negb (str_contains [Chr.dot] entry.1) && has then
    let* u := new_param uninitialized in
    setattr module entry.1 u
  else ret tt.

(** [fuel] bounds the depth of nested calls, as the interpreter's
    recursion limit does. *)
Fixpoint _nullify (fuel : nat) (module : pymodule) : M unit :=
  match fuel with
  | 0 => raise RecursionError
  | S fuel' =>
      let* nps := named_parameters module in
      for_ nps (nullify_parameter module) ;;;
      for_ (modules module) (fun child =>
        if is_ child module then ret tt
        else _nullify fuel' child)
  end.

Definition nullify (fuel : nat) (self : pymodule) : M unit := _nullify fuel self.

(** [state_dict.pop(key)] on the caller's dict. *)
Definition state_dict_pop (key : pystr) : M tensor :=
  let* w := get in
  match dict_get key (mapping w) with
  | None => raise KeyError
  | Some t => modify (with_mapping (dict_remove key (mapping w))) ;;; ret t
  end.

(** The body of the loop of [_load_from_state_dict_low_memory]. *)
Definition load_entry_low_memory (prefix : pystr) (entry : pystr * nat) : M unit :=
  let key := prefix ++ entry.1 in
  let* w := get in
  if dict_contains key (mapping w) then
    let* input_param := state_dict_pop key in
    let* lazy := is_lazy entry.2 in
    (if lazy then param_materialize entry.2 (shape input_param) else ret tt) ;;;
    param_copy_ entry.2 input_param
  else ret tt.

Definition _load_from_state_dict_low_memory (self : pymodule) (prefix : pystr) : M unit :=
  let* nps := named_parameters self in
  let local_state := dict_of_items nps in
  for_ local_state (load_entry_low_memory prefix).

(** The local function [load] of [load_state_dict_low_memory]. *)
Fixpoint load_low_memory (fuel : nat) (module : pymodule) (prefix : pystr) : M unit :=
  match fuel with
  | 0 => raise RecursionError
  | S fuel' =>
      _load_from_state_dict_low_memory module prefix ;;;
      for_ (named_modules module) (fun '(name, child) =>
        if is_ child module then ret tt
        else load_low_memory fuel' child (prefix ++ name ++ [Chr.dot]))
  end.

(** [self.load_state_dict_low_memory(state_dict)], with [state_dict] the
    world's [mapping]. *)
Definition load_state_dict_low_memory (fuel : nat) (self : pymodule) : M unit :=
  load_low_memory fuel self [].

(** [key_to_filename] is whatever value the caller passes: the manifest,
    or, as the local [load] below calls it, a string. *)
Definition load_entry_dir (key_to_filename : json) (state_dict_dir : pystr)
    (prefix : pystr) (entry : pystr * nat) : M unit :=
  let key := prefix ++ entry.1 in
  let* present := lift (py_contains key key_to_filename) in
  if present then
    let* name := lift (py_getitem key_to_filename key) in
    let* name := match name with JStr s => ret s | _ => raise TypeError end in
    set_file_path entry.2 (path_join state_dict_dir name)
  else ret tt.

Definition _load_from_state_dict_dir (self : pymodule) (key_to_filename : json)
    (state_dict_dir : pystr) (prefix : pystr) : M unit :=
  let* nps := named_parameters self in
  let local_state := dict_of_items nps in
  for_ local_state (load_entry_dir key_to_filename state_dict_dir prefix).

(** The local function [load(module, key_to_filename, prefix='')] of
    [load_state_dict_dir].  Its recursive call is
    [load(child, prefix + name + '.')]: the string lands in
    [key_to_filename] and [prefix] takes its default. *)
Fixpoint load_dir (fuel : nat) (state_dict_dir : pystr) (module : pymodule)
    (key_to_filename : json) (prefix : pystr) : M unit :=
  match fuel with
  | 0 => raise RecursionError
  | S fuel' =>
      _load_from_state_dict_dir module key_to_filename state_dict_dir prefix ;;;
      for_ (named_modules module) (fun '(name, child) =>
        if is_ child module then ret tt
        else load_dir fuel' state_dict_dir child (JStr (prefix ++ name ++ [Chr.dot])) [])
  end.

Definition load_state_dict_dir (fuel : nat) (self : pymodule) (state_dict_dir : pystr) : M unit :=
  let* f := open_read (path_join state_dict_dir _KEY_TO_FILENAME_JSON) in
  let* key_to_filename := json_load f in
  let state_dict_dir := realpath state_dict_dir in
  load_dir fuel state_dict_dir self key_to_filename [].

End LowMemoryModule.

(** ** Greedy search *)

(** A two-dimensional tensor: [ncols] is the size of the last dimension,
    every row has that length. *)
Record tensor2 (A : Type) := T2 { ncols : nat; rows : list (list A) }.
Arguments T2 {A} ncols rows.
Arguments ncols {A} t.
Arguments rows {A} t.

(** A logit: a finite number or [-float('inf')]. *)
Inductive score := NegInf | Fin (q : Q).

Definition score_ltb (a b : score) : bool :=
  match a, b with
  | _, NegInf => false
  | NegInf, Fin _ => true
  | Fin x, Fin y => negb (Qle_bool y x)
  end.

(** The autoregressive model: [model.reset()] and
    [model(input_ids, position_ids)], which returns one row of scores per
    row of [input_ids] and updates the model's cache. *)
Class Model := {
  cache : Type;
  reset : cache -> cache;
  forward : tensor2 nat -> list nat -> cache -> tensor2 score * cache
}.

(** Python's index normalisation for a dimension of size [n]. *)
Definition index (n : nat) (i : Z) : result nat :=
  if ((0 <=? i) && (i <? Z.of_nat n))%Z then Ok (Z.to_nat i)
  else if ((- Z.of_nat n <=? i) && (i <? 0))%Z then Ok (Z.to_nat (Z.of_nat n + i))
  else Raise IndexError.

(** [t[:, i] = x] *)
Definition setitem_col {A} (t : tensor2 A) (i : Z) (x : A) : result (tensor2 A) :=
  match index (ncols t) i with
  | Ok k => Ok (T2 (ncols t) (map (fun r => <[k := x]> r) (rows t)))
  | Raise e => Raise e
  end.

Fixpoint argmax_from (best_i : nat) (best : score) (i : nat) (l : list score) : nat :=
  match l with
  | [] => best_i
  | x :: l' =>
      if score_ltb best x then argmax_from i x (S i) l'
      else argmax_from best_i best (S i) l'
  end.

(** Index of the first maximal entry of a non-empty row. *)
Definition argmax_row (l : list score) : nat :=
  match l with
  | [] => 0
  | x :: l' => argmax_from 0 x 1 l'
  end.

(** [torch.argmax(t, dim=-1, keepdim=True)] *)
Definition argmax (t : tensor2 score) : result (tensor2 nat) :=
  if bool_decide (ncols t = 0) then Raise IndexError
  else Ok (T2 1 (map (fun r => [argmax_row r]) (rows t))).

(** [torch.cat([a, b], dim=-1)] *)
Definition cat2 (a b : tensor2 nat) : result (tensor2 nat) :=
  if bool_decide (length (rows a) = length (rows b))
  then Ok (T2 (ncols a + ncols b) (zip_with app (rows a) (rows b)))
  else Raise RuntimeError.

(** [torch.cat(ts, dim=-1)] *)
Fixpoint cat (ts : list (tensor2 nat)) : result (tensor2 nat) :=
  match ts with
  | [] => Raise RuntimeError
  | [t] => Ok t
  | t :: ts' =>
      match cat ts' with
      | Ok u => cat2 t u
      | Raise e => Raise e
      end
  end.

(** [i] is the arg-max of the row: the entry at [i] is maximal, and the
    entries before it are smaller. *)
Definition is_first_max (r : list score) (i : nat) : Prop :=
  exists m, r !! i = Some m /\
    (forall j x, r !! j = Some x -> score_ltb m x = false) /\
    (forall j x, j < i -> r !! j = Some x -> score_ltb x m = true).

(** One token per row, as a tensor of shape (rows, 1). *)
Definition column (col : list nat) : tensor2 nat := T2 1 (map (fun t => [t]) col).

Section SamplingModel.
Context `{Model}.

(** The [for cur_len in range(start, sequence_length)] loop. *)
Fixpoint search_loop (eos_token_id : Z) (steps : list nat)
    (next_token_scores : tensor2 score) (tokens : list (tensor2 nat)) (c : cache)
    : result (list (tensor2 nat)) * cache :=
  match steps with
  | [] => (Ok tokens, c)
  | cur_len :: steps' =>
      match setitem_col next_token_scores eos_token_id NegInf with
      | Raise e => (Raise e, c)
      | Ok next_token_scores =>
          match argmax next_token_scores with
          | Raise e => (Raise e, c)
          | Ok max_index =>
              let tokens := tokens ++ [max_index] in
              let position_ids := [cur_len] in
              let r := forward max_index position_ids c in
              search_loop eos_token_id steps' r.1 tokens r.2
          end
      end
  end.

Definition greedy_search (input_ids : tensor2 nat) (sequence_length : nat)
    (eos_token_id : Z) (c : cache) : result (tensor2 nat) * cache :=
  let c := reset c in
  let start := ncols input_ids in
  let position_ids := seq 0 start in
  let r := forward input_ids position_ids c in
  let tokens := [input_ids] in
  let out := search_loop eos_token_id (seq start (sequence_length - start)) r.1 tokens r.2 in
  (match out.1 with Ok tokens => cat tokens | Raise e => Raise e end, out.2).

(** What the decoder is to generate, step by step: from the current
    scores, with the end-of-sequence logit at [-inf], a column that holds
    for each row the arg-max of that row; then the model's scores for that
    column at the next position. *)
Inductive generates (eos : nat) : nat -> tensor2 score -> cache -> list (list nat) -> Prop :=
  | generates_done pos sc c : generates eos pos sc c []
  | generates_step pos sc c col cols :
      Forall2 (fun r t => is_first_max (<[eos := NegInf]> r) t) (rows sc) col ->
      generates eos (S pos) (forward (column col) [pos] c).1
                (forward (column col) [pos] c).2 cols ->
      generates eos pos sc c (col :: cols).

(** The model answers with one row of [vocab] scores per row of input. *)
Definition well_shaped (vocab : nat) : Prop :=
  forall input_ids position_ids c,
    ncols (forward input_ids position_ids c).1 = vocab /\
    length (rows (forward input_ids position_ids c).1) = length (rows input_ids) /\
    Forall (fun r => length r = vocab) (rows (forward input_ids position_ids c).1).

(** Row [i] of the prompt followed by entry [i] of each generated column. *)
Definition extend (prompt : list (list nat)) (cols : list (list nat)) : list (list nat) :=
  fold_left (fun acc col => zip_with (fun r t => r ++ [t]) acc col) cols prompt.

End SamplingModel.

(** The stub model: every forward pass returns the vector [v] for each row. *)
Definition stub (v : list score) : Model :=
  {| cache := unit;
     reset := fun c => c;
     forward := fun input_ids _ c => (T2 (length v) (map (fun _ => v) (rows input_ids)), c) |}.

(** ** A small instance of the interfaces, for closed examples *)

(** Latin-1 letters, as a fragment of the Unicode alphanumeric table. *)
Definition latin1 : Unicode :=
  {| unicode_isalnum := fun c =>
       ((192 <=? c) && (c <=? 255) && negb (c =? 215) && negb (c =? 247))%N |}.

(** Directories named by their real path. *)
Definition plain_paths : Posix := {| realpath := fun d => d |}.

(** Tensors as a shape and a flat list of values; a copy wants equal shapes,
    the generator counts its draws. *)
Program Definition flat_torch : Torch :=
  {| tensor := list nat * list Z;
     dtype := unit;
     generator := nat;
     shape := fun t => t.1;
     empty := fun sh => (sh, []);
     copy_ := fun dst src => if decide (dst.1 = src.1) then Some src else None;
     randn := fun sh g => ((sh, [Z.of_nat g]), S g);
     scale := fun _ t => t;
     torch_dtype := fun name => if decide (name = pystr_of "float32") then Some tt else None;
     to_ := fun t _ => t |}.
Next Obligation. done. Qed.
Next Obligation. intros dst src E; simpl in *. rewrite decide_True; eauto. Qed.


(** ** Notions the properties are stated with *)

Ltac run := unfold bind, ret, raise, get, modify, lift, lift_opt in *; simpl in *.


(** What [named_modules] yields and what it leaves in the memo. *)
Definition walk_ok (m : pymodule) : Prop :=
  forall memo prefix,
    let r := named_modules_from m memo prefix in
    (forall n c, (n, c) ∈ r.1 -> c ∈ nodes m) /\
    memo ⊆ r.2 /\
    (forall i, i ∈ r.2 -> i ∈ memo \/ exists n c, (n, c) ∈ r.1 /\ mod_id c = i) /\
    mod_id m ∈ r.2.

Section Views.
Context `{Unicode} `{Posix} `{Torch}.

(** The key sanitizes to a usable file name. *)
Definition usable (key : pystr) : Prop := unusable (sanitized_spec key) = false.

(** The manifest of a dict with keys [keys], numbered from [idx]. *)
Definition manifest_from (idx : nat) (keys : list pystr) : dict pystr :=
  imap (fun j key => (key, file_name (idx + j) (sanitized_spec key))) keys.

(** The file system once the tensors of [state_dict] are written. *)
Definition written (save_dir : pystr) (key_to_filename : dict pystr)
    (state_dict : dict tensor) (f : gmap pystr file) : gmap pystr file :=
  fold_left (fun f kt =>
    <[path_join save_dir (default [] (dict_get kt.1 key_to_filename)) := TensorFile kt.2]> f)
    state_dict f.

(** [m] relates every world to the world it leaves, whatever its result. *)
Definition keeps {A} (R : world -> world -> Prop) (m : M A) : Prop :=
  forall w, R w (m w).2.

(** Work on the parameter objects in [S]: nothing else in the world
    changes but the generator, the log of opened paths (which grows) and
    the caller's dict (which loses keys); no [_file_path] changes. *)
Record works_on (S : nat -> Prop) (w w' : world) : Prop := WorksOn {
  wo_fs : fs w' = fs w;
  wo_slots : slots w' = slots w;
  wo_next : next_obj w' = next_obj w;
  wo_objs : forall q, ~ S q -> objs w' !! q = objs w !! q;
  wo_path : forall q, _file_path (obj w' q) = _file_path (obj w q);
  wo_opened : exists l, opened w' = l ++ opened w;
  wo_mapping : sublist (mapping w') (mapping w)
}.

(** What [nullify] does to the world: it allocates objects, and a slot
    either keeps its object or holds a placeholder allocated since. *)
Record nullifies (w w' : world) : Prop := Nullifies {
  nu_next : next_obj w <= next_obj w';
  nu_objs : forall r, r < next_obj w -> objs w' !! r = objs w !! r;
  nu_keys : forall i, (params_by_id w' i).*1 = (params_by_id w i).*1;
  nu_entry : forall i k r, (k, r) ∈ params_by_id w' i ->
    (k, r) ∈ params_by_id w i \/
    (next_obj w <= r < next_obj w' /\ objs w' !! r = Some uninitialized)
}.

(** The world after [setattr(module, name, UninitializedParameter())]. *)
Definition replaced (i : nat) (name : pystr) (w : world) : world :=
  World (fs w) (dirs w)
    (<[i := dict_set name (next_obj w) (params_by_id w i)]> (slots w))
    (<[next_obj w := uninitialized]> (objs w))
    (S (next_obj w)) (gen w) (mapping w) (opened w).

(** The caller's dict is the same. *)
Definition same_mapping (w w' : world) : Prop := mapping w' = mapping w.

End Views.

(** *** Worlds and trees for the examples *)

Section ExampleData.
#[local] Existing Instance latin1.
#[local] Existing Instance plain_paths.
#[local] Existing Instance flat_torch.

Definition vec2 : tensor := ([2], [1%Z; 2%Z]).
Definition vec3 : tensor := ([3], [7%Z; 8%Z; 9%Z]).

Definition ckpt : pystr := pystr_of "/ckpt".

(** No files, no modules, no objects. *)
Definition blank_world : world := World ∅ ∅ ∅ ∅ 0 0 [] [].

(** Keys with a space, a letter beyond ASCII and punctuation; the first
    and the last sanitize to the same name. *)
Definition named_tensors : dict tensor :=
  [(pystr_of "a b", vec2); ([233; 33]%N, vec3); (pystr_of "a_b", vec2)].

Definition unnameable_tensors : dict tensor :=
  [(pystr_of "weight", vec2); (pystr_of " .. ", vec3)].

(** One module, no children. *)
Definition linear : pymodule := Mod 0 [].

(** Its parameter [weight] is a placeholder deferred to a file. *)
Definition deferred_world : world :=
  World {[ pystr_of "/ckpt/p0.weight" := TensorFile vec2 ]} ∅
    {[ 0 := [(pystr_of "weight", 0)] ]}
    {[ 0 := Param None (Some (pystr_of "/ckpt/p0.weight")) ]} 1 0 [] [].


(** Parameters [a] and [b], both deferred; the side file of [a] is not a
    JSON document. *)
Definition bad_spec_world : world :=
  World {[ pystr_of "/ckpt/p0.a.empty_json" := OtherFile;
           pystr_of "/ckpt/p1.b" := TensorFile vec2 ]} ∅
    {[ 0 := [(pystr_of "a", 0); (pystr_of "b", 1)] ]}
    {[ 0 := Param None (Some (pystr_of "/ckpt/p0.a.empty_json"));
       1 := Param None (Some (pystr_of "/ckpt/p1.b")) ]} 2 0 [] [].

(** A root with parameter [scale] and a child [weights] with parameter
    [weight]; the manifest in [/ckpt] names only [weights.weight]. *)
Definition net : pymodule := Mod 0 [(pystr_of "weights", Mod 1 [])].

Definition net_world : world :=
  World {[ pystr_of "/ckpt/key_to_filename.json" :=
             JsonFile (JObj [(pystr_of "weights.weight",
                              JStr (pystr_of "p0.weights.weight"))]) ]} ∅
    {[ 0 := [(pystr_of "scale", 0)]; 1 := [(pystr_of "weight", 1)] ]}
    {[ 0 := Param None None; 1 := Param None None ]} 2 0 [] [].

(** [weight] holds two values; the caller's dict offers three for it. *)
Definition backed_world : world :=
  World ∅ ∅ {[ 0 := [(pystr_of "weight", 0)] ]} {[ 0 := Param (Some vec2) None ]} 1 0
    [(pystr_of "weight", vec3)] [].

(** The module with id 2 is registered under [a] and under [b]. *)
Definition shared : pymodule := Mod 2 [].
Definition diamond : pymodule :=
  Mod 0 [(pystr_of "a", Mod 1 [(pystr_of "s", shared)]);
         (pystr_of "b", Mod 3 [(pystr_of "s", shared)])].
Definition diamond_world : world :=
  World ∅ ∅ {[ 2 := [(pystr_of "w", 0)] ]} {[ 0 := Param (Some vec2) None ]} 1 0 [] [].

(** One parameter object, deferred to a file that is there, registered
    with [linear] under two names. *)
Definition tied_world : world :=
  World {[ pystr_of "/ckpt/p0.a" := TensorFile vec2 ]} ∅
    {[ 0 := [(pystr_of "a", 0); (pystr_of "b", 0)] ]}
    {[ 0 := Param (Some vec2) (Some (pystr_of "/ckpt/p0.a")) ]} 1 0 [] [].

(** Scores with their only maximum at index 5. *)
Definition peak_at_5 : list score :=
  [Fin 0; Fin 1; Fin 9; Fin 2; Fin 3; Fin 10; Fin 4].

End ExampleData.

(** ** Notions the further properties are stated with *)

(** The loop of [paths] over the children. *)
Definition paths_over (walk : pystr -> pymodule -> list (pystr * pymodule)) (prefix : pystr)
    : list (pystr * pymodule) -> list (pystr * pymodule) :=
  fix over cs :=
    match cs with
    | [] => []
    | (name, c) :: cs' => walk (qualify prefix name) c ++ over cs'
    end.

(** Every occurrence of a module in the tree under its dotted path from
    [prefix], in depth-first order: what [named_modules] yields when no
    module is registered twice. *)
Fixpoint paths (prefix : pystr) (m : pymodule) {struct m} : list (pystr * pymodule) :=
  match m with
  | Mod i cs => (prefix, m) :: paths_over paths prefix cs
  end.

Section MoreViews.
Context `{Unicode} `{Posix} `{Torch}.

(** The parameter, if deferred, is deferred to a file that is there and
    holds a tensor (no [.empty_json] side file), and it is a placeholder or
    has data of that tensor's shape. *)
Definition ready (w : world) (r : nat) : Prop :=
  match _file_path (obj w r) with
  | None => True
  | Some path =>
      endswith empty_json_suffix path = false /\
      exists t, fs w !! path = Some (TensorFile t) /\
        match data (obj w r) with
        | None => True
        | Some dst => shape dst = shape t
        end
  end.

(** The parameter once [t] is copied into it: into its data, or into
    storage of the shape of [t] when it was a placeholder. *)
Definition resolved (w : world) (r : nat) (t : tensor) : param :=
  Param (copy_ (default (empty (shape t)) (data (obj w r))) t) (_file_path (obj w r)).

(** The deferred sources of a list of parameters, in order. *)
Definition deferred_paths (w : world) (params : list nat) : list pystr :=
  omap (fun r => _file_path (obj w r)) params.

(** Objects that exist are not altered; objects may be allocated. *)
Definition allocates (w w' : world) : Prop :=
  fs w' = fs w /\ dirs w' = dirs w /\ mapping w' = mapping w /\ opened w' = opened w /\
  gen w' = gen w /\ next_obj w <= next_obj w' /\
  forall r, r < next_obj w -> objs w' !! r = objs w !! r.

(** The parameter object is registered with a module of the tree. *)
Definition registered (w : world) (self : pymodule) (q : nat) : Prop :=
  exists x, x ∈ nodes self /\ q ∈ (params_of w x).*2.

(** Work on the parameters registered in the tree, and on nothing else. *)
Definition loads_into (self : pymodule) (w w' : world) : Prop :=
  works_on (registered w self) w w'.

(** No name of a parameter that a sub-module enumerates occurs inside the
    string [name + '.'] under which [named_modules] of an ancestor yields
    that sub-module. *)
Definition quiet (w : world) (self : pymodule) : Prop :=
  Forall (fun x =>
    Forall (fun nc : pystr * pymodule =>
      is_ nc.2 x = false ->
      Forall (fun name => str_contains name (nc.1 ++ [Chr.dot]) = false)
        (dict_of_items (named_members w (named_modules nc.2) ∅)).*1)
      (named_modules x))
    (nodes self).

(** No module and no parameter is registered twice in the tree, and no
    sub-module is registered under the empty name. *)
Definition unshared (w : world) (self : pymodule) : Prop :=
  NoDup (mod_id <$> nodes self) /\
  NoDup (concat ((fun x => (params_of w x).*2) <$> nodes self)) /\
  Forall (fun x => Forall (fun nc : pystr * pymodule => nc.1 <> []) (mod_children x))
    (nodes self).

(** No name that [module] enumerates is, after [prefix], a key of the
    caller's dict. *)
Definition nothing_left (w : world) (module : pymodule) (prefix : pystr) : Prop :=
  forall name, name ∈ (named_members w (named_modules module) ∅).*1 ->
    dict_get (prefix ++ name) (mapping w) = None.

End MoreViews.

Section MoreSampling.
Context `{Model}.

(** Every row of scores the model returns has a finite score at some
    index other than [eos]. *)
Definition offers_other (eos : nat) : Prop :=
  forall input_ids position_ids c,
    Forall (fun r : list score => exists j q, j <> eos /\ r !! j = Some (Fin q))
      (rows (forward input_ids position_ids c).1).

End MoreSampling.

(** *** More worlds and trees for the examples *)

Section MoreExamples.
#[local] Existing Instance latin1.
#[local] Existing Instance plain_paths.
#[local] Existing Instance flat_torch.

(** A root with parameter [scale] and a child [linear] with parameter
    [weight]. *)
Definition mlp : pymodule := Mod 0 [(pystr_of "linear", Mod 1 [])].

(** The model as constructed: [scale] holds three values, [weight] is a
    placeholder. *)
Definition mlp_fresh : world :=
  World ∅ ∅ {[ 0 := [(pystr_of "scale", 0)]; 1 := [(pystr_of "weight", 1)] ]}
    {[ 0 := Param (Some ([3], [0%Z; 0%Z; 0%Z])) None; 1 := Param None None ]} 2 0 [] [].

(** The same, with a manifest in [/ckpt] that names only [linear.weight]. *)
Definition mlp_world : world :=
  with_fs {[ pystr_of "/ckpt/key_to_filename.json" :=
               JsonFile (JObj [(pystr_of "linear.weight",
                                JStr (pystr_of "p0.linear.weight"))]) ]} mlp_fresh.

(** The same model with both parameters placeholders, as [nullify]
    leaves it. *)
Definition mlp_blank : world :=
  World ∅ ∅ {[ 0 := [(pystr_of "scale", 0)]; 1 := [(pystr_of "weight", 1)] ]}
    {[ 0 := Param None None; 1 := Param None None ]} 2 0 [] [].

(** A root whose child [w] has the one parameter [empty_json], a
    placeholder; the dict offers a tensor for it. *)
Definition side_named : pymodule := Mod 0 [(pystr_of "w", Mod 1 [])].
Definition side_named_world : world :=
  World ∅ ∅ {[ 1 := [(pystr_of "empty_json", 0)] ]} {[ 0 := Param None None ]} 1 0 [] [].
Definition side_named_tensors : dict tensor := [(pystr_of "w.empty_json", ([2], [1%Z; 2%Z]))].

(** The tree [net] with placeholders and no file yet, and tensors for
    both of its parameters. *)
Definition net_blank : world :=
  World ∅ ∅ {[ 0 := [(pystr_of "scale", 0)]; 1 := [(pystr_of "weight", 1)] ]}
    {[ 0 := Param None None; 1 := Param None None ]} 2 0 [] [].
Definition net_tensors : dict tensor :=
  [(pystr_of "scale", ([3], [7%Z; 8%Z; 9%Z])); (pystr_of "weights.weight", ([2], [1%Z; 2%Z]))].

(** The tree [net] with the manifest of [net_world], which omits [scale],
    and a caller's dict that omits [scale] as well. *)
Definition net_offered : world :=
  with_mapping [(pystr_of "weights.weight", ([2], [1%Z; 2%Z]))] net_world.

(** The manifest's path holds the bytes of a tensor file. *)
Definition binary_manifest_world : world :=
  World {[ pystr_of "/ckpt/key_to_filename.json" := TensorFile ([2], [1%Z; 2%Z]) ]} ∅ ∅ ∅ 0 0 [] [].

(** A placeholder deferred to a tensor file whose name ends in
    [.empty_json]. *)
Definition misnamed_world : world :=
  World {[ pystr_of "/ckpt/p0.w.empty_json" := TensorFile ([2], [1%Z; 2%Z]) ]} ∅
    {[ 0 := [(pystr_of "w", 0)] ]}
    {[ 0 := Param None (Some (pystr_of "/ckpt/p0.w.empty_json")) ]} 1 0 [] [].

(** The model as constructed, with the caller's dict of two tensors. *)
Definition mlp_offered : world :=
  with_mapping [(pystr_of "linear.weight", ([2], [1%Z; 2%Z]));
                (pystr_of "scale", ([3], [7%Z; 8%Z; 9%Z]))] mlp_fresh.

Definition mlp_tensors : dict tensor :=
  [(pystr_of "linear.weight", vec2); (pystr_of "scale", vec3)].

(** [weight] holds two values and is deferred to a side file that
    describes a tensor of two values. *)
Definition spec_world : world :=
  World {[ pystr_of "/ckpt/p0.weight.empty_json" :=
             JsonFile (JObj [(pystr_of "torch_dtype", JStr (pystr_of "float32"));
                             (pystr_of "shape", JArr [JInt 2]);
                             (pystr_of "init_std", JReal 1)]) ]} ∅
    {[ 0 := [(pystr_of "weight", 0)] ]}
    {[ 0 := Param None (Some (pystr_of "/ckpt/p0.weight.empty_json")) ]} 1 0 [] [].

End MoreExamples.

(** * Properties *)

(** ** Strings *)

Lemma trim_left_lstrip s : lstrip s = trim_left s.
Proof. induction s as [|c s IH]; simpl; [done|]. by rewrite IH. Qed.

Lemma lstrip_snoc l c :
  lstrip (l ++ [c]) =
  match lstrip l with
  | [] => if isspace c then [] else [c]
  | t => t ++ [c]
  end.
Proof.
  induction l as [|a l IH]; simpl; [done|].
  destruct (isspace a); [done|]. done.
Qed.

Lemma trim_right_rstrip s : rstrip s = trim_right s.
Proof.
  unfold rstrip. induction s as [|c s IH]; simpl; [done|].
  rewrite lstrip_snoc. rewrite <- IH.
  destruct (lstrip (rev s)) as [|a t].
  - simpl. by destruct (isspace c).
  - rewrite rev_app_distr. simpl.
    destruct (rev t ++ [a]) eqn:E; [by destruct (rev t)|done].
Qed.

Lemma strip_trim_spec s : strip s = trim_spec s.
Proof. unfold strip, trim_spec. by rewrite trim_right_rstrip, trim_left_lstrip. Qed.

Section SanitizeFacts.
Context `{Unicode}.

Lemma in_class_spec c :
  in_class c = true <-> (is_word c = true \/ c = Chr.hyphen \/ c = Chr.dot).
Proof.
  unfold in_class. rewrite !orb_true_iff, !N.eqb_eq. tauto.
Qed.

Lemma re_sub_delete_filter s :
  re_sub_delete s = filter (fun c => is_word c = true \/ c = Chr.hyphen \/ c = Chr.dot) s.
Proof.
  induction s as [|c s IH]; simpl; [done|].
  rewrite filter_cons. destruct (in_class c) eqn:E; simpl.
  - rewrite decide_True by (by apply in_class_spec). by rewrite IH.
  - rewrite decide_False; [done|]. rewrite <- in_class_spec. by rewrite E.
Qed.

Lemma replace_space s :
  replace Chr.space Chr.underscore s =
  map (fun c => if decide (c = Chr.space) then Chr.underscore else c) s.
Proof.
  unfold replace. apply map_ext. intros c.
  destruct (N.eqb_spec c Chr.space); [by rewrite decide_True|by rewrite decide_False].
Qed.

Lemma unusable_spec s :
  unusable s = true <-> s = [] \/ s = [Chr.dot] \/ s = [Chr.dot; Chr.dot].
Proof.
  destruct s as [|a [|b [|c s]]]; simpl.
  - intuition.
  - rewrite N.eqb_eq. intuition congruence.
  - rewrite andb_true_iff, !N.eqb_eq. intuition congruence.
  - intuition congruence.
Qed.

Lemma sanitize_file_name_unfold name :
  sanitize_file_name name =
  if unusable (sanitized_spec name) then Raise ValueError else Ok (sanitized_spec name).
Proof.
  unfold sanitize_file_name, sanitized_spec.
  by rewrite re_sub_delete_filter, replace_space, strip_trim_spec.
Qed.

(** C4: [sanitize_file_name] returns the trimmed name with spaces turned
    into underscores and every character other than a word character, a
    hyphen or a dot deleted; it raises (a [ValueError]) exactly when that
    string is empty, "." or "..", so a returned name is none of the three. *)
Theorem sanitize_file_name_spec (name : pystr) :
  let bad s := s = [] \/ s = [Chr.dot] \/ s = [Chr.dot; Chr.dot] in
  (forall r, sanitize_file_name name = Ok r <-> r = sanitized_spec name /\ ~ bad r) /\
  (forall e, sanitize_file_name name = Raise e <-> e = ValueError /\ bad (sanitized_spec name)).
Proof.
  intros bad. rewrite sanitize_file_name_unfold.
  pose proof (unusable_spec (sanitized_spec name)) as U. fold (bad (sanitized_spec name)) in U.
  destruct (unusable (sanitized_spec name)).
  - split.
    + intros r. split; [done|]. intros [-> B]. destruct B. by apply U.
    + intros e. split.
      * intros [= <-]. split; [done|]. by apply U.
      * by intros [-> _].
  - assert (~ bad (sanitized_spec name)) as NB by (rewrite <- U; done).
    split.
    + intros r. split.
      * by intros [= <-].
      * by intros [-> _].
    + intros e. split; [done|]. by intros [_ B].
Qed.

End SanitizeFacts.

(** ** Dictionaries *)

Lemma dict_get_None {V} (k : pystr) (d : dict V) : dict_get k d = None <-> k ∉ d.*1.
Proof.
  induction d as [|[k' v] d IH]; simpl.
  - split; [intros _; apply not_elem_of_nil|done].
  - rewrite not_elem_of_cons. destruct (decide (k' = k)) as [->|N].
    + split; [done|]. by intros [? _].
    + rewrite IH. split; [by intros; split|by intros [_ ?]].
Qed.

Lemma dict_get_Some_elem {V} (k : pystr) (v : V) (d : dict V) :
  dict_get k d = Some v -> (k, v) ∈ d.
Proof.
  induction d as [|[k' v'] d IH]; simpl; [done|].
  destruct (decide (k' = k)) as [->|N].
  - intros [= ->]. apply elem_of_cons; by left.
  - intros E. apply elem_of_cons; right; auto.
Qed.

Lemma dict_get_lookup {V} (d : dict V) (i : nat) (k : pystr) (v : V) :
  NoDup d.*1 -> d !! i = Some (k, v) -> dict_get k d = Some v.
Proof.
  revert i. induction d as [|[k' v'] d IH]; intros i ND L; [done|].
  simpl in *. apply NoDup_cons in ND as [NI ND].
  destruct i as [|i]; simpl in L.
  - injection L as -> ->. by rewrite decide_True.
  - rewrite decide_False; [by eapply IH|].
    intros ->. apply NI. apply list_elem_of_fmap. exists (k, v). split; [done|].
    by eapply list_elem_of_lookup_2.
Qed.

Lemma dict_set_fresh {V} (k : pystr) (v : V) (d : dict V) :
  k ∉ d.*1 -> dict_set k v d = d ++ [(k, v)].
Proof.
  induction d as [|[k' v'] d IH]; simpl; [done|].
  rewrite not_elem_of_cons. intros [N NI].
  rewrite decide_False by done. by rewrite IH.
Qed.

Lemma dict_set_keys {V} (k : pystr) (v : V) (d : dict V) :
  k ∈ d.*1 -> (dict_set k v d).*1 = d.*1.
Proof.
  induction d as [|[k' v'] d IH]; intros E.
  - by apply elem_of_nil in E.
  - cbn [dict_set]. destruct (decide (k' = k)) as [->|N]; [done|].
    rewrite !fmap_cons in *. apply elem_of_cons in E as [E|E]; [simpl in E; congruence|].
    f_equal. by apply IH.
Qed.

Lemma dict_contains_true {V} (k : pystr) (d : dict V) :
  dict_contains k d = true <-> k ∈ d.*1.
Proof.
  unfold dict_contains. destruct (dict_get k d) eqn:E.
  - split; [|done]. intros _. destruct (decide (k ∈ d.*1)) as [|NI]; [done|].
    apply dict_get_None in NI. congruence.
  - apply dict_get_None in E. split; [done|]. intros; contradiction.
Qed.

Lemma dict_remove_keys {V} (k : pystr) (d : dict V) :
  NoDup d.*1 -> forall k', k' ∈ (dict_remove k d).*1 <-> k' ∈ d.*1 /\ k' <> k.
Proof.
  induction d as [|[k0 v0] d IH]; simpl; intros ND k'.
  - split; [intros E; by apply elem_of_nil in E|intros [E _]; by apply elem_of_nil in E].
  - apply NoDup_cons in ND as [NI ND].
    destruct (decide (k0 = k)) as [->|N]; simpl.
    + rewrite elem_of_cons. split.
      * intros E. split; [by right|]. intros ->. contradiction.
      * intros [[->|E] Nk]; [done|done].
    + rewrite !elem_of_cons, IH by done. split.
      * intros [->|[E Nk]]; [split; [by left|done]|split; [by right|done]].
      * intros [[->|E] Nk]; [by left|by right].
Qed.

Lemma dict_remove_get {V} (k k' : pystr) (d : dict V) :
  k' <> k -> dict_get k' (dict_remove k d) = dict_get k' d.
Proof.
  intros N. induction d as [|[k0 v0] d IH]; simpl; [done|].
  destruct (decide (k0 = k)) as [->|N0]; simpl.
  - by rewrite decide_False.
  - by rewrite IH.
Qed.

(** ** Paths and file names *)

Lemma path_join_inj a b1 b2 :
  startswith [Chr.slash] b1 = false -> startswith [Chr.slash] b2 = false ->
  path_join a b1 = path_join a b2 -> b1 = b2.
Proof.
  unfold path_join. intros -> ->.
  destruct (bool_decide (a = []) || endswith [Chr.slash] a).
  - apply app_inv_head.
  - intros E. apply app_inv_head in E. congruence.
Qed.

Lemma uint_chars_inj d d' : uint_chars d = uint_chars d' -> d = d'.
Proof.
  revert d'. induction d; intros d'; destruct d'; simpl; intros E;
    try discriminate; try done; injection E as E; f_equal; auto.
Qed.

Lemma uint_chars_no_dot d : Chr.dot ∉ uint_chars d.
Proof.
  induction d; simpl; [apply not_elem_of_nil|..];
    (apply not_elem_of_cons; split; [discriminate|done]).
Qed.

Lemma split_at_first {A} (x : A) (a b u v : list A) :
  x ∉ a -> x ∉ b -> a ++ x :: u = b ++ x :: v -> a = b /\ u = v.
Proof.
  revert b. induction a as [|y a IH]; intros b Na Nb E.
  - destruct b as [|z b]; simpl in E.
    + injection E as ->. done.
    + injection E as <- _. exfalso. apply Nb. apply elem_of_cons; by left.
  - destruct b as [|z b]; simpl in E.
    + injection E as -> _. exfalso. apply Na. apply elem_of_cons; by left.
    + injection E as -> E. apply not_elem_of_cons in Na as [_ Na].
      apply not_elem_of_cons in Nb as [_ Nb].
      destruct (IH b Na Nb E) as [-> ->]. done.
Qed.

Lemma str_of_nat_inj i j : str_of_nat i = str_of_nat j -> i = j.
Proof. intros E. by apply Unsigned.to_uint_inj, uint_chars_inj. Qed.

Lemma file_name_inj i j s s' : file_name i s = file_name j s' -> i = j /\ s = s'.
Proof.
  unfold file_name. intros E. injection E as E.
  apply split_at_first in E as [E ->]; try apply uint_chars_no_dot.
  split; [by apply str_of_nat_inj|done].
Qed.

Lemma file_name_relative i s : startswith [Chr.slash] (file_name i s) = false.
Proof. done. Qed.

Lemma manifest_relative : startswith [Chr.slash] _KEY_TO_FILENAME_JSON = false.
Proof. done. Qed.

Lemma file_name_not_manifest i s : file_name i s <> _KEY_TO_FILENAME_JSON.
Proof. discriminate. Qed.

(** ** save_split *)

Section SaveSplit.
Context `{Unicode} `{Posix} `{Torch}.

Lemma bind_ok {A B} (m : M A) (k : A -> M B) w a w' :
  m w = (Ok a, w') -> bind m k w = k a w'.
Proof. unfold bind. by intros ->. Qed.

Lemma open_read_ok path f w :
  fs w !! path = Some f ->
  open_read path w = (Ok f, with_opened (path :: opened w) w).
Proof. intros L. unfold open_read. run. by rewrite L. Qed.

Lemma manifest_from_cons idx key keys :
  manifest_from idx (key :: keys) =
  (key, file_name idx (sanitized_spec key)) :: manifest_from (S idx) keys.
Proof.
  unfold manifest_from. rewrite imap_cons, Nat.add_0_r. f_equal.
  apply imap_ext. intros j k _. simpl. by rewrite Nat.add_succ_r.
Qed.

Lemma manifest_from_keys idx keys : (manifest_from idx keys).*1 = keys.
Proof.
  revert idx. induction keys as [|k keys IH]; intros idx; [done|].
  rewrite manifest_from_cons, fmap_cons. simpl. by rewrite IH.
Qed.

Lemma manifest_from_lookup idx keys j key :
  keys !! j = Some key ->
  manifest_from idx keys !! j = Some (key, file_name (idx + j) (sanitized_spec key)).
Proof. intros L. unfold manifest_from. by rewrite list_lookup_imap, L. Qed.

Lemma assign_ok idx keys key_to_filename w :
  NoDup (key_to_filename.*1 ++ keys) -> Forall usable keys ->
  fold_m (combine (seq idx (length keys)) keys) key_to_filename assign_file_name w
  = (Ok (key_to_filename ++ manifest_from idx keys), w).
Proof.
  revert idx key_to_filename. induction keys as [|key keys IH]; intros idx ktf ND U.
  - simpl. by rewrite app_nil_r.
  - apply Forall_cons in U as [Uk U]. simpl. unfold bind at 1.
    unfold assign_file_name at 1. run. rewrite sanitize_file_name_unfold.
    unfold usable in Uk. rewrite Uk. simpl.
    assert (key ∉ ktf.*1) as NI.
    { apply NoDup_app in ND as (_ & D & _). intros E. apply (D _ E).
      apply elem_of_cons; by left. }
    rewrite dict_set_fresh by done.
    rewrite IH; [|by rewrite fmap_app, <- app_assoc|done].
    by rewrite manifest_from_cons, <- app_assoc.
Qed.

Lemma assign_raise idx keys key_to_filename w :
  Exists (fun key => ~ usable key) keys ->
  fold_m (combine (seq idx (length keys)) keys) key_to_filename assign_file_name w
  = (Raise ValueError, w).
Proof.
  revert idx key_to_filename. induction keys as [|key keys IH]; intros idx ktf E.
  - by apply Exists_nil in E.
  - simpl. unfold bind at 1. unfold assign_file_name at 1. run.
    rewrite sanitize_file_name_unfold.
    destruct (unusable (sanitized_spec key)) eqn:Uk; simpl; [done|].
    apply IH. apply Exists_cons in E as [E|E]; [|done].
    by destruct E.
Qed.

Lemma usable_dec key : Decision (usable key).
Proof. unfold usable. apply _. Qed.

Lemma usable_sanitize key : usable key <-> exists s, sanitize_file_name key = Ok s.
Proof.
  unfold usable. rewrite sanitize_file_name_unfold.
  destruct (unusable (sanitized_spec key)); split; try done.
  - by intros [s ?].
  - eauto.
Qed.

Lemma save_tensors_ok save_dir key_to_filename state_dict w :
  (forall key, key ∈ state_dict.*1 -> is_Some (dict_get key key_to_filename)) ->
  for_ state_dict (save_tensor save_dir key_to_filename) w
  = (Ok tt, with_fs (written save_dir key_to_filename state_dict (fs w)) w).
Proof.
  revert w. induction state_dict as [|[key t] sd IH]; intros w I.
  - simpl. unfold ret. by destruct w.
  - simpl. unfold bind at 1. unfold save_tensor at 1.
    destruct (I key) as [name E]; [apply elem_of_cons; by left|].
    run. rewrite E. simpl. unfold torch_save, write_file. run.
    rewrite IH; [done|]. intros k Hk. apply I. apply elem_of_cons; by right.
Qed.

Lemma save_split_unfold state_dict save_dir w :
  NoDup state_dict.*1 -> Forall usable state_dict.*1 ->
  let key_to_filename := manifest_from 0 state_dict.*1 in
  save_split state_dict save_dir w =
  (Ok tt,
   with_fs (written save_dir key_to_filename state_dict
              (<[path_join save_dir _KEY_TO_FILENAME_JSON := JsonFile (json_dump key_to_filename)]> (fs w)))
     (with_dirs ({[save_dir]} ∪ dirs w) w)).
Proof.
  intros ND U ktf. unfold save_split, makedirs, enumerate. run.
  rewrite assign_ok by done. simpl. unfold write_file. run.
  rewrite save_tensors_ok; [done|].
  intros key Hk. subst ktf. apply list_elem_of_lookup in Hk as [j L].
  erewrite dict_get_lookup; [done| |by apply manifest_from_lookup].
  by rewrite manifest_from_keys.
Qed.

Lemma save_split_raises state_dict save_dir w :
  Exists (fun key => ~ usable key) state_dict.*1 ->
  save_split state_dict save_dir w
  = (Raise ValueError, with_dirs ({[save_dir]} ∪ dirs w) w).
Proof.
  intros E. unfold save_split, makedirs, enumerate. run.
  by rewrite assign_raise.
Qed.

End SaveSplit.

Section SaveSplitProperties.
Context `{Unicode} `{Posix} `{Torch}.

Lemma not_usable_exists (keys : list pystr) :
  (exists key e, key ∈ keys /\ sanitize_file_name key = Raise e) ->
  Exists (fun key => ~ usable key) keys.
Proof.
  intros (key & e & I & E). apply Exists_exists. exists key. split; [done|].
  intros U. apply usable_sanitize in U as [s U]. congruence.
Qed.

Lemma usable_or_not (keys : list pystr) :
  Forall usable keys \/ Exists (fun key => ~ usable key) keys.
Proof.
  induction keys as [|key keys [IH|IH]].
  - left. constructor.
  - destruct (usable_dec key) as [U|U].
    + left. by constructor.
    + right. by apply Exists_cons_hd.
  - right. by apply Exists_cons_tl.
Qed.

(** C6: when [sanitize_file_name] raises for some key of the dict,
    [save_split] raises and has written no file: neither the manifest nor
    any tensor (all names are assigned before the first write). *)
Theorem save_split_all_or_nothing (state_dict : dict tensor) (save_dir : pystr) (w : world) :
  (exists key e, key ∈ state_dict.*1 /\ sanitize_file_name key = Raise e) ->
  exists w', save_split state_dict save_dir w = (Raise ValueError, w') /\ fs w' = fs w.
Proof.
  intros E. apply not_usable_exists in E.
  eexists. split; [by apply save_split_raises|done].
Qed.

Lemma written_cons save_dir ktf (kt : pystr * tensor) state_dict f :
  written save_dir ktf (kt :: state_dict) f =
  written save_dir ktf state_dict
    (<[path_join save_dir (default [] (dict_get kt.1 ktf)) := TensorFile kt.2]> f).
Proof. done. Qed.

Lemma written_lookup_ne save_dir ktf (state_dict : dict tensor) f path :
  (forall kt, kt ∈ state_dict ->
     path_join save_dir (default [] (dict_get kt.1 ktf)) <> path) ->
  written save_dir ktf state_dict f !! path = f !! path.
Proof.
  revert f. induction state_dict as [|kt sd IH]; intros f N; [done|].
  rewrite written_cons, IH.
  - apply lookup_insert_ne. apply N. apply elem_of_cons; by left.
  - intros kt' I. apply N. apply elem_of_cons; by right.
Qed.

Lemma written_lookup save_dir ktf (state_dict : dict tensor) f j kt :
  NoDup (map (fun kt => path_join save_dir (default [] (dict_get kt.1 ktf))) state_dict) ->
  state_dict !! j = Some kt ->
  written save_dir ktf state_dict f
    !! path_join save_dir (default [] (dict_get kt.1 ktf)) = Some (TensorFile kt.2).
Proof.
  revert f j. induction state_dict as [|kt0 sd IH]; intros f j ND L; [done|].
  simpl in ND. apply NoDup_cons in ND as [NI ND].
  rewrite written_cons.
  destruct j as [|j]; simpl in L.
  - injection L as ->. rewrite written_lookup_ne; [by rewrite lookup_insert_eq|].
    intros kt' I E. apply NI. rewrite <- E.
    apply list_elem_of_fmap. by exists kt'.
  - by eapply IH.
Qed.

Lemma saved_name state_dict j (kt : pystr * tensor) :
  NoDup state_dict.*1 -> state_dict !! j = Some kt ->
  dict_get kt.1 (manifest_from 0 state_dict.*1) = Some (file_name j (sanitized_spec kt.1)).
Proof.
  intros ND L. eapply dict_get_lookup.
  - by rewrite manifest_from_keys.
  - apply (manifest_from_lookup 0). by rewrite list_lookup_fmap, L.
Qed.

Lemma saved_paths_NoDup save_dir (state_dict : dict tensor) :
  NoDup state_dict.*1 ->
  NoDup (map (fun kt : pystr * tensor => path_join save_dir
           (default [] (dict_get kt.1 (manifest_from 0 state_dict.*1)))) state_dict).
Proof.
  intros ND. apply NoDup_alt. intros i j path Li Lj.
  rewrite list_lookup_fmap in Li, Lj.
  destruct (state_dict !! i) as [kti|] eqn:Ei; [|done].
  destruct (state_dict !! j) as [ktj|] eqn:Ej; [|done].
  simpl in Li, Lj.
  rewrite (saved_name _ i) in Li by done. rewrite (saved_name _ j) in Lj by done.
  simpl in Li, Lj. injection Li as <-. injection Lj as Lj.
  apply path_join_inj in Lj; [|apply file_name_relative..].
  by apply file_name_inj in Lj as [-> _].
Qed.

(** C5: in the manifest [save_split] writes, the key at position [i] of
    the dict has the file name [p<i>.<sanitized key>], and keys at
    different positions have different file names, whether or not their
    sanitized names coincide. *)
Theorem save_split_file_names_distinct (state_dict : dict tensor) (save_dir : pystr)
    (w w' : world) :
  NoDup state_dict.*1 ->
  save_split state_dict save_dir w = (Ok tt, w') ->
  exists key_to_filename,
    fs w' !! path_join save_dir _KEY_TO_FILENAME_JSON
      = Some (JsonFile (json_dump key_to_filename)) /\
    forall i j ki kj, i <> j ->
      state_dict.*1 !! i = Some ki -> state_dict.*1 !! j = Some kj ->
      exists si sj,
        sanitize_file_name ki = Ok si /\ sanitize_file_name kj = Ok sj /\
        dict_get ki key_to_filename = Some (file_name i si) /\
        dict_get kj key_to_filename = Some (file_name j sj) /\
        file_name i si <> file_name j sj.
Proof.
  intros ND S.
  destruct (usable_or_not state_dict.*1) as [U|E];
    [|rewrite save_split_raises in S by done; discriminate].
  rewrite save_split_unfold in S by done. injection S as <-.
  exists (manifest_from 0 state_dict.*1). split.
  - simpl. rewrite written_lookup_ne; [by rewrite lookup_insert_eq|].
    intros kt I E. apply list_elem_of_lookup in I as [j L].
    rewrite (saved_name _ j) in E by done. simpl in E.
    apply path_join_inj in E; [|apply file_name_relative|apply manifest_relative].
    by apply file_name_not_manifest in E.
  - intros i j ki kj N Li Lj.
    exists (sanitized_spec ki), (sanitized_spec kj).
    assert (forall k, k ∈ state_dict.*1 -> sanitize_file_name k = Ok (sanitized_spec k)) as San.
    { intros k I. rewrite sanitize_file_name_unfold.
      rewrite Forall_forall in U. by rewrite (U k I). }
    split; [by eapply San, list_elem_of_lookup_2|].
    split; [by eapply San, list_elem_of_lookup_2|].
    rewrite list_lookup_fmap in Li, Lj.
    destruct (state_dict !! i) as [[ki' ti]|] eqn:Ei; [|done].
    destruct (state_dict !! j) as [[kj' tj]|] eqn:Ej; [|done].
    simpl in Li, Lj. injection Li as ->. injection Lj as ->.
    split; [by apply (saved_name state_dict i (ki, ti))|].
    split; [by apply (saved_name state_dict j (kj, tj))|].
    intros E. by apply file_name_inj in E as [E _].
Qed.

End SaveSplitProperties.

(** ** Greedy search *)

Lemma score_ltb_asym x m : score_ltb x m = true -> score_ltb m x = false.
Proof.
  destruct x as [|x], m as [|m]; simpl; try done.
  rewrite negb_true_iff, negb_false_iff. intros E.
  apply Qle_bool_iff. apply Qlt_le_weak, Qnot_le_lt.
  intros L. apply Qle_bool_iff in L. congruence.
Qed.

Lemma score_ltb_irrefl m : score_ltb m m = false.
Proof.
  destruct m as [|m]; simpl; [done|].
  apply negb_false_iff, Qle_bool_iff, Qle_refl.
Qed.

Lemma score_ltb_le_lt y b x :
  score_ltb b y = false -> score_ltb b x = true -> score_ltb y x = true.
Proof.
  destruct y as [|y], b as [|b], x as [|x]; simpl; try done.
  rewrite negb_false_iff, !negb_true_iff. intros Lyb Lbx.
  apply Qle_bool_iff in Lyb. apply not_true_iff_false. intros Lxy.
  apply Qle_bool_iff in Lxy. apply not_true_iff_false in Lbx. apply Lbx.
  apply Qle_bool_iff. by apply Qle_trans with y.
Qed.

(** The scan keeps the first maximum of what it has seen. *)
Lemma argmax_from_first_max (seen l : list score) (best_i : nat) (best : score) :
  seen !! best_i = Some best ->
  (forall j x, seen !! j = Some x -> score_ltb best x = false) ->
  (forall j x, j < best_i -> seen !! j = Some x -> score_ltb x best = true) ->
  is_first_max (seen ++ l) (argmax_from best_i best (length seen) l).
Proof.
  revert seen best_i best. induction l as [|x l IH]; intros seen bi b Lb Max First.
  - simpl. rewrite app_nil_r. by exists b.
  - cbn [argmax_from]. replace (seen ++ x :: l) with ((seen ++ [x]) ++ l)
      by (by rewrite <- app_assoc).
    replace (S (length seen)) with (length (seen ++ [x])) by (rewrite length_app; simpl; lia).
    destruct (score_ltb b x) eqn:Lt.
    + apply IH.
      * by rewrite lookup_app_r, Nat.sub_diag by lia.
      * intros j y Ly. apply lookup_app_Some in Ly as [Ly|[_ Ly]].
        -- apply score_ltb_asym. eapply score_ltb_le_lt; [by eapply Max|done].
        -- apply list_lookup_singleton_Some in Ly as [_ <-]. apply score_ltb_irrefl.
      * intros j y Lj Ly. rewrite lookup_app_l in Ly by done.
        eapply score_ltb_le_lt; [by eapply Max|done].
    + apply IH.
      * rewrite lookup_app_l; [done|]. by eapply lookup_lt_Some.
      * intros j y Ly. apply lookup_app_Some in Ly as [Ly|[_ Ly]]; [by eapply Max|].
        by apply list_lookup_singleton_Some in Ly as [_ <-].
      * intros j y Lj Ly. apply (First j y Lj).
        rewrite lookup_app_l in Ly; [done|].
        apply lookup_lt_Some in Lb. lia.
Qed.

(** [argmax_row] is the arg-max of a row that is not empty. *)
Lemma argmax_row_first_max (r : list score) : r <> [] -> is_first_max r (argmax_row r).
Proof.
  destruct r as [|x r]; [done|]. intros _.
  apply (argmax_from_first_max [x] r 0 x).
  - done.
  - intros [|j] y Ly; simpl in Ly; [|done]. injection Ly as <-. apply score_ltb_irrefl.
  - intros j y Lj. lia.
Qed.

Lemma is_first_max_unique (r : list score) i j :
  is_first_max r i -> is_first_max r j -> i = j.
Proof.
  intros (mi & Li & Maxi & Firsti) (mj & Lj & Maxj & Firstj).
  destruct (Nat.lt_trichotomy i j) as [L|[E|L]]; [|done|].
  - pose proof (Firstj i mi L Li) as A. pose proof (Maxi j mj Lj) as B.
    apply score_ltb_asym in A. pose proof (Maxj i mi Li) as C.
    pose proof (Firstj i mi L Li). congruence.
  - pose proof (Firsti j mj L Lj) as A. pose proof (Maxj i mi Li) as B. congruence.
Qed.

(** A row with one strict maximum has its arg-max there. *)
Lemma peak_first_max (r : list score) i m :
  r !! i = Some m ->
  (forall j x, r !! j = Some x -> j <> i -> score_ltb x m = true) ->
  is_first_max r i.
Proof.
  intros L O. exists m. split; [done|]. split.
  - intros j x Lj. destruct (decide (j = i)) as [->|N].
    + rewrite L in Lj. injection Lj as <-. apply score_ltb_irrefl.
    + apply score_ltb_asym. by apply (O j).
  - intros j x Lt Lj. apply (O j x Lj). lia.
Qed.

Lemma index_nat n (i : nat) : i < n -> index n (Z.of_nat i) = Ok i.
Proof.
  intros L. unfold index.
  replace ((0 <=? Z.of_nat i)%Z && (Z.of_nat i <? Z.of_nat n)%Z) with true.
  - by rewrite Nat2Z.id.
  - symmetry. apply andb_true_iff. split; [apply Z.leb_le|apply Z.ltb_lt]; lia.
Qed.

Lemma zip_with_app_snoc (R X : list (list nat)) (col : list nat) :
  zip_with app R (zip_with (fun r t => r ++ [t]) X col)
  = zip_with (fun r t => r ++ [t]) (zip_with app R X) col.
Proof.
  revert X col. induction R as [|r R IH]; intros [|x X] [|t col]; simpl; try done.
  by rewrite IH, app_assoc.
Qed.

Section GreedySearch.
Context `{Model}.

Lemma extend_zip_with (R X : list (list nat)) cols :
  zip_with app R (extend X cols) = extend (zip_with app R X) cols.
Proof.
  unfold extend. revert X. induction cols as [|col cols IH]; intros X; [done|].
  simpl. by rewrite IH, zip_with_app_snoc.
Qed.

Lemma extend_length (X : list (list nat)) cols :
  Forall (fun col => length col = length X) cols ->
  length (extend X cols) = length X.
Proof.
  unfold extend. revert X. induction cols as [|col cols IH]; intros X F; [done|].
  apply Forall_cons in F as [E F]. simpl.
  assert (length (zip_with (fun r t => r ++ [t]) X col) = length X) as Z.
  { rewrite length_zip_with. lia. }
  rewrite IH; [done|]. by rewrite Z.
Qed.

Lemma cat_columns (t0 : tensor2 nat) cols :
  Forall (fun col => length col = length (rows t0)) cols ->
  cat (t0 :: map column cols)
  = Ok (T2 (ncols t0 + length cols) (extend (rows t0) cols)).
Proof.
  revert t0. induction cols as [|col cols IH]; intros t0 F.
  - simpl. rewrite Nat.add_0_r. by destruct t0.
  - apply Forall_cons in F as [E F].
    change (cat (t0 :: map column (col :: cols)))
      with (match cat (column col :: map column cols) with
            | Ok u => cat2 t0 u
            | Raise e => Raise e
            end).
    assert (length (rows (column col)) = length (rows t0)) as Ec.
    { simpl. by rewrite length_map. }
    rewrite IH by (by rewrite Ec).
    unfold cat2. cbn [rows ncols].
    rewrite extend_length by (by rewrite Ec).
    rewrite Ec, bool_decide_eq_true_2 by done.
    rewrite extend_zip_with. f_equal.
    assert (zip_with app (rows t0) (rows (column col))
            = zip_with (fun r t => r ++ [t]) (rows t0) col) as ->.
    { simpl. clear. revert col. generalize (rows t0).
      induction l as [|r R IH]; intros [|t col]; simpl; try done. by rewrite IH. }
    done.
Qed.

Lemma search_loop_spec vocab eos n pos sc tokens c :
  well_shaped vocab -> eos < vocab -> ncols sc = vocab ->
  Forall (fun r => length r = vocab) (rows sc) ->
  exists cols c',
    search_loop (Z.of_nat eos) (seq pos n) sc tokens c
      = (Ok (tokens ++ map column cols), c') /\
    length cols = n /\
    Forall (fun col => length col = length (rows sc)) cols /\
    generates eos pos sc c cols.
Proof.
  intros W E. revert pos sc tokens c.
  induction n as [|n IH]; intros pos sc tokens c V Rows.
  - exists [], c. simpl. rewrite app_nil_r. repeat split; [constructor|constructor].
  - set (col := map (fun r => argmax_row (<[eos := NegInf]> r)) (rows sc)).
    destruct (W (column col) [pos] c) as (V' & B' & Rows').
    destruct (IH (S pos) (forward (column col) [pos] c).1 (tokens ++ [column col])
                (forward (column col) [pos] c).2 V' Rows') as (cols & c' & R & L & F & G).
    exists (col :: cols), c'.
    assert (length col = length (rows sc)) as Lc by (subst col; by rewrite length_map).
    split; [|split; [simpl; by rewrite L|split]].
    + cbn [seq search_loop]. unfold setitem_col. rewrite V, index_nat by done.
      unfold argmax. cbn [ncols rows].
      rewrite bool_decide_eq_false_2 by lia.
      rewrite map_map. fold col.
      replace (T2 1 (map (fun r => [argmax_row (<[eos := NegInf]> r)]) (rows sc)))
        with (column col) by (unfold column, col; by rewrite map_map).
      rewrite R. by rewrite <- app_assoc.
    + constructor; [done|]. eapply Forall_impl; [exact F|].
      intros col' E'. simpl in E'. rewrite E', B'. simpl. by rewrite length_map.
    + constructor; [|done]. subst col. apply Forall2_fmap_r, Forall_Forall2_diag.
      eapply Forall_impl; [exact Rows|]. intros r Lr. simpl in Lr.
      apply argmax_row_first_max. intros Nil.
      apply (f_equal length) in Nil. rewrite length_insert in Nil. simpl in Nil. lia.
Qed.

End GreedySearch.

Lemma stub_well_shaped v : @well_shaped (stub v) (length v).
Proof.
  intros ids pos c. simpl. rewrite length_map. repeat split.
  apply Forall_forall. intros r I. apply list_elem_of_fmap in I as (? & -> & _). done.
Qed.

Lemma masked_first_max (v : list score) (eos top : nat) (m : score) :
  eos < length v -> eos <> top ->
  v !! top = Some m ->
  (forall j x, v !! j = Some x -> j <> top -> score_ltb x m = true) ->
  is_first_max (<[eos := NegInf]> v) top.
Proof.
  intros Le Ne L O. apply (peak_first_max (<[eos := NegInf]> v) top m).
  - by rewrite list_lookup_insert_ne by done.
  - intros j x Lj Nj. destruct (decide (j = eos)) as [->|Nje].
    + rewrite list_lookup_insert_eq in Lj by done. injection Lj as <-.
      destruct (lookup_lt_is_Some_2 v eos Le) as [y Ly].
      specialize (O eos y Ly Ne). by destruct y, m.
    + rewrite (list_lookup_insert_ne v eos j) in Lj by done. by apply (O j).
Qed.

Lemma stub_generates v eos top pos ncol cols :
  is_first_max (<[eos := NegInf]> v) top ->
  @generates (stub v) eos pos (T2 ncol [v]) tt cols ->
  cols = repeat [top] (length cols).
Proof.
  intros P. revert pos ncol. induction cols as [|col cols IH]; intros pos ncol G; [done|].
  inversion G as [|? ? ? ? ? Ec G']; subst. simpl in Ec.
  apply Forall2_cons_inv_l in Ec as (t & col' & Ft & Fn & ->).
  apply Forall2_nil_inv_l in Fn as ->.
  assert (t = top) as -> by (by eapply is_first_max_unique).
  simpl in *. f_equal. by eapply IH.
Qed.

(** C9: [greedy_search] returns the prompt extended by exactly
    [sequence_length - start] columns of tokens, each holding for every row
    the arg-max of the scores the model returned last, taken after the
    end-of-sequence logit was set to [-inf]; and with a stub model that
    always returns one vector whose only maximum is at index 5, which is
    not the end-of-sequence index, a prompt of length [L] and
    [sequence_length = L + 3] the result is the prompt followed by 5, 5, 5. *)
Theorem greedy_search_spec :
  (forall (model : Model) (vocab eos : nat) (input_ids : tensor2 nat)
          (sequence_length : nat) (c : cache),
     well_shaped vocab -> eos < vocab ->
     exists cols c',
       greedy_search input_ids sequence_length (Z.of_nat eos) c
       = (Ok (T2 (ncols input_ids + (sequence_length - ncols input_ids))
                 (extend (rows input_ids) cols)), c') /\
       length cols = sequence_length - ncols input_ids /\
       generates eos (ncols input_ids)
         (forward input_ids (seq 0 (ncols input_ids)) (reset c)).1
         (forward input_ids (seq 0 (ncols input_ids)) (reset c)).2 cols) /\
  (forall (v : list score) (m : score) (eos : nat) (prompt : list nat) (sequence_length : nat),
     eos < length v -> eos <> 5 ->
     v !! 5 = Some m ->
     (forall j x, v !! j = Some x -> j <> 5 -> score_ltb x m = true) ->
     sequence_length = length prompt + 3 ->
     @greedy_search (stub v) (T2 (length prompt) [prompt]) sequence_length (Z.of_nat eos) tt
     = (Ok (T2 (length prompt + 3) [prompt ++ [5; 5; 5]]), tt)).
Proof.
  assert (forall (model : Model) (vocab eos : nat) (input_ids : tensor2 nat)
          (sequence_length : nat) (c : cache),
     well_shaped vocab -> eos < vocab ->
     exists cols c',
       greedy_search input_ids sequence_length (Z.of_nat eos) c
       = (Ok (T2 (ncols input_ids + (sequence_length - ncols input_ids))
                 (extend (rows input_ids) cols)), c') /\
       length cols = sequence_length - ncols input_ids /\
       generates eos (ncols input_ids)
         (forward input_ids (seq 0 (ncols input_ids)) (reset c)).1
         (forward input_ids (seq 0 (ncols input_ids)) (reset c)).2 cols) as General.
  { intros model vocab eos input_ids n c W E.
    destruct (W input_ids (seq 0 (ncols input_ids)) (reset c)) as (V & B & Rows).
    destruct (search_loop_spec vocab eos (n - ncols input_ids) (ncols input_ids)
                (forward input_ids (seq 0 (ncols input_ids)) (reset c)).1 [input_ids]
                (forward input_ids (seq 0 (ncols input_ids)) (reset c)).2 W E V Rows)
      as (cols & c' & R & L & F & G).
    exists cols, c'. split; [|done].
    unfold greedy_search. cbv zeta. rewrite R. cbn [fst snd app].
    rewrite cat_columns, L; [done|].
    eapply Forall_impl; [exact F|]. intros col E'. simpl in E'. by rewrite E', B. }
  split; [exact General|].
  intros v m eos prompt n Le Ne L5 O ->.
  destruct (General (stub v) (length v) eos (T2 (length prompt) [prompt])
              (length prompt + 3) tt (stub_well_shaped v) Le) as (cols & [] & R & L & G).
  rewrite R. cbn [ncols rows] in *.
  replace (length prompt + 3 - length prompt) with 3 in * by lia.
  pose proof (masked_first_max v eos 5 m Le Ne L5 O) as A.
  apply (stub_generates v eos 5) in G; [|done]. rewrite L in G. subst cols.
  simpl. by rewrite <- !app_assoc.
Qed.

(** ** Statements and what they leave alone *)

Section Frames.
Context `{Unicode} `{Posix} `{Torch}.

Section Rules.
Context (R : world -> world -> Prop) `{!PreOrder R}.

Lemma keeps_ret {A} (a : A) : keeps R (ret a).
Proof. intros w. simpl. reflexivity. Qed.

Lemma keeps_raise {A} e : keeps R (raise (A := A) e).
Proof. intros w. simpl. reflexivity. Qed.

Lemma keeps_get : keeps R get.
Proof. intros w. simpl. reflexivity. Qed.

Lemma keeps_lift {A} (r : result A) : keeps R (lift r).
Proof. intros w. simpl. reflexivity. Qed.

Lemma keeps_lift_opt {A} e (o : option A) : keeps R (lift_opt e o).
Proof. destruct o; [apply keeps_ret|apply keeps_raise]. Qed.

Lemma keeps_bind {A B} (m : M A) (k : A -> M B) :
  keeps R m -> (forall a, keeps R (k a)) -> keeps R (bind m k).
Proof.
  intros Km Kk w. unfold bind. specialize (Km w).
  destruct (m w) as [[a|e] w1]; simpl in *; [|done].
  etransitivity; [exact Km|apply Kk].
Qed.

Lemma keeps_for_ {A} (l : list A) (body : A -> M unit) :
  (forall x, x ∈ l -> keeps R (body x)) -> keeps R (for_ l body).
Proof.
  induction l as [|x l IH]; intros K; simpl; [apply keeps_ret|].
  apply keeps_bind; [apply K; apply elem_of_cons; by left|].
  intros _. apply IH. intros y I. apply K. apply elem_of_cons; by right.
Qed.

Lemma keeps_if {A} (b : bool) (m1 m2 : M A) :
  keeps R m1 -> keeps R m2 -> keeps R (if b then m1 else m2).
Proof. by destruct b. Qed.
End Rules.

Lemma keeps_run {A} R (m : M A) w res w' : keeps R m -> m w = (res, w') -> R w w'.
Proof. intros K E. specialize (K w). by rewrite E in K. Qed.

(** A loop that raises has run a prefix of its iterations to the end and
    raised in the next one. *)
Lemma for_raise_split {A} (l : list A) (body : A -> M unit) w e w' :
  for_ l body w = (Raise e, w') ->
  exists l1 x l2 w1,
    l = l1 ++ x :: l2 /\ for_ l1 body w = (Ok tt, w1) /\ body x w1 = (Raise e, w').
Proof.
  revert w. induction l as [|x l IH]; intros w E; [done|].
  simpl in E. unfold bind in E. destruct (body x w) as [[[]|e1] w1] eqn:B.
  - destruct (IH _ E) as (l1 & y & l2 & w2 & -> & F & By).
    exists (x :: l1), y, l2, w2. split; [done|]. split; [|done].
    simpl. unfold bind. by rewrite B.
  - injection E as -> ->. exists [], x, l, w. done.
Qed.

#[global] Instance works_on_preorder S : PreOrder (works_on S).
Proof.
  split.
  - intros w. split; try done. by exists [].
  - intros w1 w2 w3 [f1 s1 n1 o1 p1 [l1 e1] m1] [f2 s2 n2 o2 p2 [l2 e2] m2]. split.
    + congruence.
    + congruence.
    + congruence.
    + intros q N. by rewrite o2, o1.
    + intros q. by rewrite p2, p1.
    + exists (l2 ++ l1). by rewrite e2, e1, app_assoc.
    + by etransitivity.
Qed.

Lemma obj_insert_eq w r p : obj (with_objs (<[r := p]> (objs w)) w) r = p.
Proof. unfold obj. simpl. by rewrite lookup_insert_eq. Qed.

Lemma obj_with_objs_eq w o r p : obj (with_objs (<[r := p]> o) w) r = p.
Proof. unfold obj. simpl. by rewrite lookup_insert_eq. Qed.

Lemma obj_insert_ne w r q p : r <> q -> obj (with_objs (<[r := p]> (objs w)) w) q = obj w q.
Proof. intros N. unfold obj. simpl. by rewrite lookup_insert_ne. Qed.

(** Replacing the data of an object. *)
Lemma set_data_works_on (S : nat -> Prop) r t :
  S r -> forall w, works_on S w (with_objs (<[r := Param t (_file_path (obj w r))]> (objs w)) w).
Proof.
  intros Sr w. split; try done.
  - intros q N. simpl. apply lookup_insert_ne. by intros ->.
  - intros q. destruct (decide (r = q)) as [->|N].
    + by rewrite obj_insert_eq.
    + by rewrite obj_insert_ne.
  - by exists [].
Qed.

Lemma get_param_keeps S r : keeps (works_on S) (get_param r).
Proof. intros w. simpl. reflexivity. Qed.

Lemma is_lazy_keeps S r : keeps (works_on S) (is_lazy r).
Proof. intros w. simpl. reflexivity. Qed.

Lemma param_materialize_keeps (S : nat -> Prop) r sh :
  S r -> keeps (works_on S) (param_materialize r sh).
Proof. intros Sr w. unfold param_materialize. run. by apply set_data_works_on. Qed.

Lemma param_copy__keeps (S : nat -> Prop) r t :
  S r -> keeps (works_on S) (param_copy_ r t).
Proof.
  intros Sr w. unfold param_copy_. run.
  destruct (data (obj w r)) as [dst|]; simpl; [|reflexivity].
  destruct (copy_ dst t); simpl; [|reflexivity].
  by apply set_data_works_on.
Qed.

Lemma open_read_keeps S path : keeps (works_on S) (open_read path).
Proof.
  intros w. unfold open_read. run.
  assert (works_on S w (with_opened (path :: opened w) w)) as W.
  { split; try done. by exists [path]. }
  by destruct (fs w !! path).
Qed.

Lemma json_load_keeps S f : keeps (works_on S) (json_load f).
Proof. destruct f; apply keeps_ret || apply keeps_raise; apply _. Qed.

Lemma torch_load_keeps S path : keeps (works_on S) (torch_load path).
Proof.
  apply keeps_bind; [apply _|apply open_read_keeps|].
  intros []; apply keeps_ret || apply keeps_raise; apply _.
Qed.

Lemma from_empty_json_keeps S path : keeps (works_on S) (from_empty_json path).
Proof.
  unfold from_empty_json.
  repeat first
    [ apply open_read_keeps | apply json_load_keeps
    | apply keeps_lift | apply keeps_lift_opt | apply keeps_get
    | apply keeps_ret | apply keeps_raise | apply _
    | apply keeps_bind; [apply _| |intros ?] ].
  - intros w. simpl. split; try done. by exists [].
  - match goal with |- context [match ?j with JStr _ => _ | _ => _ end] => destruct j end;
      apply keeps_ret || apply keeps_raise; apply _.
Qed.

Lemma materialize_param_keeps (S : nat -> Prop) r :
  S r -> keeps (works_on S) (materialize_param r).
Proof.
  intros Sr. unfold materialize_param.
  apply keeps_bind; [apply _|apply get_param_keeps|]. intros p.
  destruct (_file_path p) as [path|]; [|apply keeps_ret; apply _].
  apply keeps_bind; [apply _| |intros t].
  { apply keeps_if; [apply from_empty_json_keeps|apply torch_load_keeps]. }
  apply keeps_bind; [apply _|apply is_lazy_keeps|]. intros lazy.
  apply keeps_bind; [apply _| |intros _; by apply param_copy__keeps].
  apply keeps_if; [by apply param_materialize_keeps|apply keeps_ret; apply _].
Qed.

End Frames.

(** ** Enumerating parameters *)

Section Enumeration.
Context `{Unicode} `{Posix} `{Torch}.

Lemma members_of_spec module_prefix items memo :
  NoDup ((members_of module_prefix items memo).1).*2 /\
  (forall v, v ∈ (((members_of module_prefix items memo).1).*2) -> (v ∉ memo) /\ v ∈ items.*2) /\
  (forall v, v ∈ ((members_of module_prefix items memo).2) <->
             v ∈ memo \/ v ∈ (((members_of module_prefix items memo).1).*2)).
Proof.
  revert memo. induction items as [|[k v] items IH]; intros memo.
  - simpl. split; [constructor|]. split; [intros v I; by apply elem_of_nil in I|].
    intros v. split; [by left|]. intros [?|I]; [done|by apply elem_of_nil in I].
  - cbn [members_of]. destruct (decide (v ∈ memo)) as [In|Out].
    + destruct (IH memo) as (ND & Sub & Memo). split; [done|]. split; [|done].
      intros u I. destruct (Sub u I) as [? ?]. split; [done|].
      rewrite fmap_cons. apply elem_of_cons; by right.
    + destruct (IH ({[v]} ∪ memo)) as (ND & Sub & Memo). cbn [fst snd].
      rewrite !fmap_cons. cbn [fst snd]. split; [|split].
      * apply NoDup_cons. split; [|done].
        intros I. destruct (Sub v I) as [N _]. apply N. set_solver.
      * intros u I. apply elem_of_cons in I as [->|I].
        -- split; [done|]. apply elem_of_cons; by left.
        -- destruct (Sub u I) as [N ?]. split; [set_solver|].
           apply elem_of_cons; by right.
      * intros u. rewrite Memo, elem_of_cons. set_solver.
Qed.

Lemma named_members_NoDup w mods memo :
  NoDup (named_members w mods memo).*2 /\
  (forall v, v ∈ (named_members w mods memo).*2 -> v ∉ memo).
Proof.
  revert memo. induction mods as [|[pre m] mods IH]; intros memo.
  - simpl. split; [constructor|]. intros v I. by apply elem_of_nil in I.
  - cbn [named_members]. destruct (members_of_spec pre (params_of w m) memo) as (ND & Sub & Memo).
    destruct (IH (members_of pre (params_of w m) memo).2) as (ND' & Sub').
    rewrite fmap_app. split.
    + apply NoDup_app. split; [done|]. split; [|done].
      intros v I I'. apply (Sub' v I'). apply Memo. by right.
    + intros v I. apply elem_of_app in I as [I|I].
      * by apply Sub.
      * intros In. apply (Sub' v I). apply Memo. by left.
Qed.

Lemma tree_parameters_NoDup w m : NoDup (tree_parameters w m).
Proof. apply named_members_NoDup. Qed.

Lemma named_members_slots w w' mods memo :
  slots w' = slots w -> named_members w' mods memo = named_members w mods memo.
Proof.
  intros E. revert memo. induction mods as [|[pre m] mods IH]; intros memo; simpl; [done|].
  unfold params_of. by rewrite E, IH.
Qed.

Lemma parameters_run m w : parameters m w = (Ok (tree_parameters w m), w).
Proof. done. Qed.

End Enumeration.

(** ** materialize *)

Section Materialize.
Context `{Unicode} `{Posix} `{Torch}.

Lemma materialize_param_skip r w :
  _file_path (obj w r) = None -> materialize_param r w = (Ok tt, w).
Proof. intros E. unfold materialize_param, get_param. run. by rewrite E. Qed.


Lemma materialize_loop_keeps (params : list nat) :
  keeps (works_on (fun q => q ∈ params)) (for_ params materialize_param).
Proof.
  apply keeps_for_; [apply _|]. intros r I.
  by apply materialize_param_keeps.
Qed.




End Materialize.

(** ** The eager load *)

Lemma dict_remove_sublist {V} (k : pystr) (d : dict V) : sublist (dict_remove k d) d.
Proof.
  induction d as [|[k' v'] d IH]; simpl; [done|].
  destruct (decide (k' = k)); [by apply sublist_cons|by apply sublist_skip].
Qed.

Lemma dict_get_elem {V} (k : pystr) (v : V) (d : dict V) :
  NoDup d.*1 -> (k, v) ∈ d -> dict_get k d = Some v.
Proof.
  intros ND I. apply list_elem_of_lookup in I as [i L]. by eapply dict_get_lookup.
Qed.

Lemma dict_get_sublist {V} (k : pystr) (v : V) (d' d : dict V) :
  sublist d' d -> NoDup d.*1 -> dict_get k d' = Some v -> dict_get k d = Some v.
Proof.
  intros S ND G. apply dict_get_elem; [done|].
  apply dict_get_Some_elem in G. by eapply elem_of_sublist.
Qed.

Lemma dict_remove_not_in {V} (k : pystr) (d : dict V) :
  NoDup d.*1 -> k ∉ (dict_remove k d).*1.
Proof. intros ND I. apply dict_remove_keys in I as [_ N]; done. Qed.

Lemma dict_set_values {V} (k : pystr) (v : V) (d : dict V) :
  (forall x, x ∈ (dict_set k v d).*2 -> x = v \/ x ∈ d.*2) /\
  (NoDup d.*2 -> v ∉ d.*2 -> NoDup (dict_set k v d).*2).
Proof.
  induction d as [|[k' v'] d [IHs IHn]]; cbn [dict_set].
  - split.
    + intros x I. apply list_elem_of_singleton in I. by left.
    + intros _ _. apply NoDup_singleton.
  - destruct (decide (k' = k)) as [->|N]; rewrite !fmap_cons; cbn [fst snd]; split.
    + intros x I. apply elem_of_cons in I as [->|I]; [by left|].
      right. apply elem_of_cons; by right.
    + intros ND NI. apply NoDup_cons in ND as [_ ND]. apply not_elem_of_cons in NI as [_ NI].
      apply NoDup_cons. done.
    + intros x I. apply elem_of_cons in I as [->|I].
      * right. apply elem_of_cons; by left.
      * destruct (IHs x I) as [->|I']; [by left|]. right. apply elem_of_cons; by right.
    + intros ND NI. apply NoDup_cons in ND as [NI' ND]. apply not_elem_of_cons in NI as [Nv NI].
      apply NoDup_cons. split; [|by apply IHn].
      intros I. destruct (IHs _ I) as [E|I']; [congruence|done].
Qed.

Lemma dict_of_items_values {V} (items d : dict V) :
  NoDup (d.*2 ++ items.*2) ->
  NoDup (fold_left (fun d kv => dict_set kv.1 kv.2 d) items d).*2 /\
  (forall x, x ∈ (fold_left (fun d kv => dict_set kv.1 kv.2 d) items d).*2 ->
             x ∈ d.*2 \/ x ∈ items.*2).
Proof.
  revert d. induction items as [|[k v] items IH]; intros d ND.
  - simpl in *. rewrite app_nil_r in ND. split; [done|]. intros x I. by left.
  - rewrite fmap_cons in ND. cbn [fst snd] in ND.
    apply NoDup_app in ND as (NDd & Dis & NDi). apply NoDup_cons in NDi as [Nv NDi].
    destruct (dict_set_values k v d) as [Sub NDs].
    assert (v ∉ d.*2) as Nd.
    { intros I. apply (Dis v I). apply elem_of_cons; by left. }
    cbn [fold_left fst snd]. destruct (IH (dict_set k v d)) as [ND' Sub'].
    + apply NoDup_app. split; [by apply NDs|]. split; [|done].
      intros x I I'. destruct (Sub x I) as [->|Id]; [done|].
      apply (Dis x Id). apply elem_of_cons; by right.
    + split; [done|]. intros x I. rewrite fmap_cons. cbn [fst snd].
      destruct (Sub' x I) as [I'|I'].
      * destruct (Sub x I') as [->|Id]; [right; apply elem_of_cons; by left|by left].
      * right. apply elem_of_cons; by right.
Qed.

Lemma dict_of_items_NoDup {V} (items : dict V) :
  NoDup items.*2 -> NoDup (dict_of_items items).*2.
Proof. intros ND. by apply (dict_of_items_values items []). Qed.

Section EagerLoad.
Context `{Unicode} `{Posix} `{Torch}.

Lemma state_dict_pop_keeps S key : keeps (works_on S) (state_dict_pop key).
Proof.
  intros w. unfold state_dict_pop. run.
  destruct (dict_get key (mapping w)); simpl; [|reflexivity].
  split; try done; [by exists []|]. simpl. apply dict_remove_sublist.
Qed.

Lemma load_entry_low_memory_keeps (S : nat -> Prop) prefix entry :
  S entry.2 -> keeps (works_on S) (load_entry_low_memory prefix entry).
Proof.
  intros Sr. unfold load_entry_low_memory.
  apply keeps_bind; [apply _|apply keeps_get; apply _|]. intros w0.
  apply keeps_if; [|apply keeps_ret; apply _].
  apply keeps_bind; [apply _|apply state_dict_pop_keeps|]. intros t.
  apply keeps_bind; [apply _|apply is_lazy_keeps|]. intros lazy.
  apply keeps_bind; [apply _| |intros _; by apply param_copy__keeps].
  apply keeps_if; [by apply param_materialize_keeps|apply keeps_ret; apply _].
Qed.

(** The one way an iteration raises: the key was there and has been
    popped, the parameter has data, and the copy into it failed. *)
Lemma load_entry_low_memory_raises prefix name param w e w' :
  load_entry_low_memory prefix (name, param) w = (Raise e, w') ->
  e = RuntimeError /\
  w' = with_mapping (dict_remove (prefix ++ name) (mapping w)) w /\
  exists dst t,
    dict_get (prefix ++ name) (mapping w) = Some t /\
    data (obj w param) = Some dst /\ copy_ dst t = None.
Proof.
  unfold load_entry_low_memory, state_dict_pop, dict_contains. cbn [fst snd].
  unfold bind at 1, get at 1.
  destruct (dict_get (prefix ++ name) (mapping w)) as [t|] eqn:G; [|done].
  unfold bind at 1, bind at 1, get at 1. cbn [mapping]. rewrite G.
  unfold bind at 1, modify at 1, ret at 1.
  set (w1 := with_mapping _ w).
  assert (forall q, obj w1 q = obj w q) as O by done.
  unfold bind at 1, is_lazy, get_param, param_materialize, param_copy_, set_param. run.
  rewrite !O. destruct (data (obj w param)) as [dst|] eqn:D; simpl.
  - rewrite !O, D. destruct (copy_ dst t) eqn:C; simpl; [done|].
    intros [= <- <-]. split; [done|]. split; [done|]. by exists dst, t.
  - rewrite obj_with_objs_eq. simpl.
    destruct (copy_same_shape (empty (shape t)) t (shape_empty _)) as [t' ->]. done.
Qed.

(** C10: when [_load_from_state_dict_low_memory] raises, it is the copy
    into a parameter that has data which failed; the key of that parameter
    was in the caller's dict and is no longer, and the parameter object is
    as it was before the call. *)
Theorem eager_load_consumes_key_before_copy (self : pymodule) (prefix : pystr)
    (w w' : world) (e : exn) :
  NoDup (mapping w).*1 ->
  _load_from_state_dict_low_memory self prefix w = (Raise e, w') ->
  e = RuntimeError /\
  exists name param dst t,
    (name, param) ∈ dict_of_items (named_members w (named_modules self) ∅) /\
    dict_get (prefix ++ name) (mapping w) = Some t /\
    data (obj w param) = Some dst /\ copy_ dst t = None /\
    (prefix ++ name ∉ (mapping w').*1) /\
    objs w' !! param = objs w !! param.
Proof.
  intros ND. unfold _load_from_state_dict_low_memory, named_parameters. run.
  set (local_state := dict_of_items _).
  intros R. destruct (for_raise_split _ _ _ _ _ R) as (l1 & [name param] & l2 & w1 & E & F & B).
  apply load_entry_low_memory_raises in B as (-> & -> & dst & t & G & D & C).
  split; [done|]. exists name, param, dst, t.
  assert (NoDup local_state.*2) as NDl.
  { apply dict_of_items_NoDup. apply named_members_NoDup. }
  assert (works_on (fun q => q ∈ l1.*2) w w1) as W.
  { eapply keeps_run; [|exact F]. apply keeps_for_; [apply _|].
    intros [n p] I. apply load_entry_low_memory_keeps. simpl.
    apply list_elem_of_fmap. by exists (n, p). }
  assert (param ∉ l1.*2) as NI.
  { rewrite E, fmap_app, fmap_cons in NDl. apply NoDup_app in NDl as (_ & Dis & _).
    intros I. apply (Dis _ I). apply elem_of_cons; by left. }
  assert (objs w1 !! param = objs w !! param) as O by (by apply (wo_objs _ _ _ W)).
  split; [rewrite E; apply elem_of_app; right; apply elem_of_cons; by left|].
  split; [eapply dict_get_sublist; [apply W|done|done]|].
  split; [unfold obj in *; by rewrite <- O|].
  split; [done|]. split; [|done]. simpl.
  apply dict_remove_not_in. eapply sublist_NoDup; [exact ND|].
  apply fmap_sublist, W.
Qed.

Lemma dict_get_remove {V} (k key : pystr) (d : dict V) :
  NoDup d.*1 ->
  dict_get k (dict_remove key d) = if decide (k = key) then None else dict_get k d.
Proof.
  intros ND. destruct (decide (k = key)) as [->|N].
  - apply dict_get_None. by apply dict_remove_not_in.
  - by apply dict_remove_get.
Qed.

#[global] Instance same_mapping_preorder : PreOrder same_mapping.
Proof.
  split; [done|]. intros w1 w2 w3. unfold same_mapping. congruence.
Qed.

Lemma copy_into_same_mapping param t lazy :
  keeps same_mapping
    (bind (if lazy : bool then param_materialize param (shape t) else ret tt)
       (fun _ => param_copy_ param t)).
Proof.
  apply keeps_bind; [apply _| |intros _].
  - destruct lazy; [|apply keeps_ret; apply _]. intros w. done.
  - intros w. unfold param_copy_. run.
    destruct (data (obj w param)) as [dst|]; [|done]. by destruct (copy_ dst t).
Qed.

(** One iteration that returns: the key was absent and nothing happened,
    or it was present and has been popped. *)
Lemma load_entry_low_memory_returns prefix name param w w1 :
  load_entry_low_memory prefix (name, param) w = (Ok tt, w1) ->
  (dict_get (prefix ++ name) (mapping w) = None /\ w1 = w) \/
  (is_Some (dict_get (prefix ++ name) (mapping w)) /\
   mapping w1 = dict_remove (prefix ++ name) (mapping w)).
Proof.
  unfold load_entry_low_memory, state_dict_pop, dict_contains. cbn [fst snd].
  unfold bind at 1, get at 1.
  destruct (dict_get (prefix ++ name) (mapping w)) as [t|] eqn:G.
  - intros R. right. split; [done|].
    unfold bind at 1, bind at 1, get at 1 in R. cbn [mapping] in R. rewrite G in R.
    unfold bind at 1, modify at 1, ret at 1 in R.
    unfold bind at 1, is_lazy at 1, bind at 1, get_param at 1, bind at 1, get at 1,
      ret at 1, ret at 1 in R.
    apply (keeps_run _ _ _ _ _ (copy_into_same_mapping param t _)) in R.
    by rewrite R.
  - intros [= <-]. by left.
Qed.

Lemma eager_loop_partial_coverage (entries : dict nat) (prefix : pystr) (w w' : world) :
  NoDup (mapping w).*1 ->
  for_ entries (load_entry_low_memory prefix) w = (Ok tt, w') ->
  (forall k, dict_get k (mapping w') =
     if decide (k ∈ map (fun np : pystr * nat => prefix ++ np.1) entries)
     then None else dict_get k (mapping w)) /\
  (forall q,
     (forall name, (name, q) ∈ entries -> dict_get (prefix ++ name) (mapping w) = None) ->
     objs w' !! q = objs w !! q).
Proof.
  revert w. induction entries as [|[name param] entries IH]; intros w ND R.
  - injection R as <-. split; [|done]. intros k. rewrite decide_False; [done|].
    apply not_elem_of_nil.
  - cbn [for_] in R. unfold bind at 1 in R.
    destruct (load_entry_low_memory prefix (name, param) w) as [[[]|e] w1] eqn:S; [|done].
    pose proof (keeps_run _ _ _ _ _
      (load_entry_low_memory_keeps (fun q => q = param) prefix (name, param) eq_refl) S) as W.
    assert (NoDup (mapping w1).*1) as ND1.
    { eapply sublist_NoDup; [exact ND|]. apply fmap_sublist, W. }
    destruct (IH w1 ND1 R) as [Keys Objs].
    assert (forall k, dict_get k (mapping w1) =
              if decide (k = prefix ++ name) then None else dict_get k (mapping w)) as Step.
    { intros k. destruct (load_entry_low_memory_returns _ _ _ _ _ S) as [[G ->]|[_ ->]].
      - destruct (decide (k = prefix ++ name)) as [->|]; done.
      - by apply dict_get_remove. }
    split.
    + intros k. rewrite Keys, Step. cbn [map fst].
      destruct (decide (k = prefix ++ name)) as [->|N].
      * rewrite (decide_True (P := _ ∈ _ :: _)) by (apply elem_of_cons; by left).
        by destruct (decide _).
      * destruct (decide (k ∈ map _ entries)) as [I|NI].
        -- rewrite decide_True; [done|]. apply elem_of_cons; by right.
        -- rewrite decide_False; [done|]. intros I. apply elem_of_cons in I as [?|?]; done.
    + intros q Abs. rewrite Objs.
      * destruct (decide (q = param)) as [->|N]; [|by apply (wo_objs _ _ _ W)].
        destruct (load_entry_low_memory_returns _ _ _ _ _ S) as [[G ->]|[[t G] _]]; [done|].
        rewrite Abs in G; [done|]. apply elem_of_cons; by left.
      * intros name' I. rewrite Step. destruct (decide _); [done|].
        apply Abs. apply elem_of_cons; by right.
Qed.

(** Partial coverage on the eager path, for one module: when
    [_load_from_state_dict_low_memory] returns, the caller's dict has lost
    exactly the keys of the module's parameters, and a parameter object
    none of whose keys was in the dict is left as it was. *)
Lemma eager_load_partial_coverage (self : pymodule) (prefix : pystr) (w w' : world) :
  NoDup (mapping w).*1 ->
  _load_from_state_dict_low_memory self prefix w = (Ok tt, w') ->
  let local_state := dict_of_items (named_members w (named_modules self) ∅) in
  (forall k, dict_get k (mapping w') =
     if decide (k ∈ map (fun np : pystr * nat => prefix ++ np.1) local_state)
     then None else dict_get k (mapping w)) /\
  (forall q,
     (forall name, (name, q) ∈ local_state -> dict_get (prefix ++ name) (mapping w) = None) ->
     objs w' !! q = objs w !! q).
Proof.
  intros ND R. by apply eager_loop_partial_coverage.
Qed.

End EagerLoad.

(** ** Annotating from a directory *)

Section DirLoad.
Context `{Unicode} `{Posix} `{Torch}.

Lemma load_entry_dir_run (d : dict json) state_dict_dir prefix name param w :
  (forall k v, dict_get k d = Some v -> exists s, v = JStr s) ->
  load_entry_dir (JObj d) state_dict_dir prefix (name, param) w =
  (Ok tt,
   match dict_get (prefix ++ name) d with
   | Some (JStr s) =>
       with_objs (<[param := Param (data (obj w param)) (Some (path_join state_dict_dir s))]>
                    (objs w)) w
   | _ => w
   end).
Proof.
  intros Str. unfold load_entry_dir, py_contains, py_getitem, dict_contains, set_file_path,
    get_param, set_param. run.
  destruct (dict_get (prefix ++ name) d) as [v|] eqn:G; [|done].
  destruct (Str _ _ G) as [s ->]. done.
Qed.

(** Partial coverage on the directory path, for one module and with the
    manifest in hand: [_load_from_state_dict_dir] does not raise; a
    parameter whose key the manifest has gets the path of its file, a
    parameter whose key it omits is left as it was. *)
Lemma load_from_state_dict_dir_partial_coverage (self : pymodule) (d : dict json)
    (state_dict_dir prefix : pystr) (w : world) :
  (forall k v, dict_get k d = Some v -> exists s, v = JStr s) ->
  exists w',
    _load_from_state_dict_dir self (JObj d) state_dict_dir prefix w = (Ok tt, w') /\
    forall name param,
      (name, param) ∈ dict_of_items (named_members w (named_modules self) ∅) ->
      match dict_get (prefix ++ name) d with
      | None => objs w' !! param = objs w !! param
      | Some v =>
          exists s, v = JStr s /\
            objs w' !! param
            = Some (Param (data (obj w param)) (Some (path_join state_dict_dir s)))
      end.
Proof.
  intros Str. unfold _load_from_state_dict_dir, named_parameters.
  unfold bind at 1, bind at 1, get at 1, ret at 1.
  pose proof (dict_of_items_NoDup _ (proj1 (named_members_NoDup w (named_modules self) ∅))) as ND.
  revert ND. generalize (dict_of_items (named_members w (named_modules self) ∅)).
  intros entries ND.
  cut (exists w',
    for_ entries (load_entry_dir (JObj d) state_dict_dir prefix) w = (Ok tt, w') /\
    (forall q, q ∉ entries.*2 -> objs w' !! q = objs w !! q) /\
    forall name param, (name, param) ∈ entries ->
      match dict_get (prefix ++ name) d with
      | None => objs w' !! param = objs w !! param
      | Some v =>
          exists s, v = JStr s /\
            objs w' !! param
            = Some (Param (data (obj w param)) (Some (path_join state_dict_dir s)))
      end).
  { intros (w' & R & _ & P). by exists w'. }
  revert w. induction entries as [|[name param] entries IH]; intros w.
  - exists w. split; [done|]. split; [done|]. intros name param I. by apply elem_of_nil in I.
  - rewrite fmap_cons in ND. apply NoDup_cons in ND as [NI ND]. cbn [snd] in NI.
    cbn [for_]. rewrite (bind_ok _ _ _ _ _ (load_entry_dir_run d state_dict_dir prefix name param w Str)).
    set (w1 := match dict_get (prefix ++ name) d with Some (JStr _) => _ | _ => w end).
    assert (forall q, q <> param -> objs w1 !! q = objs w !! q) as Frame.
    { intros q N. subst w1. destruct (dict_get (prefix ++ name) d) as [[]|]; try done.
      simpl. by apply lookup_insert_ne. }
    destruct (IH ND w1) as (w' & R & Out & P). exists w'. split; [done|]. split.
    + intros q Nq. rewrite fmap_cons in Nq. apply not_elem_of_cons in Nq as [Nq Nq'].
      rewrite Out by done. by apply Frame.
    + intros name' param' I. apply elem_of_cons in I as [[= -> ->]|I].
      * rewrite Out by done. subst w1.
        destruct (dict_get (prefix ++ name) d) as [v|] eqn:G; [|done].
        destruct (Str _ _ G) as [s ->]. exists s. split; [done|].
        simpl. by rewrite lookup_insert_eq.
      * assert (param' <> param) as N.
        { intros ->. apply NI. apply list_elem_of_fmap. by exists (name', param). }
        specialize (P name' param' I). unfold obj in *. rewrite (Frame _ N) in P.
        by destruct (dict_get (prefix ++ name') d).
Qed.

End DirLoad.

(** ** Module trees *)

Lemma pymodule_ind' (P : pymodule -> Prop) :
  (forall i cs, Forall (fun nc => P nc.2) cs -> P (Mod i cs)) -> forall m, P m.
Proof.
  intros Hm. fix IH 1. intros [i cs]. apply Hm.
  induction cs as [|[n c] cs IHcs]; constructor; [apply IH|exact IHcs].
Qed.

Lemma nodes_self m : m ∈ nodes m.
Proof. destruct m. simpl. apply elem_of_cons; by left. Qed.

Lemma concat_over_elem x cs :
  x ∈ concat_over nodes cs <-> exists n c, (n, c) ∈ cs /\ x ∈ nodes c.
Proof.
  induction cs as [|[n c] cs IH]; simpl.
  - split; [intros I; by apply elem_of_nil in I|intros (? & ? & I & _); by apply elem_of_nil in I].
  - rewrite elem_of_app, IH. split.
    + intros [I|(n' & c' & I & I')].
      * exists n, c. split; [apply elem_of_cons; by left|done].
      * exists n', c'. split; [apply elem_of_cons; by right|done].
    + intros (n' & c' & I & I'). apply elem_of_cons in I as [[= -> ->]|I]; [by left|].
      right. by exists n', c'.
Qed.

Lemma nodes_cases x m :
  x ∈ nodes m <-> x = m \/ exists n c, (n, c) ∈ mod_children m /\ x ∈ nodes c.
Proof. destruct m as [i cs]. simpl. by rewrite elem_of_cons, concat_over_elem. Qed.

Lemma nodes_trans m c x : c ∈ nodes m -> x ∈ nodes c -> x ∈ nodes m.
Proof.
  revert c x. induction m as [i cs IH] using pymodule_ind'. intros c x Ic Ix.
  apply nodes_cases in Ic as [->|(n & c0 & I0 & Ic)]; [done|].
  apply nodes_cases. right. exists n, c0. split; [done|].
  rewrite Forall_forall in IH. by apply (IH (n, c0) I0 c x).
Qed.

Lemma max_over_le n c cs : (n, c) ∈ cs -> height c <= max_over height cs.
Proof.
  induction cs as [|[n' c'] cs IH]; intros I; [by apply elem_of_nil in I|].
  simpl. apply elem_of_cons in I as [[= -> ->]|I]; [lia|].
  specialize (IH I). lia.
Qed.

Lemma nodes_height m x : x ∈ nodes m -> x = m \/ height x < height m.
Proof.
  revert x. induction m as [i cs IH] using pymodule_ind'. intros x I.
  apply nodes_cases in I as [->|(n & c & Ic & Ix)]; [by left|]. right.
  rewrite Forall_forall in IH. pose proof (max_over_le n c cs Ic) as L.
  destruct (IH (n, c) Ic x Ix) as [->|Lt]; simpl in *; lia.
Qed.

Lemma height_pos m : 0 < height m.
Proof. destruct m. simpl. lia. Qed.

Lemma consistent_node m c : consistent m -> c ∈ nodes m -> consistent c.
Proof. intros C I a b Ia Ib. apply C; by eapply nodes_trans. Qed.

Lemma walk_children_ok cs memo prefix :
  Forall (fun nc => walk_ok nc.2) cs ->
  let r := walk_children named_modules_from prefix cs memo in
  (forall n c, (n, c) ∈ r.1 -> exists n0 c0, (n0, c0) ∈ cs /\ c ∈ nodes c0) /\
  memo ⊆ r.2 /\
  (forall i, i ∈ r.2 -> i ∈ memo \/ exists n c, (n, c) ∈ r.1 /\ mod_id c = i) /\
  (forall n0 c0, (n0, c0) ∈ cs -> mod_id c0 ∈ r.2).
Proof.
  intros F. revert memo. induction F as [|[n0 c0] cs Hc F IH]; intros memo.
  - simpl. split; [intros n c I; by apply elem_of_nil in I|].
    split; [done|]. split; [intros i I; by left|].
    intros n c I. by apply elem_of_nil in I.
  - cbn [walk_children]. cbv zeta. cbn [fst snd].
    destruct (Hc memo (qualify prefix n0)) as (A1 & B1 & C1 & D1). simpl in *.
    destruct (IH (named_modules_from c0 memo (qualify prefix n0)).2) as (A2 & B2 & C2 & D2).
    repeat split.
    + intros n c I. apply elem_of_app in I as [I|I].
      * exists n0, c0. split; [apply elem_of_cons; by left|by eapply A1].
      * destruct (A2 n c I) as (n' & c' & I' & N). exists n', c'.
        split; [apply elem_of_cons; by right|done].
    + set_solver.
    + intros i I. destruct (C2 i I) as [I1|(n & c & I' & E)].
      * destruct (C1 i I1) as [?|(n & c & I' & E)]; [by left|].
        right. exists n, c. split; [apply elem_of_app; by left|done].
      * right. exists n, c. split; [apply elem_of_app; by right|done].
    + intros n c I. apply elem_of_cons in I as [[= -> ->]|I]; [set_solver|by eapply D2].
Qed.

Lemma named_modules_from_ok m : walk_ok m.
Proof.
  induction m as [i cs IH] using pymodule_ind'. intros memo prefix.
  cbn [named_modules_from]. destruct (decide (i ∈ memo)) as [In|Out]; cbv zeta.
  - simpl. split; [intros n c I; by apply elem_of_nil in I|].
    split; [done|]. split; [intros j I; by left|done].
  - destruct (walk_children_ok cs ({[i]} ∪ memo) prefix IH) as (A & B & C & D).
    cbn [fst snd]. repeat split.
    + intros n c I. apply elem_of_cons in I as [[= -> ->]|I]; [apply nodes_self|].
      destruct (A n c I) as (n0 & c0 & I0 & N). apply nodes_cases. right. by exists n0, c0.
    + set_solver.
    + intros j I. destruct (C j I) as [I'|(n & c & I' & E)].
      * apply elem_of_union in I' as [I'|I']; [|by left].
        apply elem_of_singleton in I' as ->. right. exists prefix, (Mod i cs).
        split; [apply elem_of_cons; by left|done].
      * right. exists n, c. split; [apply elem_of_cons; by right|done].
    + simpl. set_solver.
Qed.

Lemma modules_nodes m c : c ∈ modules m -> c ∈ nodes m.
Proof.
  unfold modules, named_modules. intros I.
  apply list_elem_of_fmap in I as ([n c'] & -> & I).
  by eapply (named_modules_from_ok m ∅ []).
Qed.

Lemma named_modules_head m : exists rest, named_modules m = ([], m) :: rest.
Proof.
  destruct m as [i cs]. unfold named_modules. cbn [named_modules_from].
  rewrite decide_False by apply not_elem_of_empty. cbv zeta. cbn [fst]. eauto.
Qed.

(** Every child of [m] shares its id with [m] or with a module [modules]
    yields. *)
Lemma modules_child m n c :
  (n, c) ∈ mod_children m ->
  mod_id c = mod_id m \/ exists c', c' ∈ modules m /\ mod_id c' = mod_id c.
Proof.
  destruct m as [i cs]. simpl. intros I.
  unfold modules, named_modules. cbn [named_modules_from].
  rewrite decide_False by apply not_elem_of_empty. cbv zeta. cbn [fst].
  destruct (walk_children_ok cs ({[i]} ∪ ∅) [] ) as (A & B & C & D).
  { apply Forall_forall. intros ? _. apply named_modules_from_ok. }
  destruct (C _ (D n c I)) as [I'|(n' & c' & I' & E)].
  - left. set_solver.
  - right. exists c'. split; [|done]. rewrite fmap_cons. apply elem_of_cons. right.
    apply list_elem_of_fmap. by exists (n', c').
Qed.

Lemma dict_set_elem {V} (k k' : pystr) (v r : V) (d : dict V) :
  NoDup d.*1 ->
  (k', r) ∈ dict_set k v d -> (k' = k /\ r = v) \/ (k' <> k /\ (k', r) ∈ d).
Proof.
  induction d as [|[k0 v0] d IH]; cbn [dict_set]; intros ND I.
  - apply list_elem_of_singleton in I as [= -> ->]. by left.
  - rewrite fmap_cons in ND. apply NoDup_cons in ND as [NI ND]. simpl in NI.
    destruct (decide (k0 = k)) as [->|N].
    + apply elem_of_cons in I as [[= -> ->]|I]; [by left|]. right. split.
      * intros ->. apply NI. apply list_elem_of_fmap. by exists (k, r).
      * apply elem_of_cons; by right.
    + apply elem_of_cons in I as [[= -> ->]|I].
      * right. split; [done|apply elem_of_cons; by left].
      * destruct (IH ND I) as [?|[? ?]]; [by left|]. right. split; [done|].
        apply elem_of_cons; by right.
Qed.

(** ** nullify *)

Section Nullify.
Context `{Unicode} `{Posix} `{Torch}.

Lemma plain_slots_intro w : wf_slots w -> untied w -> plain_slots w.
Proof.
  intros W U i d E. destruct (W i d E) as (NDk & DF & Bd). by pose proof (U i d E).
Qed.

#[global] Instance nullifies_preorder : PreOrder nullifies.
Proof.
  split.
  - intros w. split; try done. intros i k r I. by left.
  - intros w1 w2 w3 [n1 o1 k1 e1] [n2 o2 k2 e2]. split.
    + lia.
    + intros r L. rewrite o2 by lia. by apply o1.
    + intros i. by rewrite k2, k1.
    + intros i k r I. destruct (e2 i k r I) as [I2|[B O]].
      * destruct (e1 i k r I2) as [I1|[B O]]; [by left|]. right.
        split; [lia|]. rewrite o2 by lia. done.
      * right. split; [lia|done].
Qed.

Lemma blank_slots_keeps n0 w w' i :
  blank_slots n0 w i -> nullifies w w' -> n0 <= next_obj w -> blank_slots n0 w' i.
Proof.
  intros B [n1 o1 k1 e1] L k r I. destruct (e1 i k r I) as [I1|[B1 O1]].
  - destruct (B k r I1) as [Br Or]. split; [lia|]. rewrite o1 by lia. done.
  - split; [lia|done].
Qed.

Lemma blank_slots_mono n0 n1 w i : n1 <= n0 -> blank_slots n0 w i -> blank_slots n1 w i.
Proof. intros L B k r I. destruct (B k r I). split; [lia|done]. Qed.

Lemma nullify_parameter_run module name param w :
  nullify_parameter module (name, param) w =
  (Ok tt,
   if negb (str_contains [Chr.dot] name) && dict_contains name (params_by_id w (mod_id module))
   then replaced (mod_id module) name w else w).
Proof.
  unfold nullify_parameter, hasattr, new_param, setattr, params_of, params_by_id. run.
  destruct (negb (str_contains [Chr.dot] name) &&
            dict_contains name (default [] (slots w !! mod_id module))); done.
Qed.

Lemma params_by_id_replaced i name w j :
  params_by_id (replaced i name w) j =
  if decide (i = j) then dict_set name (next_obj w) (params_by_id w i) else params_by_id w j.
Proof.
  unfold params_by_id at 1. simpl. destruct (decide (i = j)) as [->|N].
  - by rewrite lookup_insert_eq.
  - by rewrite lookup_insert_ne.
Qed.

Lemma params_by_id_wf w i :
  plain_slots w ->
  NoDup (params_by_id w i).*1 /\
  Forall (fun name => str_contains [Chr.dot] name = false) (params_by_id w i).*1 /\
  NoDup (params_by_id w i).*2 /\ Forall (fun r => r < next_obj w) (params_by_id w i).*2.
Proof.
  intros W. unfold params_by_id. destruct (slots w !! i) as [d|] eqn:E; simpl.
  - by apply (W i).
  - repeat split; constructor.
Qed.

Lemma replaced_wf i name w :
  plain_slots w -> name ∈ (params_by_id w i).*1 -> plain_slots (replaced i name w).
Proof.
  intros W I j d E.
  destruct (params_by_id_wf w i W) as (NDk & DF & NDv & Bd).
  simpl in E. destruct (decide (i = j)) as [->|N].
  - rewrite lookup_insert_eq in E. injection E as <-.
    destruct (dict_set_values name (next_obj w) (params_by_id w j)) as [Sub NDs].
    rewrite dict_set_keys by done. repeat split; try done.
    + apply NDs; [done|]. intros I'. rewrite Forall_forall in Bd.
      specialize (Bd _ I'). lia.
    + apply Forall_forall. intros r Ir. simpl.
      destruct (Sub r Ir) as [->|I']; [lia|].
      rewrite Forall_forall in Bd. specialize (Bd _ I'). lia.
  - rewrite lookup_insert_ne in E by done.
    destruct (W j d E) as (? & ? & ? & Bj). repeat split; try done.
    eapply Forall_impl; [exact Bj|]. simpl. intros. lia.
Qed.

Lemma replaced_nullifies i name w :
  plain_slots w -> name ∈ (params_by_id w i).*1 -> nullifies w (replaced i name w).
Proof.
  intros W I. destruct (params_by_id_wf w i W) as (NDk & DF & NDv & Bd). split.
  - simpl. lia.
  - intros r L. simpl. apply lookup_insert_ne. lia.
  - intros j. rewrite params_by_id_replaced. destruct (decide (i = j)) as [->|N]; [|done].
    by apply dict_set_keys.
  - intros j k r Ir. rewrite params_by_id_replaced in Ir.
    destruct (decide (i = j)) as [->|N]; [|by left].
    apply dict_set_elem in Ir as [[-> ->]|[_ Ir]]; [|by left|done].
    right. simpl. split; [lia|]. by rewrite lookup_insert_eq.
Qed.

(** The first loop of [_nullify]: every name it meets that is a
    parameter of the module ends up on a placeholder. *)
Lemma nullify_parameters_ok module (nps : list (pystr * nat)) w :
  plain_slots w ->
  exists w',
    for_ nps (nullify_parameter module) w = (Ok tt, w') /\
    nullifies w w' /\ plain_slots w' /\
    forall name r, name ∈ nps.*1 -> (name, r) ∈ params_by_id w' (mod_id module) ->
      next_obj w <= r < next_obj w' /\ objs w' !! r = Some uninitialized.
Proof.
  revert w. induction nps as [|[name param] nps IH]; intros w W.
  - exists w. split; [done|]. split; [reflexivity|]. split; [done|].
    intros name r I. by apply elem_of_nil in I.
  - cbn [for_]. rewrite (bind_ok _ _ _ _ _ (nullify_parameter_run module name param w)).
    destruct (params_by_id_wf w (mod_id module) W) as (NDk & DF & NDv & Bd).
    destruct (negb (str_contains [Chr.dot] name) &&
              dict_contains name (params_by_id w (mod_id module))) eqn:Cond.
    + apply andb_true_iff in Cond as [_ In]. apply dict_contains_true in In.
      pose proof (replaced_wf _ _ _ W In) as W1.
      pose proof (replaced_nullifies _ _ _ W In) as N1.
      destruct (IH _ W1) as (w' & R & N & W' & B).
      exists w'. split; [done|]. split; [by etransitivity|]. split; [done|].
      intros k r Ik Ir. rewrite fmap_cons in Ik. simpl in Ik.
      destruct (decide (k ∈ nps.*1)) as [Ik'|Nk].
      { destruct (B k r Ik' Ir) as [[? ?] ?]. simpl in *. split; [lia|done]. }
      apply elem_of_cons in Ik as [->|Ik]; [|done].
      destruct (nu_entry _ _ N _ _ _ Ir) as [I1|[[? ?] ?]]; [|simpl in *; split; [lia|done]].
      rewrite params_by_id_replaced, decide_True in I1 by done.
      apply dict_set_elem in I1 as [[_ ->]|[? _]]; [|done|done].
      pose proof (nu_next _ _ N) as Ln. simpl in Ln. split; [lia|].
      rewrite (nu_objs _ _ N) by (simpl; lia). simpl. by rewrite lookup_insert_eq.
    + destruct (IH _ W) as (w' & R & N & W' & B).
      exists w'. split; [done|]. split; [done|]. split; [done|].
      intros k r Ik Ir. rewrite fmap_cons in Ik. simpl in Ik.
      destruct (decide (k ∈ nps.*1)) as [Ik'|Nk]; [by apply (B k r)|].
      apply elem_of_cons in Ik as [->|Ik]; [|done].
      assert (name ∈ (params_by_id w (mod_id module)).*1) as In.
      { rewrite <- (nu_keys _ _ N). apply list_elem_of_fmap. by exists (name, r). }
      apply dict_contains_true in In. rewrite In, andb_true_r in Cond.
      apply negb_false_iff in Cond. rewrite Forall_forall in DF.
      apply dict_contains_true in In. specialize (DF _ In). simpl in DF. congruence.
Qed.

Lemma members_of_all items memo :
  NoDup items.*2 -> (forall v, v ∈ items.*2 -> v ∉ memo) ->
  ((members_of [] items memo).1).*1 = items.*1.
Proof.
  revert memo. induction items as [|[k v] items IH]; intros memo ND Out; [done|].
  rewrite fmap_cons in ND. apply NoDup_cons in ND as [NI ND]. simpl in NI.
  cbn [members_of]. rewrite decide_False.
  - cbn [fst]. rewrite !fmap_cons. cbn [fst]. f_equal. apply IH; [done|].
    intros u I. apply not_elem_of_union. split.
    + intros E. apply elem_of_singleton in E as ->. done.
    + apply Out. rewrite fmap_cons. apply elem_of_cons; by right.
  - apply Out. rewrite fmap_cons. apply elem_of_cons; by left.
Qed.

(** The parameters of the module itself are enumerated under their own
    names. *)
Lemma named_members_own w module name :
  plain_slots w -> name ∈ (params_by_id w (mod_id module)).*1 ->
  name ∈ (named_members w (named_modules module) ∅).*1.
Proof.
  intros W I. destruct (named_modules_head module) as [rest ->].
  cbn [named_members]. rewrite fmap_app. apply elem_of_app. left.
  destruct (params_by_id_wf w (mod_id module) W) as (_ & _ & NDv & _).
  unfold params_of. fold (params_by_id w (mod_id module)).
  rewrite members_of_all; [done|done|]. intros v _. apply not_elem_of_empty.
Qed.

Lemma nullify_ok fuel module w :
  plain_slots w -> consistent module -> height module <= fuel ->
  exists w',
    _nullify fuel module w = (Ok tt, w') /\
    nullifies w w' /\ plain_slots w' /\
    forall x, x ∈ nodes module -> blank_slots (next_obj w) w' (mod_id x).
Proof.
  revert module w. induction fuel as [|fuel IH]; intros module w W C Hh.
  { pose proof (height_pos module). lia. }
  cbn [_nullify]. unfold named_parameters. unfold bind at 1, bind at 1, get at 1, ret at 1.
  destruct (nullify_parameters_ok module (named_members w (named_modules module) ∅) w W)
    as (w1 & R1 & N1 & W1 & B1).
  rewrite (bind_ok _ _ _ _ _ R1).
  assert (blank_slots (next_obj w) w1 (mod_id module)) as Own.
  { intros k r I. apply (B1 k r); [|done]. apply named_members_own; [done|].
    rewrite <- (nu_keys _ _ N1). apply list_elem_of_fmap. by exists (k, r). }
  assert (forall L w1, (forall c, c ∈ L -> c ∈ nodes module) -> plain_slots w1 ->
    exists w',
      for_ L (fun child => if is_ child module then ret tt else _nullify fuel child) w1
        = (Ok tt, w') /\
      nullifies w1 w' /\ plain_slots w' /\
      forall c, c ∈ L -> mod_id c <> mod_id module ->
        forall x, x ∈ nodes c -> blank_slots (next_obj w1) w' (mod_id x)) as Loop.
  { clear w W w1 R1 N1 W1 B1 Own.
    induction L as [|c L IHL]; intros w1 Sub W1.
    - exists w1. split; [done|]. split; [reflexivity|]. split; [done|].
      intros c I. by apply elem_of_nil in I.
    - assert (c ∈ nodes module) as Ic by (apply Sub; apply elem_of_cons; by left).
      assert (forall c', c' ∈ L -> c' ∈ nodes module) as Sub'
        by (intros c' I; apply Sub; apply elem_of_cons; by right).
      cbn [for_]. unfold is_. destruct (decide (mod_id c = mod_id module)) as [E|N].
      + rewrite bool_decide_eq_true_2 by done.
        unfold bind at 1, ret at 1.
        destruct (IHL w1 Sub' W1) as (w' & R & Nu & W' & B).
        exists w'. split; [done|]. split; [done|]. split; [done|].
        intros c' I N'. apply elem_of_cons in I as [->|I]; [done|]. by apply B.
      + rewrite bool_decide_eq_false_2 by done.
        assert (height c <= fuel) as Hc.
        { destruct (nodes_height _ _ Ic) as [->|Lt]; [done|lia]. }
        destruct (IH c w1 W1 (consistent_node _ _ C Ic) Hc) as (w2 & R2 & N2 & W2 & B2).
        rewrite (bind_ok _ _ _ _ _ R2).
        destruct (IHL w2 Sub' W2) as (w' & R & Nu & W' & B).
        exists w'. split; [done|]. split; [by etransitivity|]. split; [done|].
        intros c' I N' x Ix. apply elem_of_cons in I as [->|I].
        * eapply blank_slots_keeps; [by apply B2|done|]. apply (nu_next _ _ N2).
        * eapply blank_slots_mono; [|by eapply B]. apply (nu_next _ _ N2). }
  destruct (Loop (modules module) w1 (modules_nodes module) W1) as (w' & R & Nu & W' & B).
  exists w'. split; [done|]. split; [by etransitivity|]. split; [done|].
  intros x Ix. apply nodes_cases in Ix as [->|(n & c & Ic & Ix)].
  - eapply blank_slots_keeps; [exact Own|done|]. apply (nu_next _ _ N1).
  - assert (c ∈ nodes module) as Icn.
    { apply nodes_cases. right. exists n, c. split; [done|apply nodes_self]. }
    assert (mod_id c <> mod_id module) as Nid.
    { intros E. assert (c = module) as -> by (apply C; [done|apply nodes_self|done]).
      destruct module as [i cs]. simpl in Ic. pose proof (max_over_le _ _ _ Ic). simpl in *. lia. }
    destruct (modules_child _ _ _ Ic) as [E|(c' & Ic' & E)]; [done|].
    assert (c' = c) as -> by (apply C; [by apply modules_nodes|done|done]).
    eapply blank_slots_mono; [|by eapply B]. apply (nu_next _ _ N1).
Qed.

End Nullify.

Section NullifyProperties.
Context `{Unicode} `{Posix} `{Torch}.

(** C7, as the code has it: on a module tree, shared sub-modules
    included, in which no parameter object is registered under two names
    of one module, [nullify] returns once the recursion limit allows as
    many nested calls as the tree is high, and afterwards every parameter
    of every module of the tree is a placeholder allocated during the
    call, uninitialized and without [_file_path], under the name it had. *)
Theorem nullify_blanks_every_parameter (fuel : nat) (self : pymodule) (w : world) :
  wf_slots w -> untied w -> consistent self -> height self <= fuel ->
  exists w',
    nullify fuel self w = (Ok tt, w') /\
    forall x, x ∈ nodes self ->
      (params_of w' x).*1 = (params_of w x).*1 /\
      forall name r, (name, r) ∈ params_of w' x ->
        next_obj w <= r /\ objs w' !! r = Some uninitialized.
Proof.
  intros W U C Hh.
  destruct (nullify_ok fuel self w (plain_slots_intro w W U) C Hh) as (w' & R & N & _ & B).
  exists w'. split; [done|]. intros x Ix. split.
  - apply (nu_keys _ _ N).
  - intros name r I. destruct (B x Ix name r I) as [[? _] ?]. done.
Qed.

End NullifyProperties.

(** ** Closed examples *)

Section Examples.
#[local] Existing Instance latin1.
#[local] Existing Instance plain_paths.
#[local] Existing Instance flat_torch.

(** *** save_split *)

Lemma named_tensors_keys : NoDup named_tensors.*1.
Proof. apply (bool_decide_unpack _). by vm_compute. Qed.

Lemma save_split_file_names_distinct_witness :
  exists key_to_filename,
    fs (save_split named_tensors ckpt blank_world).2
      !! path_join ckpt _KEY_TO_FILENAME_JSON
      = Some (JsonFile (json_dump key_to_filename)) /\
    forall i j ki kj, i <> j ->
      named_tensors.*1 !! i = Some ki -> named_tensors.*1 !! j = Some kj ->
      exists si sj,
        sanitize_file_name ki = Ok si /\ sanitize_file_name kj = Ok sj /\
        dict_get ki key_to_filename = Some (file_name i si) /\
        dict_get kj key_to_filename = Some (file_name j sj) /\
        file_name i si <> file_name j sj.
Proof.
  apply (save_split_file_names_distinct named_tensors ckpt blank_world).
  - exact named_tensors_keys.
  - by vm_compute.
Defined.

Lemma save_split_all_or_nothing_witness :
  exists w',
    save_split unnameable_tensors ckpt blank_world = (Raise ValueError, w') /\
    fs w' = fs blank_world.
Proof.
  apply (save_split_all_or_nothing unnameable_tensors ckpt blank_world).
  exists (pystr_of " .. "), ValueError. split; [|by vm_compute].
  apply (bool_decide_unpack _). by vm_compute.
Defined.

(** *** greedy_search *)

Lemma greedy_search_spec_witness :
  @greedy_search (stub peak_at_5) (T2 2 [[7; 8]]) 5 2%Z tt
  = (Ok (T2 5 [[7; 8; 5; 5; 5]]), tt).
Proof.
  apply (proj2 greedy_search_spec peak_at_5 (Fin 10) 2 [7; 8] 5).
  - simpl. lia.
  - lia.
  - reflexivity.
  - intros j x L N.
    do 7 (destruct j as [|j]; [try (injection L as <-; reflexivity); congruence|]).
    discriminate.
  - reflexivity.
Defined.

(** *** materialize *)




(** The same with a side file that does not parse. *)
Lemma materialize_stops_at_unparsable_spec :
  let r := materialize linear bad_spec_world in
  r.1 = Raise JSONDecodeError /\
  obj r.2 1 = Param None (Some (pystr_of "/ckpt/p1.b")) /\
  opened r.2 = [pystr_of "/ckpt/p0.a.empty_json"].
Proof. by vm_compute. Qed.


(** *** load_state_dict_dir *)

(** The nested call of [load] on the tree [net]: the call for the root
    annotates [weights.weight] and leaves [scale], then the nested call for
    the child [weights] receives the string ["weights."] where the
    manifest belongs, finds ["weight"] in it as a substring and indexes
    the string: [TypeError]. *)
Lemma load_state_dict_dir_nested_call_raises :
  let r := load_state_dict_dir 5 net ckpt net_world in
  r.1 = Raise TypeError /\
  obj r.2 0 = Param None None /\
  obj r.2 1 = Param None (Some (pystr_of "/ckpt/p0.weights.weight")).
Proof. by vm_compute. Qed.

(** *** load_state_dict_low_memory *)

Lemma eager_load_consumes_key_before_copy_witness :
  exists name param dst t,
    (name, param) ∈ dict_of_items (named_members backed_world (named_modules linear) ∅) /\
    dict_get ([] ++ name) (mapping backed_world) = Some t /\
    data (obj backed_world param) = Some dst /\ copy_ dst t = None /\
    ([] ++ name ∉ (mapping (_load_from_state_dict_low_memory linear [] backed_world).2).*1) /\
    objs (_load_from_state_dict_low_memory linear [] backed_world).2 !! param
      = objs backed_world !! param.
Proof.
  apply (eager_load_consumes_key_before_copy linear [] backed_world _ RuntimeError).
  - apply (bool_decide_unpack _). by vm_compute.
  - by vm_compute.
Defined.

(** *** nullify *)

(** C7 fails on the code, in two ways.  The module [shared] is
    registered under [a] and under [b]; it is reached from [a], from the
    root and from [b], and its one parameter is replaced at each visit:
    three placeholders are allocated for it.  And in [tied_world] one
    parameter object is registered as [a] and as [b]: [named_parameters]
    yields it once, as [a], so [a] gets a placeholder and [b] stays on the
    old parameter, data and [_file_path] included. *)
Lemma nullify_replaces_thrice_and_skips_tied :
  (let r := nullify 3 diamond diamond_world in
   r.1 = Ok tt /\
   tree_parameters diamond_world diamond = [0] /\
   next_obj diamond_world = 1 /\ next_obj r.2 = 4 /\
   params_by_id r.2 2 = [(pystr_of "w", 3)] /\
   objs r.2 !! 1 = Some uninitialized /\ objs r.2 !! 2 = Some uninitialized /\
   objs r.2 !! 3 = Some uninitialized) /\
  (let r := nullify 1 linear tied_world in
   r.1 = Ok tt /\
   params_by_id tied_world 0 = [(pystr_of "a", 0); (pystr_of "b", 0)] /\
   params_by_id r.2 0 = [(pystr_of "a", 1); (pystr_of "b", 0)] /\
   objs r.2 !! 1 = Some uninitialized /\
   objs r.2 !! 0 = Some (Param (Some vec2) (Some (pystr_of "/ckpt/p0.a")))).
Proof. by vm_compute. Qed.

(** The parameter left behind is still deferred: [materialize] after
    [nullify] opens its file. *)
Lemma materialize_after_nullify_reads_tied :
  let r := materialize linear (nullify 1 linear tied_world).2 in
  r.1 = Ok tt /\ opened r.2 = [pystr_of "/ckpt/p0.a"].
Proof. by vm_compute. Qed.

Lemma diamond_world_wf : wf_slots diamond_world.
Proof.
  intros i d E. cbn [diamond_world slots] in E.
  apply lookup_singleton_Some in E as [<- <-].
  repeat split; repeat constructor; try apply not_elem_of_nil.
Qed.

Lemma diamond_world_untied : untied diamond_world.
Proof.
  intros i d E. cbn [diamond_world slots] in E.
  apply lookup_singleton_Some in E as [<- <-].
  repeat constructor. apply not_elem_of_nil.
Qed.

Lemma diamond_consistent : consistent diamond.
Proof.
  intros a b Ia Ib E. simpl in Ia, Ib.
  repeat (apply elem_of_cons in Ia as [->|Ia]).
  all: try (by apply elem_of_nil in Ia).
  all: repeat (apply elem_of_cons in Ib as [->|Ib]).
  all: try (by apply elem_of_nil in Ib).
  all: done.
Qed.

Lemma nullify_blanks_every_parameter_witness :
  exists w',
    nullify 3 diamond diamond_world = (Ok tt, w') /\
    forall x, x ∈ nodes diamond ->
      (params_of w' x).*1 = (params_of diamond_world x).*1 /\
      forall name r, (name, r) ∈ params_of w' x ->
        next_obj diamond_world <= r /\ objs w' !! r = Some uninitialized.
Proof.
  apply (nullify_blanks_every_parameter 3 diamond diamond_world).
  - exact diamond_world_wf.
  - exact diamond_world_untied.
  - exact diamond_consistent.
  - simpl. lia.
Defined.

End Examples.

(** * Further properties *)

(** ** sanitize_file_name *)

Section SanitizeMore.
Context `{Unicode}.

Lemma re_sub_delete_class s : Forall (fun c => in_class c = true) (re_sub_delete s).
Proof.
  induction s as [|c s IH]; simpl; [constructor|].
  destruct (in_class c) eqn:E; simpl; [by constructor|done].
Qed.

Lemma re_sub_delete_length s : length (re_sub_delete s) <= length s.
Proof.
  induction s as [|c s IH]; simpl; [done|].
  destruct (negb (in_class c)); simpl; lia.
Qed.

Lemma lstrip_length s : length (lstrip s) <= length s.
Proof.
  induction s as [|c s IH]; simpl; [done|]. destruct (isspace c); simpl; lia.
Qed.

Lemma strip_length s : length (strip s) <= length s.
Proof.
  unfold strip, rstrip. rewrite length_rev.
  etransitivity; [apply lstrip_length|]. rewrite length_rev. apply lstrip_length.
Qed.

Lemma slash_not_in_class : in_class Chr.slash = false.
Proof. done. Qed.

Lemma uint_chars_no_slash d : Chr.slash ∉ uint_chars d.
Proof.
  induction d; simpl; [apply not_elem_of_nil|..];
    (apply not_elem_of_cons; split; [discriminate|done]).
Qed.

Lemma sanitized_in_class key s :
  sanitize_file_name key = Ok s -> Forall (fun c => in_class c = true) s.
Proof.
  unfold sanitize_file_name. destruct (unusable _); [done|]. intros [= <-].
  apply re_sub_delete_class.
Qed.

(** X1: a name [sanitize_file_name] returns consists of hyphens, word
    characters and dots only and is no longer than the key; the file name
    [p<idx>.<name>] built from it holds no path separator, so the file is
    an entry of the directory it is joined to. *)
Theorem sanitize_file_name_alphabet (key s : pystr) :
  sanitize_file_name key = Ok s ->
  Forall (fun c => in_class c = true) s /\
  length s <= length key /\
  forall idx, Chr.slash ∉ file_name idx s.
Proof.
  unfold sanitize_file_name.
  destruct (unusable _) eqn:U; [done|]. intros [= <-]. split; [|split].
  - apply re_sub_delete_class.
  - etransitivity; [apply re_sub_delete_length|]. unfold replace.
    rewrite length_map. apply strip_length.
  - intros idx. unfold file_name. apply not_elem_of_cons. split; [discriminate|].
    apply not_elem_of_app. split; [apply uint_chars_no_slash|].
    apply not_elem_of_cons. split; [discriminate|].
    intros I. pose proof (re_sub_delete_class (replace Chr.space Chr.underscore (strip key))) as C.
    rewrite Forall_forall in C. specialize (C _ I). by rewrite slash_not_in_class in C.
Qed.

Lemma ascii_class_not_space c : (c < 128)%N -> in_class c = true -> isspace c = false.
Proof.
  intros L C.
  assert (forallb (fun n => implb (in_class (N.of_nat n)) (negb (isspace (N.of_nat n))))
            (seq 0 128) = true) as A by (by vm_compute).
  assert (In (N.to_nat c) (seq 0 128)) as I by (apply in_seq; lia).
  pose proof (proj1 (forallb_forall _ _) A _ I) as P. cbv beta in P.
  rewrite N2Nat.id, C in P. by apply negb_true_iff.
Qed.

Lemma lstrip_id c s : isspace c = false -> lstrip (c :: s) = c :: s.
Proof. intros E. simpl. by rewrite E. Qed.

Lemma strip_id s : Forall (fun c => isspace c = false) s -> strip s = s.
Proof.
  intros F. unfold strip, rstrip.
  assert (lstrip s = s) as ->.
  { destruct F; [done|]. by apply lstrip_id. }
  assert (lstrip (rev s) = rev s) as ->; [|by rewrite rev_involutive].
  apply Forall_rev in F. destruct F; [done|]. by apply lstrip_id.
Qed.

Lemma re_sub_delete_id s : Forall (fun c => in_class c = true) s -> re_sub_delete s = s.
Proof.
  induction 1 as [|c s E F IH]; simpl; [done|]. by rewrite E, IH.
Qed.

(** X2: sanitizing is idempotent.  A name [sanitize_file_name] returned is
    returned unchanged when sanitized again, provided the Unicode tables
    count no whitespace character as alphanumeric. *)
Theorem sanitize_file_name_idempotent (key s : pystr) :
  (forall c, isspace c = true -> unicode_isalnum c = false) ->
  sanitize_file_name key = Ok s ->
  sanitize_file_name s = Ok s.
Proof.
  intros Ws S.
  pose proof (sanitized_in_class key s S) as C.
  assert (Forall (fun c => isspace c = false) s) as NS.
  { eapply Forall_impl; [exact C|]. intros c Ic. simpl in Ic.
    destruct (N.ltb_spec c 128) as [L|L]; [by apply ascii_class_not_space|].
    destruct (isspace c) eqn:E; [|done]. specialize (Ws c E).
    unfold in_class, is_word, isalnum in Ic.
    destruct (N.ltb_spec c 128) as [L'|_]; [lia|]. rewrite Ws in Ic.
    assert (c <> Chr.hyphen /\ c <> Chr.underscore /\ c <> Chr.dot) as (N1 & N2 & N3).
    { unfold Chr.hyphen, Chr.underscore, Chr.dot. lia. }
    apply N.eqb_neq in N1, N2, N3. by rewrite N1, N2, N3 in Ic. }
  assert (replace Chr.space Chr.underscore s = s) as R.
  { unfold replace. rewrite <- (map_id s) at 2. apply map_ext_Forall.
    eapply Forall_impl; [exact NS|]. intros c E. simpl in E.
    destruct (N.eqb_spec c Chr.space) as [->|]; [done|done]. }
  revert S. unfold sanitize_file_name.
  destruct (unusable _) eqn:U; [done|]. intros [= E].
  rewrite strip_id, R, re_sub_delete_id by done.
  rewrite E in U. by rewrite U.
Qed.

End SanitizeMore.

(** ** save_split *)

Section SaveSplitMore.
Context `{Unicode} `{Posix} `{Torch}.

(** X3: [save_split] writes the manifest and one file per key and nothing
    else: every other path holds afterwards what it held before (files of
    an earlier save are not removed), and no parameter object, module table
    or the caller's dict changes. *)
Theorem save_split_writes_only_its_files (state_dict : dict tensor) (save_dir : pystr)
    (w w' : world) :
  NoDup state_dict.*1 ->
  save_split state_dict save_dir w = (Ok tt, w') ->
  (forall path,
     path <> path_join save_dir _KEY_TO_FILENAME_JSON ->
     (forall idx key, state_dict.*1 !! idx = Some key ->
        path <> path_join save_dir (file_name idx (sanitized_spec key))) ->
     fs w' !! path = fs w !! path) /\
  dirs w' = {[save_dir]} ∪ dirs w /\
  objs w' = objs w /\ slots w' = slots w /\ mapping w' = mapping w.
Proof.
  intros ND S.
  destruct (usable_or_not state_dict.*1) as [U|E];
    [|rewrite save_split_raises in S by done; discriminate].
  rewrite save_split_unfold in S by done. injection S as <-.
  split; [|done]. intros path NM NF. cbn [fs with_fs].
  rewrite written_lookup_ne.
  - by apply lookup_insert_ne.
  - intros kt I E. apply list_elem_of_lookup in I as [idx L].
    rewrite (saved_name _ idx) in E by done. simpl in E.
    apply (NF idx kt.1); [by rewrite list_lookup_fmap, L|done].
Qed.

(** X4: saving the same dict to the same directory again changes
    nothing: the second [save_split] returns and leaves the world the first
    one left. *)
Theorem save_split_twice (state_dict : dict tensor) (save_dir : pystr) (w w1 : world) :
  NoDup state_dict.*1 ->
  save_split state_dict save_dir w = (Ok tt, w1) ->
  save_split state_dict save_dir w1 = (Ok tt, w1).
Proof.
  intros ND S.
  destruct (usable_or_not state_dict.*1) as [U|E];
    [|rewrite save_split_raises in S by done; discriminate].
  rewrite save_split_unfold in S |- * by done. injection S as <-.
  set (ktf := manifest_from 0 state_dict.*1).
  set (J := JsonFile (json_dump ktf)).
  set (F := written save_dir ktf state_dict
              (<[path_join save_dir _KEY_TO_FILENAME_JSON := J]> (fs w))).
  cbn [fs dirs with_fs with_dirs].
  assert (F !! path_join save_dir _KEY_TO_FILENAME_JSON = Some J) as LM.
  { subst F. rewrite written_lookup_ne; [by rewrite lookup_insert_eq|].
    intros kt I E. apply list_elem_of_lookup in I as [j L].
    subst ktf. rewrite (saved_name _ j) in E by done. simpl in E.
    apply path_join_inj in E; [|apply file_name_relative|apply manifest_relative].
    by apply file_name_not_manifest in E. }
  assert (written save_dir ktf state_dict
            (<[path_join save_dir _KEY_TO_FILENAME_JSON := J]> F) = F) as ->.
  { apply map_eq. intros p.
    destruct (decide (p ∈ map (fun kt : pystr * tensor =>
                path_join save_dir (default [] (dict_get kt.1 ktf))) state_dict)) as [I|N].
    - apply list_elem_of_fmap in I as (kt & -> & I). apply list_elem_of_lookup in I as [j L].
      subst F. rewrite !(written_lookup save_dir ktf state_dict _ j kt); try done;
        by apply saved_paths_NoDup.
    - rewrite written_lookup_ne.
      + destruct (decide (p = path_join save_dir _KEY_TO_FILENAME_JSON)) as [->|Np].
        * by rewrite lookup_insert_eq.
        * by rewrite lookup_insert_ne.
      + intros kt I E. apply N. apply list_elem_of_fmap. by exists kt. }
  assert ({[save_dir]} ∪ ({[save_dir]} ∪ dirs w) = {[save_dir]} ∪ dirs w) as ->
    by set_solver.
  done.
Qed.

End SaveSplitMore.

(** ** materialize, when it succeeds *)

Section MaterializeMore.
Context `{Unicode} `{Posix} `{Torch}.

Lemma materialize_loop_skip (params : list nat) (w : world) :
  (forall r, r ∈ params -> _file_path (obj w r) = None) ->
  for_ params materialize_param w = (Ok tt, w).
Proof.
  induction params as [|r ps IH]; intros N; [done|].
  cbn [for_]. rewrite (bind_ok _ _ _ _ _ (materialize_param_skip r w
    (N r ltac:(apply elem_of_cons; by left)))).
  apply IH. intros q I. apply N. apply elem_of_cons; by right.
Qed.

(** X5: on a tree none of whose parameters carries a deferred source,
    [materialize] returns and changes nothing: it opens no file and
    touches no parameter. *)
Theorem materialize_without_deferred_source (self : pymodule) (w : world) :
  (forall r, r ∈ tree_parameters w self -> _file_path (obj w r) = None) ->
  materialize self w = (Ok tt, w).
Proof.
  intros N. unfold materialize. rewrite (bind_ok _ _ _ _ _ (parameters_run self w)).
  by apply materialize_loop_skip.
Qed.

Lemma resolved_has_data w r t :
  match data (obj w r) with None => True | Some dst => shape dst = shape t end ->
  is_Some (data (resolved w r t)).
Proof.
  unfold resolved. simpl. destruct (data (obj w r)) as [dst|]; simpl; intros E.
  - by apply copy_same_shape.
  - apply copy_same_shape, shape_empty.
Qed.

Lemma torch_load_ok path t w :
  fs w !! path = Some (TensorFile t) ->
  torch_load path w = (Ok t, with_opened (path :: opened w) w).
Proof. intros F. unfold torch_load. by rewrite (bind_ok _ _ _ _ _ (open_read_ok _ _ _ F)). Qed.

Lemma param_copy__ok r t dst x w :
  data (obj w r) = Some dst -> copy_ dst t = Some x ->
  param_copy_ r t w =
  (Ok tt, with_objs (<[r := Param (Some x) (_file_path (obj w r))]> (objs w)) w).
Proof. intros D C. unfold param_copy_, get_param, set_param. run. by rewrite D, C. Qed.

Lemma materialize_param_file r w path t :
  _file_path (obj w r) = Some path ->
  endswith empty_json_suffix path = false ->
  fs w !! path = Some (TensorFile t) ->
  match data (obj w r) with None => True | Some dst => shape dst = shape t end ->
  materialize_param r w =
  (Ok tt, with_objs (<[r := resolved w r t]> (objs w)) (with_opened (path :: opened w) w)).
Proof.
  intros P E F Sh. pose proof (resolved_has_data w r t Sh) as [x X].
  unfold resolved in *. cbn [data] in X. rewrite X.
  unfold materialize_param. unfold bind at 1, get_param at 1, bind at 1, get at 1, ret at 1.
  rewrite P, E. rewrite (bind_ok _ _ _ _ _ (torch_load_ok path t w F)).
  set (w0 := with_opened _ w).
  assert (obj w0 r = obj w r) as O0 by done.
  unfold bind at 1, is_lazy at 1, bind at 1, get_param at 1, bind at 1, get at 1,
    ret at 1, ret at 1.
  rewrite O0. destruct (data (obj w r)) as [dst|] eqn:D; simpl in X.
  - unfold bind at 1, ret at 1.
    rewrite (param_copy__ok r t dst x w0); [|by rewrite O0|done].
    by rewrite O0, P.
  - unfold bind at 1, param_materialize at 1, bind at 1, get_param at 1, bind at 1,
      get at 1, ret at 1, set_param at 1, modify at 1.
    set (w1 := with_objs _ w0).
    rewrite (param_copy__ok r t (empty (shape t)) x w1);
      [|by subst w1; rewrite obj_with_objs_eq|done].
    subst w1. rewrite obj_with_objs_eq. cbn [_file_path]. rewrite O0, P.
    unfold with_objs. cbn [fs dirs slots objs next_obj gen mapping opened].
    by rewrite insert_insert_eq.
Qed.

Lemma deferred_paths_ext (w1 w2 : world) (ps : list nat) :
  (forall q, q ∈ ps -> obj w1 q = obj w2 q) ->
  deferred_paths w1 ps = deferred_paths w2 ps.
Proof.
  induction ps as [|r ps IH]; intros E; [done|].
  assert (deferred_paths w1 ps = deferred_paths w2 ps) as R.
  { apply IH. intros q I. apply E, elem_of_cons. by right. }
  unfold deferred_paths in *. simpl.
  rewrite (E r) by (apply elem_of_cons; by left).
  by destruct (_file_path (obj w2 r)); [f_equal|].
Qed.

Lemma materialize_loop_resolves (params : list nat) (w : world) :
  NoDup params -> (forall r, r ∈ params -> ready w r) ->
  exists w',
    for_ params materialize_param w = (Ok tt, w') /\
    fs w' = fs w /\
    opened w' = rev (deferred_paths w params) ++ opened w /\
    (forall q, q ∉ params -> objs w' !! q = objs w !! q) /\
    forall r, r ∈ params ->
      match _file_path (obj w r) with
      | None => objs w' !! r = objs w !! r
      | Some path =>
          exists t, fs w !! path = Some (TensorFile t) /\
            objs w' !! r = Some (resolved w r t) /\ is_Some (data (resolved w r t))
      end.
Proof.
  revert w. induction params as [|r ps IH]; intros w ND Rd.
  - exists w. repeat split; try done. intros r I. by apply elem_of_nil in I.
  - apply NoDup_cons in ND as [NI ND].
    pose proof (Rd r ltac:(apply elem_of_cons; by left)) as Rr. unfold ready in Rr.
    cbn [for_]. unfold deferred_paths. cbn [omap].
    destruct (_file_path (obj w r)) as [path|] eqn:P.
    + destruct Rr as (E & t & F & Sh).
      rewrite (bind_ok _ _ _ _ _ (materialize_param_file r w path t P E F Sh)).
      set (w1 := with_objs _ _).
      assert (forall q, q <> r -> objs w1 !! q = objs w !! q) as Fr.
      { intros q N. subst w1. simpl. by apply lookup_insert_ne. }
      assert (forall q, q <> r -> obj w1 q = obj w q) as Fo.
      { intros q N. unfold obj. by rewrite Fr. }
      destruct (IH w1 ND) as (w' & R & Ffs & Op & Out & Post).
      { intros q I. assert (q <> r) as N by (by intros ->).
        unfold ready. rewrite (Fo q N). by apply Rd, elem_of_cons; right. }
      exists w'. split; [done|]. split; [done|]. split; [|split].
      * rewrite Op. subst w1. simpl. rewrite P.
        cbn [rev]. rewrite <- app_assoc. cbn [app]. f_equal.
        f_equal. apply deferred_paths_ext.
        intros q I. rewrite Fo; [done|]. by intros ->.
      * intros q Nq. apply not_elem_of_cons in Nq as [Nq Nq'].
        rewrite Out by done. by apply Fr.
      * intros q I. apply elem_of_cons in I as [->|I].
        -- rewrite P. exists t. split; [done|]. rewrite Out by done.
           split; [by subst w1; simpl; rewrite lookup_insert_eq|].
           by apply resolved_has_data.
        -- assert (q <> r) as N by (by intros ->).
           specialize (Post q I). rewrite (Fo q N) in Post.
           unfold resolved in *. rewrite (Fo q N) in Post. rewrite Fr in Post by done.
           destruct (_file_path (obj w q)); [|done].
           destruct Post as (t' & F' & O' & S'). exists t'. split; [exact F'|]. split; [exact O'|exact S'].
    + rewrite (bind_ok _ _ _ _ _ (materialize_param_skip r w P)).
      destruct (IH w ND) as (w' & R & Ffs & Op & Out & Post).
      { intros q I. by apply Rd, elem_of_cons; right. }
      exists w'. split; [done|]. split; [done|]. split; [|split].
      * simpl. by rewrite P.
      * intros q Nq. apply not_elem_of_cons in Nq as [_ Nq]. by apply Out.
      * intros q I. apply elem_of_cons in I as [->|I]; [|by apply Post].
        rewrite P. by apply Out.
Qed.

(** X6: when every deferred parameter of the tree points at a tensor file
    that is there and is a placeholder (or has data of the file's shape),
    [materialize] returns; it has opened the deferred files once each, in
    the order of [parameters()]; every deferred parameter holds the copy of
    its file's tensor, into storage of the tensor's shape when it was a
    placeholder; the other parameters are as they were. *)
Theorem materialize_resolves_deferred_files (self : pymodule) (w : world) :
  (forall r, r ∈ tree_parameters w self -> ready w r) ->
  exists w',
    materialize self w = (Ok tt, w') /\
    opened w' = rev (deferred_paths w (tree_parameters w self)) ++ opened w /\
    (forall q, q ∉ tree_parameters w self -> objs w' !! q = objs w !! q) /\
    forall r, r ∈ tree_parameters w self ->
      match _file_path (obj w r) with
      | None => objs w' !! r = objs w !! r
      | Some path =>
          exists t, fs w !! path = Some (TensorFile t) /\
            objs w' !! r = Some (resolved w r t) /\ is_Some (data (resolved w r t))
      end.
Proof.
  intros Rd. unfold materialize. rewrite (bind_ok _ _ _ _ _ (parameters_run self w)).
  destruct (materialize_loop_resolves _ w (tree_parameters_NoDup w self) Rd)
    as (w' & R & _ & Op & Out & Post).
  by exists w'.
Qed.

(** X7: whatever its outcome, [materialize] writes no file, rebinds no
    parameter slot, allocates no object, and leaves every parameter object
    outside the tree as it was. *)
Theorem materialize_frame (self : pymodule) (w : world) :
  let w' := (materialize self w).2 in
  fs w' = fs w /\ slots w' = slots w /\ next_obj w' = next_obj w /\
  forall q, q ∉ tree_parameters w self -> objs w' !! q = objs w !! q.
Proof.
  intros w'.
  assert (works_on (fun q => q ∈ tree_parameters w self) w w') as W.
  { subst w'. unfold materialize. rewrite (bind_ok _ _ _ _ _ (parameters_run self w)).
    apply materialize_loop_keeps. }
  destruct W. done.
Qed.

End MaterializeMore.

(** ** nullify, and what it leaves alone *)

Section NullifyMore.
Context `{Unicode} `{Posix} `{Torch}.

Lemma named_members_source w mods memo r :
  r ∈ (named_members w mods memo).*2 ->
  exists pre m, (pre, m) ∈ mods /\ r ∈ (params_of w m).*2.
Proof.
  revert memo. induction mods as [|[pre m] mods IH]; intros memo I.
  - by apply elem_of_nil in I.
  - cbn [named_members] in I. rewrite fmap_app in I. apply elem_of_app in I as [I|I].
    + exists pre, m. split; [apply elem_of_cons; by left|].
      by apply (members_of_spec pre (params_of w m) memo).
    + destruct (IH _ I) as (pre' & m' & I' & P). exists pre', m'.
      split; [apply elem_of_cons; by right|done].
Qed.

(** What [parameters()] yields is registered with a module of the tree. *)
Lemma tree_parameters_source w self r :
  r ∈ tree_parameters w self -> registered w self r.
Proof.
  intros I. destruct (named_members_source _ _ _ _ I) as (pre & m & Im & P).
  exists m. split; [|done]. by eapply (named_modules_from_ok self ∅ []).
Qed.

#[global] Instance allocates_preorder : PreOrder allocates.
Proof.
  split.
  - intros w. unfold allocates. repeat split; done.
  - intros w1 w2 w3 (f1 & d1 & m1 & o1 & g1 & n1 & b1) (f2 & d2 & m2 & o2 & g2 & n2 & b2).
    unfold allocates. repeat split; try congruence; [lia|].
    intros r L. rewrite b2 by lia. by apply b1.
Qed.

Lemma nullify_parameter_allocates module entry :
  keeps allocates (nullify_parameter module entry).
Proof.
  intros w. destruct entry as [name param]. rewrite nullify_parameter_run. cbn [snd].
  destruct (_ && _); [|reflexivity].
  unfold allocates, replaced. simpl. repeat split; try done; [lia|].
  intros r L. apply lookup_insert_ne. lia.
Qed.

Lemma nullify_allocates fuel module : keeps allocates (_nullify fuel module).
Proof.
  revert module. induction fuel as [|fuel IH]; intros module.
  - apply keeps_raise; apply _.
  - cbn [_nullify]. apply keeps_bind; [apply _| |intros nps].
    { unfold named_parameters. apply keeps_bind; [apply _|apply keeps_get; apply _|].
      intros w0. apply keeps_ret; apply _. }
    apply keeps_bind; [apply _| |intros _].
    { apply keeps_for_; [apply _|]. intros e _. apply nullify_parameter_allocates. }
    apply keeps_for_; [apply _|]. intros c _.
    apply keeps_if; [apply keeps_ret; apply _|apply IH].
Qed.

(** X8: whatever its outcome (the recursion limit included), [nullify]
    touches no file, directory, random generator or caller's dict, opens
    nothing, and leaves every parameter object that existed before the call
    as it was: the old parameters are unlinked, not altered. *)
Theorem nullify_leaves_old_objects (fuel : nat) (self : pymodule) (w : world) :
  let w' := (nullify fuel self w).2 in
  fs w' = fs w /\ dirs w' = dirs w /\ mapping w' = mapping w /\ opened w' = opened w /\
  gen w' = gen w /\ next_obj w <= next_obj w' /\
  forall r, r < next_obj w -> objs w' !! r = objs w !! r.
Proof. apply (nullify_allocates fuel self w). Qed.

(** X9: [nullify] discards deferred sources, where no parameter object
    is registered under two names of one module.  On such a module tree
    [materialize] right after [nullify] returns without opening a file and
    changes nothing, whatever [_file_path] the parameters carried before.
    (A parameter registered under a second name keeps its old object, and
    with it the deferred source.) *)
Theorem materialize_after_nullify (fuel : nat) (self : pymodule) (w : world) :
  wf_slots w -> untied w -> consistent self -> height self <= fuel ->
  exists w',
    nullify fuel self w = (Ok tt, w') /\
    materialize self w' = (Ok tt, w').
Proof.
  intros W U C Hh.
  destruct (nullify_ok fuel self w (plain_slots_intro w W U) C Hh) as (w' & R & _ & _ & B).
  exists w'. split; [done|].
  unfold materialize. rewrite (bind_ok _ _ _ _ _ (parameters_run self w')).
  apply materialize_loop_skip. intros r I.
  destruct (tree_parameters_source _ _ _ I) as (x & Ix & P).
  apply list_elem_of_fmap in P as ([k r'] & -> & P).
  destruct (B x Ix k r' P) as [_ O]. unfold obj. simpl. by rewrite O.
Qed.

End NullifyMore.

(** ** load_state_dict_low_memory, and what it leaves alone *)

Section EagerLoadMore.
Context `{Unicode} `{Posix} `{Torch}.

Lemma registered_slots w w' self q :
  slots w' = slots w -> registered w' self q -> registered w self q.
Proof.
  intros E (x & Ix & P). exists x. split; [done|]. unfold params_of in *. by rewrite <- E.
Qed.

#[global] Instance loads_into_preorder self : PreOrder (loads_into self).
Proof.
  split.
  - intros w. unfold loads_into. reflexivity.
  - intros w1 w2 w3 A B. unfold loads_into in *. etransitivity; [exact A|].
    destruct B as [f s n o p l m]. split; try done.
    intros q N. apply o. intros R. apply N.
    by apply (registered_slots w1 w2 self q (wo_slots _ _ _ A)).
Qed.

Lemma dict_of_items_from {V} (items : dict V) (r : V) :
  NoDup items.*2 -> r ∈ (dict_of_items items).*2 -> r ∈ items.*2.
Proof.
  intros ND I. destruct (dict_of_items_values items [] ND) as [_ Sub].
  destruct (Sub r I) as [I'|I']; [by apply elem_of_nil in I'|done].
Qed.

Lemma load_from_low_memory_loads self x prefix :
  x ∈ nodes self -> keeps (loads_into self) (_load_from_state_dict_low_memory x prefix).
Proof.
  intros Ix w. unfold _load_from_state_dict_low_memory, named_parameters.
  unfold bind at 1, bind at 1, get at 1, ret at 1. unfold loads_into.
  apply (keeps_for_ (works_on (registered w self))).
  intros [name r] I. apply load_entry_low_memory_keeps. cbn [snd].
  assert (r ∈ tree_parameters w x) as It.
  { apply dict_of_items_from; [apply named_members_NoDup|].
    apply list_elem_of_fmap. by exists (name, r). }
  destruct (tree_parameters_source _ _ _ It) as (y & Iy & P).
  exists y. split; [by apply (nodes_trans self x)|done].
Qed.

Lemma load_low_memory_loads self fuel x prefix :
  x ∈ nodes self -> keeps (loads_into self) (load_low_memory fuel x prefix).
Proof.
  revert x prefix. induction fuel as [|fuel IH]; intros x prefix Ix.
  - apply keeps_raise; apply _.
  - cbn [load_low_memory].
    apply keeps_bind; [apply _|by apply load_from_low_memory_loads|intros _].
    apply keeps_for_; [apply _|]. intros [name child] I.
    apply keeps_if; [apply keeps_ret; apply _|]. apply IH.
    apply (nodes_trans self x); [done|]. by eapply (named_modules_from_ok x ∅ []).
Qed.

(** X10: whatever its outcome, [load_state_dict_low_memory] writes no
    file, rebinds no parameter slot, allocates no object, alters only
    parameter objects registered with a module of the tree, sets or clears
    no [_file_path], and only removes entries from the caller's dict: what
    is left of the dict is in the order it was. *)
Theorem load_state_dict_low_memory_frame (fuel : nat) (self : pymodule) (w : world) :
  let w' := (load_state_dict_low_memory fuel self w).2 in
  fs w' = fs w /\ slots w' = slots w /\ next_obj w' = next_obj w /\
  (forall q, ~ registered w self q -> objs w' !! q = objs w !! q) /\
  (forall q, _file_path (obj w' q) = _file_path (obj w q)) /\
  sublist (mapping w') (mapping w).
Proof.
  intros w'. destruct (load_low_memory_loads self fuel self [] (nodes_self self) w). done.
Qed.

End EagerLoadMore.

(** ** _load_from_state_dict_low_memory, when it succeeds *)

Section EagerSuccess.
Context `{Unicode} `{Posix} `{Torch}.

Lemma copy_into_run r t w :
  match data (obj w r) with None => True | Some dst => shape dst = shape t end ->
  bind (is_lazy r) (fun lazy =>
    bind (if lazy then param_materialize r (shape t) else ret tt)
      (fun _ => param_copy_ r t)) w
  = (Ok tt, with_objs (<[r := resolved w r t]> (objs w)) w).
Proof.
  intros Sh. pose proof (resolved_has_data w r t Sh) as [x X].
  unfold resolved in *. cbn [data] in X. rewrite X.
  unfold bind at 1, is_lazy at 1, bind at 1, get_param at 1, bind at 1, get at 1,
    ret at 1, ret at 1.
  destruct (data (obj w r)) as [dst|] eqn:D; simpl in X.
  - unfold bind at 1, ret at 1. by rewrite (param_copy__ok r t dst x w).
  - unfold bind at 1, param_materialize at 1, bind at 1, get_param at 1, bind at 1,
      get at 1, ret at 1, set_param at 1, modify at 1.
    set (w1 := with_objs _ w).
    rewrite (param_copy__ok r t (empty (shape t)) x w1);
      [|by subst w1; rewrite obj_with_objs_eq|done].
    subst w1. rewrite obj_with_objs_eq. cbn [_file_path].
    unfold with_objs. cbn [fs dirs slots objs next_obj gen mapping opened].
    by rewrite insert_insert_eq.
Qed.

Lemma load_entry_low_memory_present prefix name param t w :
  dict_get (prefix ++ name) (mapping w) = Some t ->
  match data (obj w param) with None => True | Some dst => shape dst = shape t end ->
  load_entry_low_memory prefix (name, param) w =
  (Ok tt, with_objs (<[param := resolved w param t]> (objs w))
            (with_mapping (dict_remove (prefix ++ name) (mapping w)) w)).
Proof.
  intros G Sh. unfold load_entry_low_memory, dict_contains. cbn [fst snd].
  unfold bind at 1, get at 1. rewrite G.
  unfold state_dict_pop. unfold bind at 1, bind at 1, get at 1. rewrite G.
  unfold bind at 1, modify at 1, ret at 1.
  set (w0 := with_mapping _ w).
  by rewrite (copy_into_run param t w0).
Qed.

Lemma load_entry_low_memory_absent prefix name param w :
  dict_get (prefix ++ name) (mapping w) = None ->
  load_entry_low_memory prefix (name, param) w = (Ok tt, w).
Proof.
  intros G. unfold load_entry_low_memory, dict_contains. cbn [fst snd].
  unfold bind at 1, get at 1. by rewrite G.
Qed.

Lemma dict_of_items_keys_NoDup {V} (items : dict V) : NoDup (dict_of_items items).*1.
Proof.
  unfold dict_of_items.
  assert (forall d : dict V, NoDup d.*1 ->
    NoDup (fold_left (fun d kv => dict_set kv.1 kv.2 d) items d).*1) as G.
  { induction items as [|[k v] items IH]; intros d ND; [done|]. cbn [fold_left fst snd].
    apply IH. destruct (decide (k ∈ d.*1)) as [I|N].
    - by rewrite dict_set_keys.
    - rewrite dict_set_fresh, fmap_app by done. apply NoDup_app. split; [done|].
      split; [|apply NoDup_singleton]. intros x I E.
      apply list_elem_of_singleton in E as ->. done. }
  apply G. constructor.
Qed.

Lemma eager_loop_resolves (entries : dict nat) (prefix : pystr) (w : world) :
  NoDup entries.*1 -> NoDup entries.*2 -> NoDup (mapping w).*1 ->
  (forall name param t, (name, param) ∈ entries ->
     dict_get (prefix ++ name) (mapping w) = Some t ->
     match data (obj w param) with None => True | Some dst => shape dst = shape t end) ->
  exists w',
    for_ entries (load_entry_low_memory prefix) w = (Ok tt, w') /\
    (forall q, q ∉ entries.*2 -> objs w' !! q = objs w !! q) /\
    forall name param, (name, param) ∈ entries ->
      match dict_get (prefix ++ name) (mapping w) with
      | Some t =>
          objs w' !! param = Some (resolved w param t) /\
          is_Some (data (resolved w param t))
      | None => objs w' !! param = objs w !! param
      end.
Proof.
  revert w. induction entries as [|[name param] entries IH]; intros w NDk NDv NDm Sh.
  - exists w. split; [done|]. split; [done|]. intros name param I. by apply elem_of_nil in I.
  - rewrite fmap_cons in NDk. rewrite fmap_cons in NDv.
    apply NoDup_cons in NDk as [Nk NDk], NDv as [Nv NDv].
    cbn [fst snd] in Nk, Nv. cbn [for_].
    assert (exists w1,
      load_entry_low_memory prefix (name, param) w = (Ok tt, w1) /\
      (forall q, q <> param -> objs w1 !! q = objs w !! q) /\
      (forall k, k <> prefix ++ name -> dict_get k (mapping w1) = dict_get k (mapping w)) /\
      NoDup (mapping w1).*1 /\
      match dict_get (prefix ++ name) (mapping w) with
      | Some t => objs w1 !! param = Some (resolved w param t)
      | None => objs w1 !! param = objs w !! param
      end) as (w1 & R1 & Fr & Km & ND1 & P1).
    { destruct (dict_get (prefix ++ name) (mapping w)) as [t|] eqn:G.
      - eexists. split; [apply (load_entry_low_memory_present prefix name param t w G)|].
        { apply (Sh name param t); [apply elem_of_cons; by left|done]. }
        split; [|split; [|split]].
        + intros q N. simpl. by apply lookup_insert_ne.
        + intros k N. simpl. rewrite dict_get_remove by done. by rewrite decide_False.
        + simpl. eapply sublist_NoDup; [exact NDm|]. apply fmap_sublist, dict_remove_sublist.
        + simpl. by rewrite lookup_insert_eq.
      - exists w. split; [by apply load_entry_low_memory_absent|]. done. }
    rewrite (bind_ok _ _ _ _ _ R1).
    assert (forall n p, (n, p) ∈ entries ->
      dict_get (prefix ++ n) (mapping w1) = dict_get (prefix ++ n) (mapping w) /\
      obj w1 p = obj w p) as Same.
    { intros n p I. split.
      - apply Km. intros E. apply app_inv_head in E as ->. apply Nk.
        apply list_elem_of_fmap. by exists (name, p).
      - unfold obj. rewrite Fr; [done|]. intros ->. apply Nv.
        apply list_elem_of_fmap. by exists (n, param). }
    destruct (IH w1 NDk NDv ND1) as (w' & R & Out & P).
    { intros n p t I G. destruct (Same n p I) as [Eg Eo]. rewrite Eg in G. rewrite Eo.
      apply (Sh n p t); [apply elem_of_cons; by right|done]. }
    exists w'. split; [done|]. split.
    + intros q Nq. rewrite fmap_cons in Nq. apply not_elem_of_cons in Nq as [Nq Nq'].
      rewrite Out by done. by apply Fr.
    + intros n p I. apply elem_of_cons in I as [[= -> ->]|I].
      * rewrite Out by done. destruct (dict_get (prefix ++ name) (mapping w)) as [t|] eqn:G;
          [|done]. split; [done|]. apply resolved_has_data.
        apply (Sh name param t); [apply elem_of_cons; by left|done].
      * destruct (Same n p I) as [Eg Eo]. specialize (P n p I). rewrite Eg in P.
        destruct (dict_get (prefix ++ n) (mapping w)) as [t|].
        -- unfold resolved in *. by rewrite Eo in P.
        -- rewrite P. apply Fr. intros ->. apply Nv. apply list_elem_of_fmap.
           by exists (n, param).
Qed.

(** X11: [_load_from_state_dict_low_memory] returns when every
    parameter whose key the dict has is a placeholder or has data of the
    offered tensor's shape; every such parameter then holds the copy of
    the tensor offered under its key (into storage of the tensor's shape
    when it was a placeholder), with its [_file_path] as before, and
    every other parameter is as it was. *)
Theorem eager_load_resolves (self : pymodule) (prefix : pystr) (w : world) :
  NoDup (mapping w).*1 ->
  (forall name param t,
     (name, param) ∈ dict_of_items (named_members w (named_modules self) ∅) ->
     dict_get (prefix ++ name) (mapping w) = Some t ->
     match data (obj w param) with None => True | Some dst => shape dst = shape t end) ->
  exists w',
    _load_from_state_dict_low_memory self prefix w = (Ok tt, w') /\
    (forall q, q ∉ (dict_of_items (named_members w (named_modules self) ∅)).*2 ->
       objs w' !! q = objs w !! q) /\
    forall name param,
      (name, param) ∈ dict_of_items (named_members w (named_modules self) ∅) ->
      match dict_get (prefix ++ name) (mapping w) with
      | Some t =>
          objs w' !! param = Some (resolved w param t) /\
          is_Some (data (resolved w param t))
      | None => objs w' !! param = objs w !! param
      end.
Proof.
  intros ND Sh. unfold _load_from_state_dict_low_memory, named_parameters.
  unfold bind at 1, bind at 1, get at 1, ret at 1.
  apply eager_loop_resolves; [apply dict_of_items_keys_NoDup| |done|done].
  apply dict_of_items_NoDup, named_members_NoDup.
Qed.

End EagerSuccess.

(** ** load_state_dict_low_memory on a tree without sharing *)

Lemma paths_over_elem name c prefix cs :
  (name, c) ∈ paths_over paths prefix cs <->
  exists n c0, (n, c0) ∈ cs /\ (name, c) ∈ paths (qualify prefix n) c0.
Proof.
  induction cs as [|[n c0] cs IH]; simpl.
  - split; [intros I; by apply elem_of_nil in I|intros (? & ? & I & _); by apply elem_of_nil in I].
  - rewrite elem_of_app, IH. split.
    + intros [I|(n' & c' & I & I')].
      * exists n, c0. split; [apply elem_of_cons; by left|done].
      * exists n', c'. split; [apply elem_of_cons; by right|done].
    + intros (n' & c' & I & I'). apply elem_of_cons in I as [[= -> ->]|I]; [by left|].
      right. by exists n', c'.
Qed.

Lemma paths_cases name c prefix m :
  (name, c) ∈ paths prefix m <->
  (name = prefix /\ c = m) \/
  exists n c0, (n, c0) ∈ mod_children m /\ (name, c) ∈ paths (qualify prefix n) c0.
Proof.
  destruct m as [i cs]. cbn [paths mod_children]. rewrite elem_of_cons, paths_over_elem.
  split; (intros [E|E]; [left|by right]); [by injection E|by destruct E as [-> ->]].
Qed.

Lemma paths_modules prefix m : (paths prefix m).*2 = nodes m.
Proof.
  revert prefix. induction m as [i cs IH] using pymodule_ind'. intros prefix.
  cbn [paths nodes]. rewrite fmap_cons. cbn [snd]. f_equal.
  induction IH as [|[n c] cs Hc _ IHcs]; [done|].
  cbn [paths_over concat_over]. rewrite fmap_app. cbn [snd] in Hc. by rewrite Hc, IHcs.
Qed.

Lemma qualify_length prefix name : length prefix <= length (qualify prefix name).
Proof. unfold qualify. rewrite length_app. lia. Qed.

Lemma paths_length name c prefix m :
  (name, c) ∈ paths prefix m -> length prefix <= length name.
Proof.
  revert prefix. induction m as [i cs IH] using pymodule_ind'. intros prefix I.
  apply paths_cases in I as [[-> _]|(n & c0 & I0 & I)]; [done|].
  rewrite Forall_forall in IH. specialize (IH (n, c0) I0 _ I).
  pose proof (qualify_length prefix n). lia.
Qed.

(** A module found under [name] brings its own sub-tree along. *)
Lemma paths_subtree name child prefix x n y :
  (name, child) ∈ paths prefix x -> (n, y) ∈ paths name child -> (n, y) ∈ paths prefix x.
Proof.
  revert prefix. induction x as [i cs IH] using pymodule_ind'. intros prefix I Iy.
  apply paths_cases in I as [[-> ->]|(n0 & c0 & I0 & I)]; [done|].
  apply paths_cases. right. exists n0, c0. split; [done|].
  rewrite Forall_forall in IH. by apply (IH (n0, c0) I0).
Qed.

Lemma qualify_app q p name :
  p <> [] -> qualify (q ++ p) name = q ++ qualify p name.
Proof.
  intros N. unfold qualify. destruct p as [|a p]; [done|].
  destruct (q ++ a :: p) eqn:E; [by destruct q|]. rewrite <- E. by rewrite <- !app_assoc.
Qed.

Lemma qualify_nonempty p name : p <> [] -> qualify p name <> [].
Proof. intros N. unfold qualify. by destruct p. Qed.

(** Below a non-empty prefix, the paths grow with the prefix. *)
Lemma paths_app q p m :
  p <> [] ->
  paths (q ++ p) m = map (fun nc : pystr * pymodule => (q ++ nc.1, nc.2)) (paths p m).
Proof.
  revert p. induction m as [i cs IH] using pymodule_ind'. intros p N.
  cbn [paths map fst snd]. f_equal.
  induction IH as [|[n c] cs Hc _ IHcs]; [done|].
  cbn [paths_over]. rewrite map_app, IHcs. f_equal.
  cbn [snd] in Hc. rewrite qualify_app by done. apply Hc. by apply qualify_nonempty.
Qed.

(** What a sub-module found under [name] enumerates under [n], the
    ancestor enumerates under [name.n]. *)
Lemma paths_relative name child n y :
  name <> [] ->
  Forall (fun nc : pystr * pymodule => nc.1 <> []) (mod_children child) ->
  (n, y) ∈ paths [] child ->
  exists n', (n', y) ∈ paths name child /\
    forall k, qualify n' k = name ++ [Chr.dot] ++ qualify n k.
Proof.
  intros N Names I. apply paths_cases in I as [[-> ->]|(n0 & c0 & I0 & I)].
  - exists name. split; [apply paths_cases; by left|].
    intros k. unfold qualify. destruct name; [done|]. done.
  - rewrite Forall_forall in Names. pose proof (Names _ I0) as N0. cbn [fst] in N0.
    assert (qualify [] n0 = n0) as E0 by done. rewrite E0 in I.
    exists ((name ++ [Chr.dot]) ++ n). split.
    + apply paths_cases. right. exists n0, c0. split; [done|].
      assert (qualify name n0 = (name ++ [Chr.dot]) ++ n0) as ->.
      { unfold qualify. destruct name; [done|]. by rewrite <- app_assoc. }
      rewrite paths_app by done. apply list_elem_of_fmap. by exists (n, y).
    + intros k. pose proof (paths_length _ _ _ _ I) as L.
      assert (n <> []) as Nn by (intros ->; destruct n0; [done|simpl in L; lia]).
      unfold qualify. destruct n as [|a n]; [done|].
      destruct ((name ++ [Chr.dot]) ++ a :: n) eqn:E; [by destruct name|]. rewrite <- E.
      by rewrite <- !app_assoc.
Qed.

Lemma nodes_sublist m x : x ∈ nodes m -> sublist (nodes x) (nodes m).
Proof.
  induction m as [i cs IH] using pymodule_ind'. intros I.
  apply nodes_cases in I as [->|(n & c & Ic & Ix)]; [done|].
  cbn [nodes]. apply sublist_cons. cbn [mod_children] in Ic.
  induction IH as [|[n' c'] cs Hc _ IHcs]; [by apply elem_of_nil in Ic|].
  cbn [concat_over]. apply elem_of_cons in Ic as [[= <- <-]|Ic].
  - apply sublist_inserts_r. by apply Hc.
  - apply sublist_inserts_l. by apply IHcs.
Qed.

Lemma concat_fmap_sublist {A B} (f : A -> list B) (l1 l2 : list A) :
  sublist l1 l2 -> sublist (concat (f <$> l1)) (concat (f <$> l2)).
Proof.
  induction 1 as [|a l1 l2 _ IH|a l1 l2 _ IH]; [done|..]; rewrite ?fmap_cons; simpl.
  - by apply sublist_app.
  - by apply sublist_inserts_l.
Qed.

Section EagerTree.
Context `{Unicode} `{Posix} `{Torch}.

Lemma unshared_node w self x : unshared w self -> x ∈ nodes self -> unshared w x.
Proof.
  intros (Ni & Np & Nn) I. pose proof (nodes_sublist _ _ I) as S. split; [|split].
  - eapply sublist_NoDup; [exact Ni|]. by apply fmap_sublist.
  - eapply sublist_NoDup; [exact Np|]. by apply concat_fmap_sublist.
  - rewrite Forall_forall in Nn |- *. intros y Iy. apply Nn. by eapply nodes_trans.
Qed.

Lemma walk_children_paths prefix cs memo :
  Forall (fun nc : pystr * pymodule => forall memo prefix,
    NoDup (mod_id <$> nodes nc.2) -> (forall y, y ∈ nodes nc.2 -> mod_id y ∉ memo) ->
    (named_modules_from nc.2 memo prefix).1 = paths prefix nc.2) cs ->
  NoDup (mod_id <$> concat_over nodes cs) ->
  (forall y, y ∈ concat_over nodes cs -> mod_id y ∉ memo) ->
  (walk_children named_modules_from prefix cs memo).1 = paths_over paths prefix cs.
Proof.
  intros F. revert memo. induction F as [|[n c] cs Hc _ IH]; intros memo ND Out; [done|].
  cbn [walk_children paths_over concat_over] in *. cbv zeta. cbn [fst snd] in *.
  rewrite fmap_app in ND. apply NoDup_app in ND as (NDc & Dis & NDcs).
  rewrite Hc; [|done|intros y Iy; apply Out, elem_of_app; by left]. f_equal.
  apply IH; [done|]. intros y Iy In.
  destruct (named_modules_from_ok c memo (qualify prefix n)) as (A & _ & C & _).
  destruct (C _ In) as [Im|(n1 & c1 & I1 & E)].
  - apply (Out y); [apply elem_of_app; by right|done].
  - apply (Dis (mod_id y)).
    + rewrite <- E. apply list_elem_of_fmap. exists c1. split; [done|]. by eapply A.
    + apply list_elem_of_fmap. by exists y.
Qed.

Lemma named_modules_from_paths m memo prefix :
  NoDup (mod_id <$> nodes m) -> (forall y, y ∈ nodes m -> mod_id y ∉ memo) ->
  (named_modules_from m memo prefix).1 = paths prefix m.
Proof.
  revert memo prefix. induction m as [i cs IH] using pymodule_ind'. intros memo prefix ND Out.
  cbn [named_modules_from paths].
  rewrite decide_False by (apply (Out (Mod i cs)), nodes_self).
  cbv zeta. cbn [fst]. f_equal.
  cbn [nodes] in ND. rewrite fmap_cons in ND. apply NoDup_cons in ND as [Ni ND].
  apply walk_children_paths; [exact IH|done|].
  intros y Iy In. apply elem_of_union in In as [In|In].
  - apply elem_of_singleton in In. apply Ni. cbn [mod_id] in In. rewrite <- In.
    apply list_elem_of_fmap. by exists y.
  - apply (Out y); [|done]. cbn [nodes]. apply elem_of_cons. by right.
Qed.

Lemma named_modules_paths w m : unshared w m -> named_modules m = paths [] m.
Proof.
  intros (Ni & _ & _). unfold named_modules. apply named_modules_from_paths; [done|].
  intros y _. apply not_elem_of_empty.
Qed.

Lemma members_of_from module_prefix items memo name v :
  (name, v) ∈ (members_of module_prefix items memo).1 ->
  exists k, (k, v) ∈ items /\ name = qualify module_prefix k.
Proof.
  revert memo. induction items as [|[k0 v0] items IH]; intros memo I.
  - by apply elem_of_nil in I.
  - cbn [members_of] in I. destruct (decide (v0 ∈ memo)).
    + destruct (IH _ I) as (k & Ik & E). exists k. split; [apply elem_of_cons; by right|done].
    + cbn [fst] in I. apply elem_of_cons in I as [[= -> ->]|I].
      * exists k0. split; [apply elem_of_cons; by left|done].
      * destruct (IH _ I) as (k & Ik & E). exists k.
        split; [apply elem_of_cons; by right|done].
Qed.

Lemma named_members_from w mods memo name v :
  (name, v) ∈ named_members w mods memo ->
  exists pre m k, (pre, m) ∈ mods /\ (k, v) ∈ params_of w m /\ name = qualify pre k.
Proof.
  revert memo. induction mods as [|[pre m] mods IH]; intros memo I.
  - by apply elem_of_nil in I.
  - cbn [named_members] in I. apply elem_of_app in I as [I|I].
    + destruct (members_of_from _ _ _ _ _ I) as (k & Ik & E).
      exists pre, m, k. split; [apply elem_of_cons; by left|done].
    + destruct (IH _ I) as (pre' & m' & k & Im & Ik & E). exists pre', m', k.
      split; [apply elem_of_cons; by right|done].
Qed.

Lemma members_of_complete module_prefix items memo k v :
  NoDup items.*2 -> (forall u, u ∈ items.*2 -> u ∉ memo) ->
  (k, v) ∈ items -> (qualify module_prefix k, v) ∈ (members_of module_prefix items memo).1.
Proof.
  revert memo. induction items as [|[k0 v0] items IH]; intros memo ND Out I.
  - by apply elem_of_nil in I.
  - rewrite fmap_cons in ND. apply NoDup_cons in ND as [N0 ND]. cbn [snd] in N0.
    cbn [members_of]. rewrite decide_False
      by (apply Out; rewrite fmap_cons; apply elem_of_cons; by left).
    cbn [fst]. apply elem_of_cons in I as [[= -> ->]|I]; [apply elem_of_cons; by left|].
    apply elem_of_cons. right. apply IH; [done| |done].
    intros u Iu. apply not_elem_of_union. split.
    + intros E. apply elem_of_singleton in E as ->. done.
    + apply Out. rewrite fmap_cons. apply elem_of_cons; by right.
Qed.

Lemma named_members_complete w mods memo pre m k v :
  NoDup (concat ((fun pm : pystr * pymodule => (params_of w pm.2).*2) <$> mods)) ->
  (forall u, u ∈ concat ((fun pm : pystr * pymodule => (params_of w pm.2).*2) <$> mods) ->
     u ∉ memo) ->
  (pre, m) ∈ mods -> (k, v) ∈ params_of w m ->
  (qualify pre k, v) ∈ named_members w mods memo.
Proof.
  revert memo. induction mods as [|[pre0 m0] mods IH]; intros memo ND Out Im Ik.
  - by apply elem_of_nil in Im.
  - rewrite fmap_cons in ND, Out. cbn [concat snd] in ND, Out.
    apply NoDup_app in ND as (ND0 & Dis & NDr).
    cbn [named_members]. apply elem_of_app.
    apply elem_of_cons in Im as [[= -> ->]|Im].
    + left. apply members_of_complete; [done| |done].
      intros u Iu. apply Out, elem_of_app. by left.
    + right. apply IH; [done| |done|done].
      intros u Iu In.
      destruct (members_of_spec pre0 (params_of w m0) memo) as (_ & Sub & Memo).
      apply Memo in In as [In|In].
      * apply (Out u); [apply elem_of_app; by right|done].
      * destruct (Sub u In) as [_ I0]. by apply (Dis u).
Qed.

(** The names a sub-module enumerates are, behind its own path and a dot,
    among the names its ancestor enumerates. *)
Lemma child_names w x name child pname :
  unshared w x -> (name, child) ∈ named_modules x -> is_ child x = false ->
  pname ∈ (named_members w (named_modules child) ∅).*1 ->
  name ++ [Chr.dot] ++ pname ∈ (named_members w (named_modules x) ∅).*1.
Proof.
  intros U Ic Is Ip.
  assert (child ∈ nodes x) as In by (by eapply (named_modules_from_ok x ∅ [])).
  pose proof (unshared_node w x child U In) as Uc.
  rewrite (named_modules_paths w x U) in Ic |- *.
  rewrite (named_modules_paths w child Uc) in Ip.
  apply list_elem_of_fmap in Ip as ([pname' v] & -> & Ip). cbn [fst].
  destruct (named_members_from _ _ _ _ _ Ip) as (n & y & k & Iy & Ik & ->).
  assert (name <> []) as Nn.
  { intros ->. apply paths_cases in Ic as [[_ ->]|(n0 & c0 & I0 & Ic)].
    - unfold is_ in Is. by rewrite bool_decide_eq_true_2 in Is.
    - destruct U as (_ & _ & Names). rewrite Forall_forall in Names.
      pose proof (Names x (nodes_self x)) as Nx. rewrite Forall_forall in Nx.
      pose proof (Nx _ I0) as N0. cbn [fst] in N0.
      apply paths_length in Ic. assert (qualify [] n0 = n0) as E0 by done.
      rewrite E0 in Ic. destruct n0; [done|simpl in Ic; lia]. }
  destruct (paths_relative name child n y Nn) as (n' & In' & Q); [|done|].
  { destruct Uc as (_ & _ & Names). rewrite Forall_forall in Names.
    apply Names, nodes_self. }
  rewrite <- Q. apply list_elem_of_fmap. exists (qualify n' k, v). split; [done|].
  destruct U as (_ & Np & _).
  apply (named_members_complete w (paths [] x) ∅ n' y k v);
    [| |by eapply paths_subtree|done].
  - replace (concat ((fun pm : pystr * pymodule => (params_of w pm.2).*2) <$> paths [] x))
      with (concat ((fun x => (params_of w x).*2) <$> nodes x)); [done|].
    rewrite <- (paths_modules [] x), <- list_fmap_compose. done.
  - intros u _. apply not_elem_of_empty.
Qed.

Lemma dict_set_keys_elem {V} (k k' : pystr) (v : V) (d : dict V) :
  k' ∈ (dict_set k v d).*1 <-> k' = k \/ k' ∈ d.*1.
Proof.
  induction d as [|[k0 v0] d IH]; cbn [dict_set].
  - rewrite fmap_cons, elem_of_cons. cbn [fst]. by rewrite fmap_nil.
  - destruct (decide (k0 = k)) as [->|N]; rewrite !fmap_cons, !elem_of_cons; cbn [fst].
    + tauto.
    + rewrite IH. tauto.
Qed.

Lemma dict_of_items_keys {V} (items : dict V) (k : pystr) :
  k ∈ (dict_of_items items).*1 <-> k ∈ items.*1.
Proof.
  unfold dict_of_items.
  assert (forall d : dict V,
    k ∈ (fold_left (fun d kv => dict_set kv.1 kv.2 d) items d).*1 <-> k ∈ d.*1 \/ k ∈ items.*1)
    as G.
  { induction items as [|[k0 v0] items IH]; intros d; cbn [fold_left].
    - rewrite fmap_nil. split; [by left|]. intros [?|I]; [done|by apply elem_of_nil in I].
    - rewrite IH, dict_set_keys_elem, fmap_cons, elem_of_cons. cbn [fst]. tauto. }
  rewrite G, fmap_nil. split; [|by right]. intros [I|?]; [by apply elem_of_nil in I|done].
Qed.

Lemma for_same {A} (l : list A) (body : A -> M unit) w :
  (forall x, x ∈ l -> body x w = (Ok tt, w)) -> for_ l body w = (Ok tt, w).
Proof.
  induction l as [|a l IH]; intros N; [done|]. cbn [for_].
  rewrite (bind_ok _ _ _ _ _ (N a ltac:(apply elem_of_cons; by left))).
  apply IH. intros x I. apply N. apply elem_of_cons; by right.
Qed.

Lemma nothing_left_pass w module prefix :
  nothing_left w module prefix ->
  _load_from_state_dict_low_memory module prefix w = (Ok tt, w).
Proof.
  intros N. unfold _load_from_state_dict_low_memory, named_parameters.
  unfold bind at 1, bind at 1, get at 1, ret at 1.
  apply for_same. intros [name r] I.
  unfold load_entry_low_memory, dict_contains. cbn [fst snd].
  unfold bind at 1, get at 1. rewrite N; [done|].
  apply dict_of_items_keys. apply list_elem_of_fmap. by exists (name, r).
Qed.

(** A call of [load] on a sub-tree none of whose keys is left in the dict
    does nothing. *)
Lemma nothing_left_load fuel w x prefix :
  unshared w x -> height x <= fuel -> nothing_left w x prefix ->
  load_low_memory fuel x prefix w = (Ok tt, w).
Proof.
  revert x prefix. induction fuel as [|fuel IH]; intros x prefix U Hh N.
  { pose proof (height_pos x). lia. }
  cbn [load_low_memory]. rewrite (bind_ok _ _ _ _ _ (nothing_left_pass w x prefix N)).
  apply for_same. intros [name child] I.
  destruct (is_ child x) eqn:Is; [done|].
  assert (child ∈ nodes x) as Ic by (by eapply (named_modules_from_ok x ∅ [])).
  apply IH.
  - by apply (unshared_node w x).
  - destruct (nodes_height _ _ Ic) as [->|Lt]; [|lia].
    unfold is_ in Is. by rewrite bool_decide_eq_true_2 in Is.
  - intros pname Ip. rewrite <- !app_assoc. apply N.
    by apply (child_names w x name child pname).
Qed.

(** X12: on a tree in which no module and no parameter is registered
    twice, the nested calls of [load] find no key left in the dict:
    [load_state_dict_low_memory] has the outcome and the effect of the
    one call of [_load_from_state_dict_low_memory] for the root with the
    empty prefix, once the recursion limit allows as many nested calls as
    the tree is high. *)
Theorem load_state_dict_low_memory_at_root (fuel : nat) (self : pymodule) (w : world) :
  unshared w self -> NoDup (mapping w).*1 -> height self <= fuel ->
  load_state_dict_low_memory fuel self w = _load_from_state_dict_low_memory self [] w.
Proof.
  intros U ND Hh. unfold load_state_dict_low_memory.
  destruct fuel as [|fuel]; [pose proof (height_pos self); lia|].
  cbn [load_low_memory]. unfold bind at 1.
  destruct (_load_from_state_dict_low_memory self [] w) as [[[]|e] w1] eqn:R; [|done].
  pose proof (load_from_low_memory_loads self self [] (nodes_self self) w) as W.
  rewrite R in W. cbn [snd] in W. pose proof (wo_slots _ _ _ W) as Es.
  destruct (eager_load_partial_coverage self [] w w1 ND R) as [Keys _].
  assert (unshared w1 self) as U1.
  { destruct U as (Ni & Np & Nn). split; [done|]. split; [|done].
    unfold params_of. by rewrite Es. }
  assert (nothing_left w1 self []) as N.
  { intros name I. rewrite (named_members_slots w w1) in I by done.
    rewrite Keys, decide_True; [done|].
    apply dict_of_items_keys in I. apply list_elem_of_fmap in I as ([name' r] & -> & I).
    apply list_elem_of_fmap. by exists (name', r). }
  apply for_same. intros [name child] I.
  destruct (is_ child self) eqn:Is; [done|].
  assert (child ∈ nodes self) as Ic by (by eapply (named_modules_from_ok self ∅ [])).
  apply nothing_left_load.
  - by apply (unshared_node w1 self).
  - destruct (nodes_height _ _ Ic) as [->|Lt]; [|lia].
    unfold is_ in Is. by rewrite bool_decide_eq_true_2 in Is.
  - intros pname Ip. rewrite <- !app_assoc. apply (N (name ++ [Chr.dot] ++ pname)).
    by apply (child_names w1 self name child pname).
Qed.

End EagerTree.


(** ** load_state_dict_dir *)

Section DirLoadMore.
Context `{Unicode} `{Posix} `{Torch}.

(** X13: the manifest is read from the directory as given, before
    anything else.  When it is missing, [load_state_dict_dir] raises
    [FileNotFoundError]; when it holds the bytes of a tensor file,
    [UnicodeDecodeError]; when it holds text that is no JSON document,
    [JSONDecodeError].  In each case that one path has been opened and
    nothing is annotated, also when the recursion limit allows no call at
    all. *)
Theorem load_state_dict_dir_without_manifest (fuel : nat) (self : pymodule)
    (state_dict_dir : pystr) (w : world) :
  let path := path_join state_dict_dir _KEY_TO_FILENAME_JSON in
  (forall j, fs w !! path <> Some (JsonFile j)) ->
  load_state_dict_dir fuel self state_dict_dir w =
  (Raise (match fs w !! path with
          | None => FileNotFoundError
          | Some (TensorFile _) => UnicodeDecodeError
          | Some _ => JSONDecodeError
          end),
   with_opened (path :: opened w) w).
Proof.
  intros path N. unfold load_state_dict_dir, open_read, json_load. fold path.
  unfold bind, modify, get, lift_opt, ret, raise. cbn [fs with_opened].
  destruct (fs w !! path) as [[t|j|]|] eqn:E; try done. by destruct (N j).
Qed.

Lemma load_entry_dir_string s state_dict_dir prefix entry w :
  (load_entry_dir (JStr s) state_dict_dir prefix entry w).2 = w.
Proof.
  unfold load_entry_dir, py_contains, py_getitem. run.
  by destruct (str_contains _ _).
Qed.

Lemma for_noop {A} (l : list A) (body : A -> M unit) w :
  (forall x, x ∈ l -> forall w, (body x w).2 = w) -> (for_ l body w).2 = w.
Proof.
  induction l as [|a l IH]; intros N; [done|]. cbn [for_]. unfold bind.
  pose proof (N a ltac:(apply elem_of_cons; by left) w) as Na.
  destruct (body a w) as [[[]|e] w1]; simpl in *; subst; [|done].
  apply IH. intros x I. apply N. apply elem_of_cons; by right.
Qed.

Lemma load_from_dir_string x s state_dict_dir prefix w :
  (_load_from_state_dict_dir x (JStr s) state_dict_dir prefix w).2 = w.
Proof.
  unfold _load_from_state_dict_dir, named_parameters.
  unfold bind at 1, bind at 1, get at 1, ret at 1.
  apply for_noop. intros e _ w1. apply load_entry_dir_string.
Qed.

(** A nested call of [load] holds a string where the manifest belongs: it
    annotates nothing, whether it returns or raises. *)
Lemma load_dir_string fuel state_dict_dir x s prefix w :
  (load_dir fuel state_dict_dir x (JStr s) prefix w).2 = w.
Proof.
  revert x s prefix w. induction fuel as [|fuel IH]; intros x s prefix w; [done|].
  cbn [load_dir]. unfold bind at 1.
  pose proof (load_from_dir_string x s state_dict_dir prefix w) as R.
  destruct (_load_from_state_dict_dir _ _ _ _ w) as [[[]|e] w1]; simpl in R; subst; [|done].
  apply for_noop. intros [name child] _ w1.
  destruct (is_ child x); [done|apply IH].
Qed.

(** X14: the nested calls of the local [load] never annotate a
    parameter.  Whatever the outcome, [load_state_dict_dir] leaves the
    world as the one call of [_load_from_state_dict_dir] for the root
    leaves it, with the parsed manifest, the real path of the directory
    and the empty prefix. *)
Theorem load_state_dict_dir_annotates_at_root (fuel : nat) (self : pymodule)
    (state_dict_dir : pystr) (key_to_filename : json) (w : world) :
  0 < fuel ->
  fs w !! path_join state_dict_dir _KEY_TO_FILENAME_JSON = Some (JsonFile key_to_filename) ->
  (load_state_dict_dir fuel self state_dict_dir w).2 =
  (_load_from_state_dict_dir self key_to_filename (realpath state_dict_dir) []
     (with_opened (path_join state_dict_dir _KEY_TO_FILENAME_JSON :: opened w) w)).2.
Proof.
  intros L F. destruct fuel as [|fuel]; [lia|].
  unfold load_state_dict_dir. rewrite (bind_ok _ _ _ _ _ (open_read_ok _ _ _ F)).
  unfold json_load. unfold bind at 1, ret at 1. cbn [load_dir]. unfold bind at 1.
  destruct (_load_from_state_dict_dir _ _ _ _ _) as [[[]|e] w1]; [|done].
  cbn [snd]. apply for_noop. intros [name child] _ w2.
  destruct (is_ child self); [done|apply load_dir_string].
Qed.

Lemma load_entries_dir_string_quiet (entries : dict nat) s state_dict_dir w :
  Forall (fun name => str_contains name s = false) entries.*1 ->
  for_ entries (load_entry_dir (JStr s) state_dict_dir []) w = (Ok tt, w).
Proof.
  induction entries as [|[name r] entries IH]; intros F; [done|].
  rewrite fmap_cons in F. apply Forall_cons in F as [E F]. cbn [for_].
  assert (load_entry_dir (JStr s) state_dict_dir [] (name, r) w = (Ok tt, w)) as R.
  { unfold load_entry_dir, py_contains. run. by rewrite E. }
  rewrite (bind_ok _ _ _ _ _ R). by apply IH.
Qed.

Lemma load_dir_quiet self w0 fuel state_dict_dir x s w :
  quiet w0 self -> slots w = slots w0 -> x ∈ nodes self -> height x <= fuel ->
  Forall (fun name => str_contains name s = false)
    (dict_of_items (named_members w0 (named_modules x) ∅)).*1 ->
  load_dir fuel state_dict_dir x (JStr s) [] w = (Ok tt, w).
Proof.
  intros Q E. revert x s. induction fuel as [|fuel IH]; intros x s Ix Hh F.
  { pose proof (height_pos x). lia. }
  cbn [load_dir].
  assert (_load_from_state_dict_dir x (JStr s) state_dict_dir [] w = (Ok tt, w)) as R.
  { unfold _load_from_state_dict_dir, named_parameters.
    unfold bind at 1, bind at 1, get at 1, ret at 1.
    rewrite (named_members_slots w0 w) by done. by apply load_entries_dir_string_quiet. }
  rewrite (bind_ok _ _ _ _ _ R).
  pose proof (proj1 (Forall_forall _ _) Q x Ix) as Qx. cbv beta in Qx.
  rewrite Forall_forall in Qx.
  generalize (fun nc => Qx nc). clear Qx.
  generalize (fun n c => proj1 (named_modules_from_ok x ∅ []) n c).
  fold (named_modules x). cbv zeta.
  generalize (named_modules x). intros L. induction L as [|[name child] L IHL]; intros Sub Qx; [done|].
  cbn [for_].
  assert ((if is_ child x then ret tt
           else load_dir fuel state_dict_dir child (JStr ([] ++ name ++ [Chr.dot])) []) w
          = (Ok tt, w)) as Rb.
  { destruct (is_ child x) eqn:Is; [done|].
    assert (child ∈ nodes x) as Ic by (apply (Sub name); apply elem_of_cons; by left).
    apply IH.
    - by apply (nodes_trans self x).
    - destruct (nodes_height _ _ Ic) as [->|Lt]; [|lia].
      unfold is_ in Is. by rewrite bool_decide_eq_true_2 in Is.
    - apply (Qx (name, child)); [apply elem_of_cons; by left|done]. }
  rewrite (bind_ok _ _ _ _ _ Rb). apply IHL.
  - intros n c I. apply (Sub n). apply elem_of_cons; by right.
  - intros nc I. apply Qx. apply elem_of_cons; by right.
Qed.

Lemma load_entries_dir_annotate (d : dict json) state_dict_dir prefix
    (entries : dict nat) (w : world) :
  (forall k v, dict_get k d = Some v -> exists s, v = JStr s) ->
  NoDup entries.*2 ->
  exists w',
    for_ entries (load_entry_dir (JObj d) state_dict_dir prefix) w = (Ok tt, w') /\
    (fs w' = fs w /\ slots w' = slots w /\ opened w' = opened w /\
     next_obj w' = next_obj w) /\
    (forall q, q ∉ entries.*2 -> objs w' !! q = objs w !! q) /\
    forall name param, (name, param) ∈ entries ->
      match dict_get (prefix ++ name) d with
      | None => objs w' !! param = objs w !! param
      | Some v =>
          exists s, v = JStr s /\
            objs w' !! param
            = Some (Param (data (obj w param)) (Some (path_join state_dict_dir s)))
      end.
Proof.
  intros Str. revert w. induction entries as [|[name param] entries IH]; intros w ND.
  - exists w. split; [done|]. split; [done|]. split; [done|].
    intros name param I. by apply elem_of_nil in I.
  - rewrite fmap_cons in ND. apply NoDup_cons in ND as [NI ND]. cbn [snd] in NI.
    cbn [for_].
    rewrite (bind_ok _ _ _ _ _ (load_entry_dir_run d state_dict_dir prefix name param w Str)).
    set (w1 := match dict_get (prefix ++ name) d with Some (JStr _) => _ | _ => w end).
    assert (forall q, q <> param -> objs w1 !! q = objs w !! q) as Frame.
    { intros q N. subst w1. destruct (dict_get (prefix ++ name) d) as [[]|]; try done.
      simpl. by apply lookup_insert_ne. }
    assert (fs w1 = fs w /\ slots w1 = slots w /\ opened w1 = opened w /\
            next_obj w1 = next_obj w) as (Ef & Es & Eo & En).
    { subst w1. by destruct (dict_get (prefix ++ name) d) as [[]|]. }
    destruct (IH w1 ND) as (w' & R & (Ef' & Es' & Eo' & En') & Out & P).
    exists w'. split; [done|]. split; [repeat split; congruence|]. split.
    + intros q Nq. rewrite fmap_cons in Nq. apply not_elem_of_cons in Nq as [Nq Nq'].
      rewrite Out by done. by apply Frame.
    + intros name' param' I. apply elem_of_cons in I as [[= -> ->]|I].
      * rewrite Out by done. subst w1.
        destruct (dict_get (prefix ++ name) d) as [v|] eqn:G; [|done].
        destruct (Str _ _ G) as [s ->]. exists s. split; [done|].
        simpl. by rewrite lookup_insert_eq.
      * assert (param' <> param) as N.
        { intros ->. apply NI. apply list_elem_of_fmap. by exists (name', param). }
        specialize (P name' param' I). unfold obj in *. rewrite (Frame _ N) in P.
        by destruct (dict_get (prefix ++ name') d).
Qed.

Lemma load_state_dict_dir_quiet_run (fuel : nat) (self : pymodule)
    (state_dict_dir : pystr) (d : dict json) (w : world) :
  fs w !! path_join state_dict_dir _KEY_TO_FILENAME_JSON = Some (JsonFile (JObj d)) ->
  (forall k v, dict_get k d = Some v -> exists s, v = JStr s) ->
  quiet w self -> height self <= fuel ->
  exists w',
    load_state_dict_dir fuel self state_dict_dir w = (Ok tt, w') /\
    (fs w' = fs w /\ slots w' = slots w /\
     opened w' = path_join state_dict_dir _KEY_TO_FILENAME_JSON :: opened w /\
     next_obj w' = next_obj w) /\
    (forall q, q ∉ (dict_of_items (named_members w (named_modules self) ∅)).*2 ->
       objs w' !! q = objs w !! q) /\
    forall name param,
      (name, param) ∈ dict_of_items (named_members w (named_modules self) ∅) ->
      match dict_get name d with
      | None => objs w' !! param = objs w !! param
      | Some v =>
          exists s, v = JStr s /\
            objs w' !! param
            = Some (Param (data (obj w param)) (Some (path_join (realpath state_dict_dir) s)))
      end.
Proof.
  intros F Str Q Hh. destruct fuel as [|fuel]; [pose proof (height_pos self); lia|].
  unfold load_state_dict_dir. rewrite (bind_ok _ _ _ _ _ (open_read_ok _ _ _ F)).
  unfold json_load. unfold bind at 1, ret at 1. cbn [load_dir].
  set (w0 := with_opened _ w).
  destruct (load_entries_dir_annotate d (realpath state_dict_dir) []
              (dict_of_items (named_members w (named_modules self) ∅)) w0 Str)
    as (w1 & R & (Ef & Es & Eo & En) & Out & P).
  { apply dict_of_items_NoDup, named_members_NoDup. }
  assert (_load_from_state_dict_dir self (JObj d) (realpath state_dict_dir) [] w0
          = (Ok tt, w1)) as R'.
  { unfold _load_from_state_dict_dir, named_parameters.
    unfold bind at 1, bind at 1, get at 1, ret at 1.
    by rewrite (named_members_slots w w0). }
  rewrite (bind_ok _ _ _ _ _ R'). exists w1.
  split; [|split; [done|split; [done|exact P]]].
  pose proof (proj1 (Forall_forall _ _) Q self (nodes_self self)) as Qx. cbv beta in Qx.
  rewrite Forall_forall in Qx.
  generalize (fun nc => Qx nc). clear Qx.
  generalize (fun n c => proj1 (named_modules_from_ok self ∅ []) n c).
  fold (named_modules self). cbv zeta.
  generalize (named_modules self).
  intros L. induction L as [|[name child] L IHL]; intros Sub Qx; [done|].
  cbn [for_].
  assert ((if is_ child self then ret tt
           else load_dir fuel (realpath state_dict_dir) child
                  (JStr ([] ++ name ++ [Chr.dot])) []) w1
          = (Ok tt, w1)) as Rb.
  { destruct (is_ child self) eqn:Is; [done|].
    assert (child ∈ nodes self) as Ic by (apply (Sub name); apply elem_of_cons; by left).
    apply (load_dir_quiet self w); [done|done|done| |].
    - destruct (nodes_height _ _ Ic) as [->|Lt]; [|lia].
      unfold is_ in Is. by rewrite bool_decide_eq_true_2 in Is.
    - apply (Qx (name, child)); [apply elem_of_cons; by left|done]. }
  rewrite (bind_ok _ _ _ _ _ Rb). apply IHL.
  - intros n c I. apply (Sub n). apply elem_of_cons; by right.
  - intros nc I. apply Qx. apply elem_of_cons; by right.
Qed.

(** X15: on a tree where no nested call mistakes a parameter name for
    part of the string it was handed, [load_state_dict_dir] returns once
    the recursion limit allows as many nested calls as the tree is high;
    every parameter of the tree whose qualified name the manifest has is
    then deferred to its file under the real path of the directory, its
    data untouched, and every other parameter is as it was. *)
Theorem load_state_dict_dir_on_quiet_tree (fuel : nat) (self : pymodule)
    (state_dict_dir : pystr) (d : dict json) (w : world) :
  fs w !! path_join state_dict_dir _KEY_TO_FILENAME_JSON = Some (JsonFile (JObj d)) ->
  (forall k v, dict_get k d = Some v -> exists s, v = JStr s) ->
  quiet w self -> height self <= fuel ->
  exists w',
    load_state_dict_dir fuel self state_dict_dir w = (Ok tt, w') /\
    forall name param,
      (name, param) ∈ dict_of_items (named_members w (named_modules self) ∅) ->
      match dict_get name d with
      | None => objs w' !! param = objs w !! param
      | Some v =>
          exists s, v = JStr s /\
            objs w' !! param
            = Some (Param (data (obj w param)) (Some (path_join (realpath state_dict_dir) s)))
      end.
Proof.
  intros F Str Q Hh.
  destruct (load_state_dict_dir_quiet_run fuel self state_dict_dir d w F Str Q Hh)
    as (w' & R & _ & _ & P).
  by exists w'.
Qed.

End DirLoadMore.

(** ** From save_split to materialize *)

Section Pipeline.
Context `{Unicode} `{Posix} `{Torch}.

Lemma dict_get_fmap {V W} (f : V -> W) (k : pystr) (d : dict V) :
  dict_get k (map (fun kv : pystr * V => (kv.1, f kv.2)) d) = f <$> dict_get k d.
Proof. induction d as [|[k' v] d IH]; simpl; [done|]. by destruct (decide (k' = k)). Qed.

Lemma quiet_slots w w' self : slots w' = slots w -> quiet w self -> quiet w' self.
Proof.
  intros E Q. unfold quiet in *. eapply Forall_impl; [exact Q|]. intros x Qx. cbv beta in *.
  eapply Forall_impl; [exact Qx|]. intros nc Qn Is. cbv beta in *.
  rewrite (named_members_slots w w') by done. by apply Qn.
Qed.

Lemma saved_world (state_dict : dict tensor) save_dir w :
  NoDup state_dict.*1 -> Forall usable state_dict.*1 ->
  exists w1,
    save_split state_dict save_dir w = (Ok tt, w1) /\
    slots w1 = slots w /\ objs w1 = objs w /\
    fs w1 !! path_join save_dir _KEY_TO_FILENAME_JSON
      = Some (JsonFile (json_dump (manifest_from 0 state_dict.*1))) /\
    forall idx key t, state_dict !! idx = Some (key, t) ->
      fs w1 !! path_join save_dir (file_name idx (sanitized_spec key)) = Some (TensorFile t).
Proof.
  intros ND U. eexists. rewrite save_split_unfold by done.
  split; [done|]. split; [done|]. split; [done|]. cbn [fs with_fs]. split.
  - rewrite written_lookup_ne; [by rewrite lookup_insert_eq|].
    intros kt I E. apply list_elem_of_lookup in I as [j L].
    rewrite (saved_name _ j) in E by done. simpl in E.
    apply path_join_inj in E; [|apply file_name_relative|apply manifest_relative].
    by apply file_name_not_manifest in E.
  - intros idx key t L.
    pose proof (written_lookup save_dir (manifest_from 0 state_dict.*1) state_dict
      (<[path_join save_dir _KEY_TO_FILENAME_JSON :=
           JsonFile (json_dump (manifest_from 0 state_dict.*1))]> (fs w)) idx (key, t)
      (saved_paths_NoDup save_dir state_dict ND) L) as W.
    by rewrite (saved_name _ idx) in W by done.
Qed.

Lemma manifest_get (state_dict : dict tensor) name :
  NoDup state_dict.*1 ->
  match dict_get name state_dict with
  | Some t =>
      exists idx, state_dict !! idx = Some (name, t) /\
        dict_get name (manifest_from 0 state_dict.*1)
        = Some (file_name idx (sanitized_spec name))
  | None => dict_get name (manifest_from 0 state_dict.*1) = None
  end.
Proof.
  intros ND. destruct (dict_get name state_dict) as [t|] eqn:G.
  - apply dict_get_Some_elem in G. apply list_elem_of_lookup in G as [idx L].
    exists idx. split; [done|]. by apply (saved_name state_dict idx (name, t)).
  - apply dict_get_None. rewrite manifest_from_keys. by apply dict_get_None.
Qed.

Lemma one_name {V} (l : dict V) (a b : pystr) (r : V) :
  NoDup l.*2 -> (a, r) ∈ l -> (b, r) ∈ l -> a = b.
Proof.
  intros ND Ia Ib. apply list_elem_of_lookup in Ia as [i Li], Ib as [j Lj].
  assert (i = j) as ->.
  { apply (NoDup_lookup _ i j r ND); by rewrite list_lookup_fmap, ?Li, ?Lj. }
  congruence.
Qed.

Lemma roundtrip_run (state_dict : dict tensor) (save_dir : pystr)
    (self : pymodule) (fuel : nat) (w : world) :
  NoDup state_dict.*1 -> Forall usable state_dict.*1 ->
  realpath save_dir = save_dir ->
  (forall idx key, state_dict.*1 !! idx = Some key ->
     endswith empty_json_suffix (path_join save_dir (file_name idx (sanitized_spec key)))
     = false) ->
  quiet w self -> height self <= fuel ->
  (forall r, r ∈ tree_parameters w self -> _file_path (obj w r) = None) ->
  (forall name param t,
     (name, param) ∈ dict_of_items (named_members w (named_modules self) ∅) ->
     dict_get name state_dict = Some t ->
     match data (obj w param) with None => True | Some dst => shape dst = shape t end) ->
  exists w',
    (save_split state_dict save_dir ;;;
     load_state_dict_dir fuel self save_dir ;;;
     materialize self) w = (Ok tt, w') /\
    forall name param,
      (name, param) ∈ dict_of_items (named_members w (named_modules self) ∅) ->
      match dict_get name state_dict with
      | Some t =>
          exists x, copy_ (default (empty (shape t)) (data (obj w param))) t = Some x /\
            data (obj w' param) = Some x
      | None => objs w' !! param = objs w !! param
      end.
Proof.
  intros ND U Real NE Q Hh Fresh Shapes.
  destruct (saved_world state_dict save_dir w ND U) as (w1 & S1 & Es1 & Eo1 & LM & LF).
  unfold json_dump in LM.
  set (d := map (fun kv : pystr * pystr => (kv.1, JStr kv.2))
              (manifest_from 0 state_dict.*1)) in *.
  assert (forall k v, dict_get k d = Some v -> exists s, v = JStr s) as Str.
  { intros k v G. subst d. rewrite dict_get_fmap in G.
    destruct (dict_get k _); [|done]. injection G as <-. eauto. }
  destruct (load_state_dict_dir_quiet_run fuel self save_dir d w1 LM Str
              (quiet_slots _ _ _ Es1 Q) Hh) as (w2 & S2 & (Ef2 & Es2 & _ & _) & Out2 & P2).
  rewrite Real in P2. rewrite (named_members_slots w w1) in Out2, P2 by done.
  set (local_state := dict_of_items (named_members w (named_modules self) ∅)) in *.
  assert (NoDup local_state.*2) as NDl by apply dict_of_items_NoDup, named_members_NoDup.
  assert (forall q, obj w1 q = obj w q) as Eobj1 by (intros q; unfold obj; by rewrite Eo1).
  assert (tree_parameters w2 self = tree_parameters w self) as Tree2.
  { unfold tree_parameters. rewrite (named_members_slots w w2); [done|congruence]. }
  assert (forall r,
    (objs w2 !! r = objs w !! r /\
     forall name, (name, r) ∈ local_state -> dict_get name state_dict = None) \/
    (exists name t idx, (name, r) ∈ local_state /\ state_dict !! idx = Some (name, t) /\
       dict_get name state_dict = Some t /\
       objs w2 !! r = Some (Param (data (obj w r))
         (Some (path_join save_dir (file_name idx (sanitized_spec name))))))) as State2.
  { intros r. destruct (decide (r ∈ local_state.*2)) as [I|N].
    - apply list_elem_of_fmap in I as ([name r'] & -> & I). cbn [snd].
      specialize (P2 name r' I). cbn [app] in P2.
      pose proof (manifest_get state_dict name ND) as G.
      destruct (dict_get name state_dict) as [t|] eqn:Gs.
      + destruct G as (idx & L & Gm). right. exists name, t, idx.
        split; [done|]. split; [done|]. split; [done|].
        subst d. rewrite dict_get_fmap, Gm in P2. cbn [fmap option_fmap option_map] in P2.
        destruct P2 as (s & [= <-] & O). by rewrite O, Eobj1.
      + left. subst d. rewrite dict_get_fmap, G in P2.
        cbn [fmap option_fmap option_map] in P2. split; [by rewrite P2, Eo1|].
        intros name' I'. by rewrite (one_name local_state name' name r' NDl I' I).
    - left. split; [by rewrite Out2, Eo1|].
      intros name I. destruct N. apply list_elem_of_fmap. by exists (name, r). }
  destruct (materialize_loop_resolves (tree_parameters w2 self) w2
              (tree_parameters_NoDup w2 self)) as (w3 & R3 & _ & _ & Out3 & Post3).
  { intros r I. rewrite Tree2 in I. unfold ready, obj.
    destruct (State2 r) as [[O _]|(name & t & idx & In & L & G & O)]; rewrite O.
    - fold (obj w r). by rewrite Fresh.
    - cbn [default _file_path data]. split.
      + apply NE. by rewrite list_lookup_fmap, L.
      + exists t. split; [rewrite Ef2; by apply LF|]. by apply (Shapes name r t). }
  exists w3. split.
  { rewrite (bind_ok _ _ _ _ _ S1), (bind_ok _ _ _ _ _ S2). unfold materialize.
    by rewrite (bind_ok _ _ _ _ _ (parameters_run self w2)). }
  intros name param I.
  assert (param ∈ tree_parameters w2 self) as It.
  { rewrite Tree2. apply dict_of_items_from; [apply named_members_NoDup|].
    apply list_elem_of_fmap. by exists (name, param). }
  specialize (Post3 param It). unfold resolved, obj in Post3 |- *.
  destruct (State2 param) as [[O N]|(name' & t & idx & In & L & G & O)].
  - rewrite (N name I). rewrite O in Post3. fold (obj w param) in Post3.
    rewrite (Fresh param) in Post3 by (by rewrite <- Tree2). by rewrite Post3.
  - rewrite (one_name local_state name name' param NDl I In), G.
    rewrite O in Post3. cbn [default _file_path data] in Post3.
    destruct Post3 as (t' & F' & O3 & [x X]).
    rewrite Ef2, (LF idx name' t L) in F'. injection F' as <-.
    cbn [data] in X. exists x. split; [done|]. rewrite O3. cbn [default data]. done.
Qed.

(** X16: the round trip through the directory.  [save_split] of a dict
    whose keys all sanitize, then [load_state_dict_dir] from the same
    directory on a model none of whose parameters is deferred yet, then
    [materialize]: the three calls return, every parameter of the tree
    whose qualified name is a key of the dict holds the copy of the tensor
    saved under that key (into storage of the tensor's shape when the
    parameter was a placeholder), and every other parameter is as it was.
    The directory is named by its real path, no tensor file gets a name
    ending in [.empty_json], and the parameters that have data have the
    shape of what is loaded into them. *)
Theorem save_load_materialize_roundtrip (state_dict : dict tensor) (save_dir : pystr)
    (self : pymodule) (fuel : nat) (w : world) :
  NoDup state_dict.*1 -> Forall usable state_dict.*1 ->
  realpath save_dir = save_dir ->
  (forall idx key, state_dict.*1 !! idx = Some key ->
     endswith empty_json_suffix (path_join save_dir (file_name idx (sanitized_spec key)))
     = false) ->
  quiet w self -> height self <= fuel ->
  (forall r, r ∈ tree_parameters w self -> _file_path (obj w r) = None) ->
  (forall name param t,
     (name, param) ∈ dict_of_items (named_members w (named_modules self) ∅) ->
     dict_get name state_dict = Some t ->
     match data (obj w param) with None => True | Some dst => shape dst = shape t end) ->
  exists w',
    (save_split state_dict save_dir ;;;
     load_state_dict_dir fuel self save_dir ;;;
     materialize self) w = (Ok tt, w') /\
    forall name param,
      (name, param) ∈ dict_of_items (named_members w (named_modules self) ∅) ->
      match dict_get name state_dict with
      | Some t =>
          exists x, copy_ (default (empty (shape t)) (data (obj w param))) t = Some x /\
            data (obj w' param) = Some x
      | None => objs w' !! param = objs w !! param
      end.
Proof. apply roundtrip_run. Qed.

(** C3, as the code has it: the round trip holds through a model that has
    a placeholder for every key, under the conditions the code needs.  A
    dict whose keys all sanitize is saved with [save_split];
    [load_state_dict_dir] from the same directory and [materialize], on a
    model all of whose parameters are placeholders and which has a
    parameter under every key, return, and for every key the parameter of
    that name holds the copy of the tensor saved under it, in storage of
    the tensor's shape.  The conditions: no file name [save_split] assigns
    ends in [.empty_json], no nested call of [load] mistakes a parameter
    name for part of the string it was handed, and the directory is named
    by its real path. *)
Theorem save_split_roundtrip_through_model (state_dict : dict tensor) (save_dir : pystr)
    (self : pymodule) (fuel : nat) (w : world) :
  NoDup state_dict.*1 ->
  (forall key, key ∈ state_dict.*1 -> exists s, sanitize_file_name key = Ok s) ->
  realpath save_dir = save_dir ->
  (forall idx key, state_dict.*1 !! idx = Some key ->
     endswith empty_json_suffix (path_join save_dir (file_name idx (sanitized_spec key)))
     = false) ->
  quiet w self -> height self <= fuel ->
  (forall r, r ∈ tree_parameters w self -> obj w r = uninitialized) ->
  (forall key, key ∈ state_dict.*1 ->
     key ∈ (dict_of_items (named_members w (named_modules self) ∅)).*1) ->
  exists w',
    (save_split state_dict save_dir ;;;
     load_state_dict_dir fuel self save_dir ;;;
     materialize self) w = (Ok tt, w') /\
    forall key t, (key, t) ∈ state_dict ->
      exists param x,
        (key, param) ∈ dict_of_items (named_members w (named_modules self) ∅) /\
        copy_ (empty (shape t)) t = Some x /\
        data (obj w' param) = Some x.
Proof.
  intros ND San Real NE Q Hh Blank All.
  assert (Forall usable state_dict.*1) as U.
  { apply Forall_forall. intros k I. apply usable_sanitize. by apply San. }
  assert (forall name param,
    (name, param) ∈ dict_of_items (named_members w (named_modules self) ∅) ->
    obj w param = uninitialized) as Blank'.
  { intros name param I. apply Blank.
    apply dict_of_items_from; [apply named_members_NoDup|].
    apply list_elem_of_fmap. by exists (name, param). }
  destruct (roundtrip_run state_dict save_dir self fuel w ND U Real NE Q Hh) as (w' & R & P).
  { intros r I. by rewrite (Blank r I). }
  { intros name param t I _. by rewrite (Blank' name param I). }
  exists w'. split; [done|]. intros key t I.
  assert (key ∈ (dict_of_items (named_members w (named_modules self) ∅)).*1) as Ik.
  { apply All. apply list_elem_of_fmap. by exists (key, t). }
  apply list_elem_of_fmap in Ik as ([key' param] & -> & Ip). cbn [fst] in I.
  exists param. specialize (P key' param Ip).
  rewrite (dict_get_elem key' t state_dict ND I) in P.
  rewrite (Blank' key' param Ip) in P. cbn [data default] in P.
  destruct P as (x & C & D). by exists x.
Qed.

End Pipeline.

(** ** Partial coverage *)

Section PartialCoverage.
Context `{Unicode} `{Posix} `{Torch}.

(** Whatever the outcome of the loop, a parameter none of whose keys is in
    the dict is left as it was. *)
Lemma eager_loop_untouched (entries : dict nat) (prefix : pystr) (w w' : world)
    (res : result unit) :
  NoDup (mapping w).*1 ->
  for_ entries (load_entry_low_memory prefix) w = (res, w') ->
  forall q,
    (forall name, (name, q) ∈ entries -> dict_get (prefix ++ name) (mapping w) = None) ->
    objs w' !! q = objs w !! q.
Proof.
  revert w. induction entries as [|[name param] entries IH]; intros w ND R q Abs.
  - by injection R as _ <-.
  - cbn [for_] in R. unfold bind at 1 in R.
    destruct (load_entry_low_memory prefix (name, param) w) as [r1 w1] eqn:S.
    pose proof (keeps_run _ _ _ _ _
      (load_entry_low_memory_keeps (fun q => q = param) prefix (name, param) eq_refl) S) as W.
    assert (objs w1 !! q = objs w !! q) as O1.
    { destruct (decide (q = param)) as [->|N]; [|by apply (wo_objs _ _ _ W)].
      rewrite load_entry_low_memory_absent in S
        by (apply Abs; apply elem_of_cons; by left).
      by injection S as _ <-. }
    destruct r1 as [[]|e]; [|by injection R as _ <-].
    rewrite <- O1. apply (IH w1); [|exact R|].
    + eapply sublist_NoDup; [exact ND|]. apply fmap_sublist, W.
    + intros n I. destruct (dict_get (prefix ++ n) (mapping w1)) as [t|] eqn:G; [|done].
      apply (dict_get_sublist _ _ _ (mapping w)) in G; [|apply W|done].
      rewrite Abs in G; [done|]. apply elem_of_cons; by right.
Qed.

(** C8: both private methods tolerate partial coverage, for every module
    tree and every prefix.  [_load_from_state_dict_dir], given a manifest
    whose values are file names, always returns: a parameter whose key the
    manifest omits is left as it was, a parameter whose key it has is
    deferred to its file.  [_load_from_state_dict_low_memory], whatever its
    outcome, leaves as it was every parameter none of whose keys is in the
    caller's dict; when it returns, the dict has lost exactly the keys of
    the parameters it enumerated, and every other key is still there with
    its tensor. *)
Theorem partial_coverage_is_tolerated (self : pymodule) (prefix : pystr) (w : world) :
  (forall (d : dict json) (state_dict_dir : pystr),
     (forall k v, dict_get k d = Some v -> exists s, v = JStr s) ->
     exists w',
       _load_from_state_dict_dir self (JObj d) state_dict_dir prefix w = (Ok tt, w') /\
       forall name param,
         (name, param) ∈ dict_of_items (named_members w (named_modules self) ∅) ->
         match dict_get (prefix ++ name) d with
         | None => objs w' !! param = objs w !! param
         | Some v =>
             exists s, v = JStr s /\
               objs w' !! param
               = Some (Param (data (obj w param)) (Some (path_join state_dict_dir s)))
         end) /\
  (NoDup (mapping w).*1 ->
   forall (res : result unit) (w' : world),
     _load_from_state_dict_low_memory self prefix w = (res, w') ->
     (forall q,
        (forall name,
           (name, q) ∈ dict_of_items (named_members w (named_modules self) ∅) ->
           dict_get (prefix ++ name) (mapping w) = None) ->
        objs w' !! q = objs w !! q) /\
     (res = Ok tt ->
      forall k, dict_get k (mapping w') =
        if decide (k ∈ map (fun np : pystr * nat => prefix ++ np.1)
                         (dict_of_items (named_members w (named_modules self) ∅)))
        then None else dict_get k (mapping w))).
Proof.
  split.
  - intros d state_dict_dir Str.
    unfold _load_from_state_dict_dir, named_parameters.
    unfold bind at 1, bind at 1, get at 1, ret at 1.
    destruct (load_entries_dir_annotate d state_dict_dir prefix
                (dict_of_items (named_members w (named_modules self) ∅)) w Str)
      as (w' & R & _ & _ & P).
    { apply dict_of_items_NoDup, named_members_NoDup. }
    by exists w'.
  - intros ND res w'. unfold _load_from_state_dict_low_memory, named_parameters.
    unfold bind at 1, bind at 1, get at 1, ret at 1. intros R. split.
    + by apply (eager_loop_untouched _ prefix w w' res).
    + intros ->. by apply eager_loop_partial_coverage.
Qed.

End PartialCoverage.

(** ** materialize and the side files *)

Section SideFiles.
Context `{Unicode} `{Posix} `{Torch}.

(** X17: the suffix of the path alone decides how a deferred source is
    read.  A path ending in [.empty_json] is opened in text mode and
    parsed as JSON: when the file is missing the iteration raises
    [FileNotFoundError], when it holds the bytes of a tensor file
    [UnicodeDecodeError], when it holds text that is no JSON document
    [JSONDecodeError]; the parameter is left as it was. *)
Theorem materialize_param_side_file_unreadable (r : nat) (w : world) (path : pystr) :
  _file_path (obj w r) = Some path ->
  endswith empty_json_suffix path = true ->
  (forall j, fs w !! path <> Some (JsonFile j)) ->
  materialize_param r w =
  (Raise (match fs w !! path with
          | None => FileNotFoundError
          | Some (TensorFile _) => UnicodeDecodeError
          | Some _ => JSONDecodeError
          end),
   with_opened (path :: opened w) w).
Proof.
  intros P E N. unfold materialize_param.
  unfold bind at 1, get_param at 1, bind at 1, get at 1, ret at 1. rewrite P, E.
  unfold from_empty_json, open_read, json_load.
  unfold bind, modify, get, lift_opt, ret, raise. cbn [fs with_opened].
  destruct (fs w !! path) as [[t|j|]|] eqn:F; try done. by destruct (N j).
Qed.

(** X18: a side file that is a JSON object with a number under
    [init_std], a size under [shape] and the name of a dtype under
    [torch_dtype] stands for [init_std * randn(shape)] converted to that
    dtype: the iteration draws once from the generator, opens the side
    file and no other, and copies that tensor into the parameter, into
    storage of its shape when the parameter was a placeholder. *)
Theorem materialize_param_from_side_file (r : nat) (w : world) (path : pystr)
    (d : dict json) (jstd jshape : json) (std : Q) (size : list nat)
    (name : pystr) (dt : dtype) :
  _file_path (obj w r) = Some path ->
  endswith empty_json_suffix path = true ->
  fs w !! path = Some (JsonFile (JObj d)) ->
  dict_get (pystr_of "init_std") d = Some jstd -> as_number jstd = Some std ->
  dict_get (pystr_of "shape") d = Some jshape -> as_size jshape = Some size ->
  dict_get (pystr_of "torch_dtype") d = Some (JStr name) -> torch_dtype name = Some dt ->
  let noise := randn size (gen w) in
  let input_param := to_ (scale std noise.1) dt in
  match data (obj w r) with None => True | Some dst => shape dst = shape input_param end ->
  exists x,
    copy_ (default (empty (shape input_param)) (data (obj w r))) input_param = Some x /\
    materialize_param r w =
    (Ok tt, with_objs (<[r := Param (Some x) (Some path)]> (objs w))
              (with_gen noise.2 (with_opened (path :: opened w) w))).
Proof.
  intros P E F Gstd Nstd Gsh Nsh Gdt Ndt noise input_param Sh.
  pose proof (resolved_has_data w r input_param Sh) as [x X].
  unfold resolved in X. cbn [data] in X. exists x. split; [done|].
  unfold materialize_param.
  unfold bind at 1, get_param at 1, bind at 1, get at 1, ret at 1. rewrite P, E.
  assert (from_empty_json path w
          = (Ok input_param, with_gen noise.2 (with_opened (path :: opened w) w))) as R.
  { unfold from_empty_json. rewrite (bind_ok _ _ _ _ _ (open_read_ok _ _ _ F)).
    unfold json_load, py_getitem.
    unfold bind, ret, lift, lift_opt, get, modify, raise.
    rewrite Gstd, Gsh, Nsh. cbn [gen with_opened with_gen]. fold noise.
    by rewrite Nstd, Gdt, Ndt. }
  rewrite (bind_ok _ _ _ _ _ R). set (w0 := with_gen _ _).
  assert (obj w0 r = obj w r) as O0 by done.
  unfold bind at 1, is_lazy at 1, bind at 1, get_param at 1, bind at 1, get at 1,
    ret at 1, ret at 1.
  rewrite O0. destruct (data (obj w r)) as [dst|] eqn:D; simpl in X.
  - unfold bind at 1, ret at 1.
    rewrite (param_copy__ok r input_param dst x w0); [|by rewrite O0|done].
    by rewrite O0, P.
  - unfold bind at 1, param_materialize at 1, bind at 1, get_param at 1, bind at 1,
      get at 1, ret at 1, set_param at 1, modify at 1.
    set (w1 := with_objs _ w0).
    rewrite (param_copy__ok r input_param (empty (shape input_param)) x w1);
      [|by subst w1; rewrite obj_with_objs_eq|done].
    subst w1. rewrite obj_with_objs_eq. cbn [_file_path]. rewrite O0, P.
    unfold with_objs. cbn [fs dirs slots objs next_obj gen mapping opened].
    by rewrite insert_insert_eq.
Qed.

End SideFiles.

(** ** greedy_search at the edges *)

Section GreedyMore.
Context `{Model}.

(** X19: when the prompt is already [sequence_length] long or longer,
    [greedy_search] returns the prompt whole, not cut to length, after one
    forward pass over it; [eos_token_id] is not looked at, whatever its
    value. *)
Theorem greedy_search_prompt_at_length (input_ids : tensor2 nat) (sequence_length : nat)
    (eos_token_id : Z) (c : cache) :
  sequence_length <= ncols input_ids ->
  greedy_search input_ids sequence_length eos_token_id c =
  (Ok input_ids, (forward input_ids (seq 0 (ncols input_ids)) (reset c)).2).
Proof.
  intros L. unfold greedy_search. cbv zeta.
  by replace (sequence_length - ncols input_ids) with 0 by lia.
Qed.

(** X20: an [eos_token_id] outside the vocabulary, in either direction,
    is found out at the first step: [greedy_search] raises [IndexError]
    after the forward pass over the prompt and returns no token. *)
Theorem greedy_search_eos_out_of_range (vocab : nat) (input_ids : tensor2 nat)
    (sequence_length : nat) (eos_token_id : Z) (c : cache) :
  well_shaped vocab -> ncols input_ids < sequence_length ->
  (eos_token_id < - Z.of_nat vocab \/ Z.of_nat vocab <= eos_token_id)%Z ->
  greedy_search input_ids sequence_length eos_token_id c =
  (Raise IndexError, (forward input_ids (seq 0 (ncols input_ids)) (reset c)).2).
Proof.
  intros W L O. unfold greedy_search. cbv zeta.
  destruct (sequence_length - ncols input_ids) as [|n] eqn:E; [lia|].
  cbn [seq search_loop]. unfold setitem_col.
  destruct (W input_ids (seq 0 (ncols input_ids)) (reset c)) as (V & _ & _). rewrite V.
  unfold index.
  destruct (Z.leb_spec 0 eos_token_id), (Z.ltb_spec eos_token_id (Z.of_nat vocab)),
    (Z.leb_spec (- Z.of_nat vocab) eos_token_id), (Z.ltb_spec eos_token_id 0);
    simpl; try done; lia.
Qed.

Lemma search_loop_negative_eos vocab (eos : Z) steps sc tokens c :
  well_shaped vocab -> ncols sc = vocab -> (- Z.of_nat vocab <= eos < 0)%Z ->
  search_loop eos steps sc tokens c = search_loop (eos + Z.of_nat vocab) steps sc tokens c.
Proof.
  intros W V R. revert sc tokens c V.
  induction steps as [|pos steps IH]; intros sc tokens c V; [done|].
  cbn [search_loop]. unfold setitem_col. rewrite V.
  assert (index vocab eos = index vocab (eos + Z.of_nat vocab)) as ->.
  { unfold index.
    destruct (Z.leb_spec 0 eos), (Z.ltb_spec eos (Z.of_nat vocab)),
      (Z.leb_spec (- Z.of_nat vocab) eos), (Z.ltb_spec eos 0),
      (Z.leb_spec 0 (eos + Z.of_nat vocab)),
      (Z.ltb_spec (eos + Z.of_nat vocab) (Z.of_nat vocab)); simpl; try lia.
    f_equal. lia. }
  destruct (index vocab (eos + Z.of_nat vocab)) as [k|e]; [|done].
  destruct (argmax _) as [max_index|e]; [|done].
  apply IH. apply W.
Qed.

(** X21: a negative [eos_token_id] counts from the end of the
    vocabulary, as Python indices do: with [-vocab <= eos_token_id < 0]
    the search is the search with [eos_token_id + vocab]. *)
Theorem greedy_search_negative_eos (vocab : nat) (input_ids : tensor2 nat)
    (sequence_length : nat) (eos_token_id : Z) (c : cache) :
  well_shaped vocab -> (- Z.of_nat vocab <= eos_token_id < 0)%Z ->
  greedy_search input_ids sequence_length eos_token_id c =
  greedy_search input_ids sequence_length (eos_token_id + Z.of_nat vocab) c.
Proof.
  intros W R. unfold greedy_search. cbv zeta.
  rewrite (search_loop_negative_eos vocab); [done|done| |done]. apply W.
Qed.

Lemma greedy_search_run (vocab eos : nat) (input_ids : tensor2 nat)
    (sequence_length : nat) (c : cache) :
  well_shaped vocab -> eos < vocab ->
  exists cols c',
    greedy_search input_ids sequence_length (Z.of_nat eos) c
    = (Ok (T2 (ncols input_ids + (sequence_length - ncols input_ids))
              (extend (rows input_ids) cols)), c') /\
    length cols = sequence_length - ncols input_ids /\
    generates eos (ncols input_ids)
      (forward input_ids (seq 0 (ncols input_ids)) (reset c)).1
      (forward input_ids (seq 0 (ncols input_ids)) (reset c)).2 cols.
Proof.
  intros W E.
  destruct (W input_ids (seq 0 (ncols input_ids)) (reset c)) as (V & B & Rows).
  destruct (search_loop_spec vocab eos (sequence_length - ncols input_ids) (ncols input_ids)
              (forward input_ids (seq 0 (ncols input_ids)) (reset c)).1 [input_ids]
              (forward input_ids (seq 0 (ncols input_ids)) (reset c)).2 W E V Rows)
    as (cols & c' & R & L & F & G).
  exists cols, c'. split; [|done].
  unfold greedy_search. cbv zeta. rewrite R. cbn [fst snd app].
  rewrite cat_columns, L; [done|].
  eapply Forall_impl; [exact F|]. intros col E'. simpl in E'. by rewrite E', B.
Qed.

Lemma generates_tokens (vocab eos pos : nat) sc c cols :
  well_shaped vocab -> offers_other eos ->
  Forall (fun r => length r = vocab) (rows sc) ->
  Forall (fun r : list score => exists j q, j <> eos /\ r !! j = Some (Fin q)) (rows sc) ->
  generates eos pos sc c cols ->
  Forall (Forall (fun t => t < vocab /\ t <> eos)) cols.
Proof.
  intros W O Len Oth G. induction G as [|pos sc c col cols Fst G IH]; [constructor|].
  constructor.
  - clear IH G. revert Len Oth.
    induction Fst as [|r t rs col (m & Lm & Max & _) Fst IH]; intros Len Oth; [constructor|].
    apply Forall_cons in Len as [Lr Len]. apply Forall_cons in Oth as [(j & q & Nj & Lj) Oth].
    constructor; [|by apply IH]. split.
    + apply lookup_lt_Some in Lm. by rewrite length_insert, Lr in Lm.
    + intros ->. rewrite list_lookup_insert_eq in Lm
        by (apply lookup_lt_Some in Lm; by rewrite length_insert in Lm).
      injection Lm as <-.
      specialize (Max j (Fin q)). rewrite list_lookup_insert_ne in Max by done.
      by specialize (Max Lj).
  - apply IH; [apply W|apply O].
Qed.

(** X22: the end-of-sequence token is never generated by a model that
    always has a finite score for some other token: every token
    [greedy_search] appends is an index into the vocabulary other than
    [eos_token_id]. *)
Theorem greedy_search_never_samples_eos (vocab eos : nat) (input_ids : tensor2 nat)
    (sequence_length : nat) (c : cache) :
  well_shaped vocab -> eos < vocab -> offers_other eos ->
  exists cols c',
    greedy_search input_ids sequence_length (Z.of_nat eos) c
    = (Ok (T2 (ncols input_ids + (sequence_length - ncols input_ids))
              (extend (rows input_ids) cols)), c') /\
    length cols = sequence_length - ncols input_ids /\
    Forall (Forall (fun t => t < vocab /\ t <> eos)) cols.
Proof.
  intros W E O.
  destruct (greedy_search_run vocab eos input_ids sequence_length c W E)
    as (cols & c' & R & L & G).
  exists cols, c'. split; [done|]. split; [done|].
  eapply (generates_tokens vocab eos); [exact W|exact O|apply W|apply O|exact G].
Qed.

End GreedyMore.

Lemma extend_repeat (prompt : list nat) (t k : nat) :
  extend [prompt] (repeat [t] k) = [prompt ++ repeat t k].
Proof.
  revert prompt. induction k as [|k IH]; intros prompt; [by rewrite app_nil_r|].
  unfold extend in *. simpl. rewrite IH. by rewrite <- app_assoc.
Qed.

(** X23: masking the end-of-sequence logit does not keep the token out
    when nothing else is left: with a model all of whose scores are
    [-inf] and token 0 as end of sequence, every generated token is the
    end-of-sequence token. *)
Theorem greedy_search_samples_eos_when_all_masked (n k : nat) (prompt : list nat) :
  @greedy_search (stub (repeat NegInf (S n))) (T2 (length prompt) [prompt])
    (length prompt + k) 0%Z tt
  = (Ok (T2 (length prompt + k) [prompt ++ repeat 0 k]), tt).
Proof.
  pose proof (stub_well_shaped (repeat NegInf (S n))) as W.
  destruct (@greedy_search_run (stub (repeat NegInf (S n))) (length (repeat NegInf (S n))) 0
              (T2 (length prompt) [prompt]) (length prompt + k) tt W) as (cols & [] & R & L & G).
  { simpl. lia. }
  change (Z.of_nat 0) with 0%Z in R. rewrite R. cbn [ncols rows] in *.
  replace (length prompt + k - length prompt) with k in * by lia.
  apply (stub_generates _ 0 0) in G.
  - rewrite L in G. subst cols. by rewrite extend_repeat.
  - exists NegInf. split; [done|]. split.
    + intros j x Lj. destruct j as [|j]; simpl in Lj; [by injection Lj as <-|].
      apply list_elem_of_lookup_2, list_elem_of_In, repeat_spec in Lj. by subst x.
    + intros j x Lt. lia.
Qed.

(** ** The further properties on the examples *)

Section FurtherExamples.
#[local] Existing Instance latin1.
#[local] Existing Instance plain_paths.
#[local] Existing Instance flat_torch.

Lemma sanitize_file_name_alphabet_witness :
  Forall (fun c => in_class c = true) (pystr_of "a_b") /\
  length (pystr_of "a_b") <= length (pystr_of " a b ") /\
  forall idx, Chr.slash ∉ file_name idx (pystr_of "a_b").
Proof. apply (sanitize_file_name_alphabet (pystr_of " a b ")). by vm_compute. Defined.

Lemma latin1_letters_not_space c : isspace c = true -> unicode_isalnum c = false.
Proof.
  unfold isspace, unicode_isalnum, latin1. intros E.
  destruct (N.leb_spec 192 c) as [L|L]; [|done]. cbn [andb].
  destruct (N.leb_spec c 255) as [L'|L']; [|done]. exfalso.
  repeat (apply orb_true_iff in E as [E|E]);
    repeat (apply andb_true_iff in E as [E ?]);
    repeat match goal with
           | A : (_ <=? _)%N = true |- _ => apply N.leb_le in A
           | A : (_ =? _)%N = true |- _ => apply N.eqb_eq in A
           end; lia.
Qed.

Lemma sanitize_file_name_idempotent_witness :
  sanitize_file_name (pystr_of "a_b") = Ok (pystr_of "a_b").
Proof.
  apply (sanitize_file_name_idempotent (pystr_of " a b ")).
  - exact latin1_letters_not_space.
  - by vm_compute.
Defined.

Lemma save_split_writes_only_its_files_witness :
  let w' := (save_split named_tensors ckpt blank_world).2 in
  (forall path,
     path <> path_join ckpt _KEY_TO_FILENAME_JSON ->
     (forall idx key, named_tensors.*1 !! idx = Some key ->
        path <> path_join ckpt (file_name idx (sanitized_spec key))) ->
     fs w' !! path = fs blank_world !! path) /\
  dirs w' = {[ckpt]} ∪ dirs blank_world /\
  objs w' = objs blank_world /\ slots w' = slots blank_world /\
  mapping w' = mapping blank_world.
Proof.
  apply (save_split_writes_only_its_files named_tensors ckpt blank_world).
  - exact named_tensors_keys.
  - by vm_compute.
Defined.

Lemma materialize_without_deferred_source_witness :
  materialize diamond diamond_world = (Ok tt, diamond_world).
Proof.
  apply (materialize_without_deferred_source diamond diamond_world).
  apply Forall_forall. apply (bool_decide_unpack _). by vm_compute.
Defined.

Lemma materialize_resolves_deferred_files_witness :
  exists w',
    materialize linear deferred_world = (Ok tt, w') /\
    opened w' = rev (deferred_paths deferred_world (tree_parameters deferred_world linear))
                  ++ opened deferred_world /\
    (forall q, q ∉ tree_parameters deferred_world linear ->
       objs w' !! q = objs deferred_world !! q) /\
    forall r, r ∈ tree_parameters deferred_world linear ->
      match _file_path (obj deferred_world r) with
      | None => objs w' !! r = objs deferred_world !! r
      | Some path =>
          exists t, fs deferred_world !! path = Some (TensorFile t) /\
            objs w' !! r = Some (resolved deferred_world r t) /\
            is_Some (data (resolved deferred_world r t))
      end.
Proof.
  apply (materialize_resolves_deferred_files linear deferred_world).
  intros r I. change (tree_parameters deferred_world linear) with [0] in I.
  apply list_elem_of_singleton in I as ->.
  split; [by vm_compute|]. exists vec2. split; [by vm_compute|done].
Defined.

Lemma materialize_after_nullify_witness :
  exists w',
    nullify 3 diamond diamond_world = (Ok tt, w') /\
    materialize diamond w' = (Ok tt, w').
Proof.
  apply (materialize_after_nullify 3 diamond diamond_world).
  - exact diamond_world_wf.
  - exact diamond_world_untied.
  - exact diamond_consistent.
  - simpl. lia.
Defined.

Lemma load_state_dict_dir_without_manifest_witness :
  load_state_dict_dir 0 linear ckpt binary_manifest_world =
  (Raise UnicodeDecodeError,
   with_opened (path_join ckpt _KEY_TO_FILENAME_JSON :: opened binary_manifest_world)
     binary_manifest_world).
Proof.
  apply (load_state_dict_dir_without_manifest 0 linear ckpt binary_manifest_world).
  intros j. by vm_compute.
Defined.

Lemma load_state_dict_dir_annotates_at_root_witness :
  (load_state_dict_dir 5 net ckpt net_world).2 =
  (_load_from_state_dict_dir net
     (JObj [(pystr_of "weights.weight", JStr (pystr_of "p0.weights.weight"))])
     (realpath ckpt) []
     (with_opened (path_join ckpt _KEY_TO_FILENAME_JSON :: opened net_world) net_world)).2.
Proof.
  apply (load_state_dict_dir_annotates_at_root 5 net ckpt).
  - lia.
  - by vm_compute.
Defined.

Lemma mlp_quiet : quiet mlp_fresh mlp.
Proof. apply (bool_decide_unpack _). by vm_compute. Qed.

Lemma load_state_dict_dir_on_quiet_tree_witness :
  exists w',
    load_state_dict_dir 2 mlp ckpt mlp_world = (Ok tt, w') /\
    forall name param,
      (name, param) ∈ dict_of_items (named_members mlp_world (named_modules mlp) ∅) ->
      match dict_get name [(pystr_of "linear.weight", JStr (pystr_of "p0.linear.weight"))] with
      | None => objs w' !! param = objs mlp_world !! param
      | Some v =>
          exists s, v = JStr s /\
            objs w' !! param
            = Some (Param (data (obj mlp_world param)) (Some (path_join (realpath ckpt) s)))
      end.
Proof.
  apply (load_state_dict_dir_on_quiet_tree 2 mlp ckpt).
  - by vm_compute.
  - intros k v G. simpl in G. destruct (decide _); [|done]. injection G as <-. eauto.
  - apply (quiet_slots mlp_fresh); [done|exact mlp_quiet].
  - simpl. lia.
Defined.

Lemma save_load_materialize_roundtrip_witness :
  exists w',
    (save_split mlp_tensors ckpt ;;;
     load_state_dict_dir 2 mlp ckpt ;;;
     materialize mlp) mlp_fresh = (Ok tt, w') /\
    forall name param,
      (name, param) ∈ dict_of_items (named_members mlp_fresh (named_modules mlp) ∅) ->
      match dict_get name mlp_tensors with
      | Some t =>
          exists x,
            copy_ (default (empty (shape t)) (data (obj mlp_fresh param))) t = Some x /\
            data (obj w' param) = Some x
      | None => objs w' !! param = objs mlp_fresh !! param
      end.
Proof.
  apply (save_load_materialize_roundtrip mlp_tensors ckpt mlp 2 mlp_fresh).
  - apply (bool_decide_unpack _). by vm_compute.
  - repeat constructor.
  - reflexivity.
  - intros [|[|idx]] key L; simpl in L; [injection L as <-..|done]; by vm_compute.
  - exact mlp_quiet.
  - simpl. lia.
  - apply Forall_forall. apply (bool_decide_unpack _). by vm_compute.
  - intros name param t I.
    change (dict_of_items (named_members mlp_fresh (named_modules mlp) ∅))
      with [(pystr_of "scale", 0); (pystr_of "linear.weight", 1)] in I.
    repeat (apply elem_of_cons in I as [[= -> ->]|I]); [..|by apply elem_of_nil in I];
      intros G; vm_compute in G; injection G as <-; done.
Defined.

Lemma materialize_param_side_file_unreadable_witness :
  materialize_param 0 misnamed_world =
  (Raise UnicodeDecodeError,
   with_opened (pystr_of "/ckpt/p0.w.empty_json" :: opened misnamed_world) misnamed_world).
Proof.
  apply (materialize_param_side_file_unreadable 0 misnamed_world
           (pystr_of "/ckpt/p0.w.empty_json")).
  - by vm_compute.
  - by vm_compute.
  - intros j. by vm_compute.
Defined.

Lemma materialize_param_from_side_file_witness :
  exists x,
    copy_ (default (empty [2]) (data (obj spec_world 0))) ([2], [0%Z]) = Some x /\
    materialize_param 0 spec_world =
    (Ok tt, with_objs (<[0 := Param (Some x) (Some (pystr_of "/ckpt/p0.weight.empty_json"))]>
                         (objs spec_world))
              (with_gen 1 (with_opened (pystr_of "/ckpt/p0.weight.empty_json"
                                          :: opened spec_world) spec_world))).
Proof.
  apply (materialize_param_from_side_file 0 spec_world (pystr_of "/ckpt/p0.weight.empty_json")
           [(pystr_of "torch_dtype", JStr (pystr_of "float32"));
            (pystr_of "shape", JArr [JInt 2]); (pystr_of "init_std", JReal 1)]
           (JReal 1) (JArr [JInt 2]) 1%Q [2] (pystr_of "float32") tt);
    by vm_compute.
Defined.

Lemma greedy_search_prompt_at_length_witness :
  @greedy_search (stub peak_at_5) (T2 2 [[7; 8]]) 1 99%Z tt = (Ok (T2 2 [[7; 8]]), tt).
Proof. apply (@greedy_search_prompt_at_length (stub peak_at_5)). simpl. lia. Defined.

Lemma greedy_search_eos_out_of_range_witness :
  @greedy_search (stub peak_at_5) (T2 2 [[7; 8]]) 5 7%Z tt = (Raise IndexError, tt).
Proof.
  apply (@greedy_search_eos_out_of_range (stub peak_at_5) 7).
  - exact (stub_well_shaped peak_at_5).
  - simpl. lia.
  - lia.
Defined.

Lemma greedy_search_negative_eos_witness :
  @greedy_search (stub peak_at_5) (T2 2 [[7; 8]]) 5 (-2)%Z tt =
  @greedy_search (stub peak_at_5) (T2 2 [[7; 8]]) 5 (-2 + 7)%Z tt.
Proof.
  apply (@greedy_search_negative_eos (stub peak_at_5) 7).
  - exact (stub_well_shaped peak_at_5).
  - lia.
Defined.

Lemma peak_offers_other : @offers_other (stub peak_at_5) 2.
Proof.
  intros ids pos c. simpl. apply Forall_forall. intros r I.
  apply list_elem_of_fmap in I as (? & -> & _). exists 0, 0%Q. by split.
Qed.

Lemma greedy_search_never_samples_eos_witness :
  exists cols c',
    @greedy_search (stub peak_at_5) (T2 2 [[7; 8]]) 5 2%Z tt
    = (Ok (T2 (2 + (5 - 2)) (extend [[7; 8]] cols)), c') /\
    length cols = 5 - 2 /\
    Forall (Forall (fun t => t < 7 /\ t <> 2)) cols.
Proof.
  destruct (@greedy_search_never_samples_eos (stub peak_at_5) 7 2 (T2 2 [[7; 8]]) 5 tt)
    as (cols & [] & R).
  - exact (stub_well_shaped peak_at_5).
  - lia.
  - exact peak_offers_other.
  - exists cols, tt. exact R.
Defined.

Lemma load_state_dict_low_memory_at_root_witness :
  load_state_dict_low_memory 2 mlp mlp_offered
  = _load_from_state_dict_low_memory mlp [] mlp_offered.
Proof.
  apply (load_state_dict_low_memory_at_root 2 mlp mlp_offered).
  - apply (bool_decide_unpack _). by vm_compute.
  - apply (bool_decide_unpack _). by vm_compute.
  - simpl. lia.
Defined.

Lemma eager_load_resolves_witness :
  exists w',
    _load_from_state_dict_low_memory mlp [] mlp_offered = (Ok tt, w') /\
    (forall q, q ∉ (dict_of_items (named_members mlp_offered (named_modules mlp) ∅)).*2 ->
       objs w' !! q = objs mlp_offered !! q) /\
    forall name param,
      (name, param) ∈ dict_of_items (named_members mlp_offered (named_modules mlp) ∅) ->
      match dict_get ([] ++ name) (mapping mlp_offered) with
      | Some t =>
          objs w' !! param = Some (resolved mlp_offered param t) /\
          is_Some (data (resolved mlp_offered param t))
      | None => objs w' !! param = objs mlp_offered !! param
      end.
Proof.
  apply (eager_load_resolves mlp [] mlp_offered).
  - apply (bool_decide_unpack _). by vm_compute.
  - intros name param t I.
    change (dict_of_items (named_members mlp_offered (named_modules mlp) ∅))
      with [(pystr_of "scale", 0); (pystr_of "linear.weight", 1)] in I.
    repeat (apply elem_of_cons in I as [[= -> ->]|I]); [..|by apply elem_of_nil in I];
      intros G; vm_compute in G; injection G as <-; done.
Defined.

Lemma save_split_twice_witness :
  save_split named_tensors ckpt (save_split named_tensors ckpt blank_world).2
  = (Ok tt, (save_split named_tensors ckpt blank_world).2).
Proof.
  apply (save_split_twice named_tensors ckpt blank_world).
  - exact named_tensors_keys.
  - by vm_compute.
Defined.

Lemma save_split_roundtrip_through_model_witness :
  exists w',
    (save_split mlp_tensors ckpt ;;;
     load_state_dict_dir 2 mlp ckpt ;;;
     materialize mlp) mlp_blank = (Ok tt, w') /\
    forall key t, (key, t) ∈ mlp_tensors ->
      exists param x,
        (key, param) ∈ dict_of_items (named_members mlp_blank (named_modules mlp) ∅) /\
        copy_ (empty (shape t)) t = Some x /\
        data (obj w' param) = Some x.
Proof.
  apply (save_split_roundtrip_through_model mlp_tensors ckpt mlp 2 mlp_blank).
  - apply (bool_decide_unpack _). by vm_compute.
  - intros key I. apply usable_sanitize. revert key I. apply Forall_forall.
    repeat constructor.
  - reflexivity.
  - intros [|[|idx]] key L; simpl in L; [injection L as <-..|done]; by vm_compute.
  - apply (quiet_slots mlp_fresh); [done|exact mlp_quiet].
  - simpl. lia.
  - intros r I. change (tree_parameters mlp_blank mlp) with [0; 1] in I.
    repeat (apply elem_of_cons in I as [->|I]); [done..|by apply elem_of_nil in I].
  - apply Forall_forall. apply (bool_decide_unpack _). by vm_compute.
Defined.

(** C3 fails on the code, in two ways.  The key [w.empty_json]
    sanitizes and is saved as [p0.w.empty_json]; [load_state_dict_dir]
    defers the parameter to that file, and [materialize], going by the
    suffix, opens the tensor file as a JSON side file:
    [UnicodeDecodeError], the parameter stays a placeholder.  And with the
    keys [scale] and [weights.weight], which sanitize as well,
    [load_state_dict_dir] raises [TypeError] in the nested call for the
    child [weights], so that [materialize] is not reached. *)
Lemma save_split_roundtrip_breaks :
  (sanitize_file_name (pystr_of "w.empty_json") = Ok (pystr_of "w.empty_json") /\
   let r := (save_split side_named_tensors ckpt ;;;
             load_state_dict_dir 2 side_named ckpt ;;;
             materialize side_named) side_named_world in
   r.1 = Raise UnicodeDecodeError /\
   fs r.2 !! pystr_of "/ckpt/p0.w.empty_json" = Some (TensorFile ([2], [1%Z; 2%Z])) /\
   obj r.2 0 = Param None (Some (pystr_of "/ckpt/p0.w.empty_json"))) /\
  (Forall (fun key => exists s, sanitize_file_name key = Ok s) net_tensors.*1 /\
   let r := (save_split net_tensors ckpt ;;;
             load_state_dict_dir 2 net ckpt ;;;
             materialize net) net_blank in
   r.1 = Raise TypeError /\
   fs r.2 !! pystr_of "/ckpt/p1.weights.weight" = Some (TensorFile ([2], [1%Z; 2%Z])) /\
   data (obj r.2 0) = None /\ data (obj r.2 1) = None).
Proof.
  split; [by vm_compute|]. split; [|by vm_compute].
  repeat constructor; eexists; by vm_compute.
Qed.

Lemma partial_coverage_is_tolerated_witness :
  (exists w',
     _load_from_state_dict_dir net
       (JObj [(pystr_of "weights.weight", JStr (pystr_of "p0.weights.weight"))])
       ckpt [] net_offered = (Ok tt, w') /\
     forall name param,
       (name, param) ∈ dict_of_items (named_members net_offered (named_modules net) ∅) ->
       match dict_get ([] ++ name)
               [(pystr_of "weights.weight", JStr (pystr_of "p0.weights.weight"))] with
       | None => objs w' !! param = objs net_offered !! param
       | Some v =>
           exists s, v = JStr s /\
             objs w' !! param
             = Some (Param (data (obj net_offered param)) (Some (path_join ckpt s)))
       end) /\
  ((forall q,
      (forall name,
         (name, q) ∈ dict_of_items (named_members net_offered (named_modules net) ∅) ->
         dict_get ([] ++ name) (mapping net_offered) = None) ->
      objs (_load_from_state_dict_low_memory net [] net_offered).2 !! q
      = objs net_offered !! q) /\
   (Ok tt = Ok tt ->
    forall k, dict_get k (mapping (_load_from_state_dict_low_memory net [] net_offered).2) =
      if decide (k ∈ map (fun np : pystr * nat => [] ++ np.1)
                       (dict_of_items (named_members net_offered (named_modules net) ∅)))
      then None else dict_get k (mapping net_offered))).
Proof.
  destruct (partial_coverage_is_tolerated net [] net_offered) as [D E]. split.
  - apply D. intros k v G. simpl in G. destruct (decide _); [|done].
    injection G as <-. eauto.
  - apply (E ltac:(apply (bool_decide_unpack _); by vm_compute) (Ok tt)
             (_load_from_state_dict_low_memory net [] net_offered).2).
    by vm_compute.
Defined.

End FurtherExamples.
